(** * Number partitioning with QAOA and VQE: a shallow embedding

    The two notebooks of the repository solve the number-partitioning
    problem with a variational loop: a list [numbers] is encoded as the
    Ising Hamiltonian [(sum a_i Z_i)^2], a parameterised circuit is built,
    its energy is estimated (from samples in the QAOA notebook, from the
    exact state vector in the VQE notebook) and the final samples are
    decoded into partitions.

    Conventions of the embedding.
    - [numbers] comes from [np.random.randint(-10, 100, 6)], an array of
      64-bit integers: every product, sum and power of its entries is taken
      in [np.int64] and wraps around, which [int64] writes out over [Z].
      Theorems that compare a result with exact arithmetic assume
      [Spec.fits_int64 numbers], which the numbers of the notebooks meet.
    - Python exceptions are values of [exn]; a computation that may raise
      returns [result A].
    - A measured bit is an integer 0 or 1, modelled as [nat]; a measurement
      row is a [list nat], a sample batch a list of rows.
    - Floating-point values (the sampled mean, rotation angles, amplitudes
      and energies of the exact mode) are modelled by exact numbers:
      [Q] for the mean of integers, [R] elsewhere.
    - A Python [dict] is an association list in insertion order, which is
      the order its [items()] iterate in. *)

From Stdlib Require Import ZArith List Lia Bool Arith Finite.
From Stdlib Require Import QArith Reals Lra Psatz.
From Stdlib Require Import FunctionalExtensionality Permutation.
Import ListNotations.

Close Scope Q_scope.
Close Scope R_scope.
Open Scope nat_scope.

Set Implicit Arguments.

(** ** Python-level building blocks *)

Module Py.

Inductive exn := IndexError | ZeroDivisionError | ValueError | KeyError.

Inductive result (A : Type) : Type :=
| Ok (a : A)
| Raise (e : exn).

Arguments Ok {A} a.
Arguments Raise {A} e.

Definition bind {A B} (m : result A) (k : A -> result B) : result B :=
  match m with
  | Ok a => k a
  | Raise e => Raise e
  end.

Definition raises {A} (m : result A) : Prop := exists e, m = Raise e.

(** [l[i]] for a non-negative index. *)
Definition getitem {A} (l : list A) (i : nat) : result A :=
  match nth_error l i with
  | Some a => Ok a
  | None => Raise IndexError
  end.

(** [range(a, b)]. *)
Definition range (a b : nat) : list nat := seq a (b - a).

(** [for x in xs: body], the loop variables threaded as a state [s]. *)
Fixpoint for_in {S X} (xs : list X) (body : S -> X -> result S) (s : S)
  : result S :=
  match xs with
  | [] => Ok s
  | x :: xs' => bind (body s x) (for_in xs' body)
  end.

(** A comprehension (or generator consumed to the end) whose element
    expression may raise. *)
Fixpoint comprehension {X Y} (f : X -> result Y) (xs : list X)
  : result (list Y) :=
  match xs with
  | [] => Ok []
  | x :: xs' =>
      bind (f x) (fun y => bind (comprehension f xs') (fun ys => Ok (y :: ys)))
  end.

(** [enumerate(l)]. *)
Definition enumerate {A} (l : list A) : list (nat * A) :=
  combine (seq 0 (length l)) l.

(** The builtin [sum]: starts from 0 and adds from the left. *)
Definition pysum (l : list Z) : Z := fold_left Z.add l 0%Z.

(** The value an [np.int64] operation keeps of the exact result [z]: the
    representative of [z] modulo [2^64] in [[-2^63, 2^63)]. *)
Definition int64 (z : Z) : Z := ((z + 2 ^ 63) mod 2 ^ 64 - 2 ^ 63)%Z.

(** The builtin [sum] over [np.int64] values: every addition wraps. *)
Definition np_sum (l : list Z) : Z :=
  fold_left (fun acc x => int64 (acc + x)) l 0%Z.

(** [a // b] on non-negative integers. *)
Definition floordiv (a b : nat) : result nat :=
  if Nat.eqb b 0 then Raise ZeroDivisionError else Ok (a / b).

(** [[f(x) for x in xs if cond(x)]]: the condition is evaluated first, the
    element expression only where it holds. *)
Fixpoint comprehension_if {X Y} (cond : X -> result bool) (f : X -> result Y)
  (xs : list X) : result (list Y) :=
  match xs with
  | [] => Ok []
  | x :: xs' =>
      bind (cond x) (fun c =>
        if c
        then bind (f x) (fun y =>
               bind (comprehension_if cond f xs') (fun ys => Ok (y :: ys)))
        else comprehension_if cond f xs')
  end.

(** The builtin [min] over integers: [ValueError] on an empty argument. *)
Definition pymin (l : list Z) : result Z :=
  match l with
  | [] => Raise ValueError
  | x :: xs => Ok (fold_left Z.min xs x)
  end.

(** A float whose value is an exact quotient of integers, or [nan]. *)
Inductive float := Finite (q : Q) | NaN.

(** [np.mean] of a list of integers: their sum over their number; on an
    empty list numpy warns and returns [nan]. numpy adds the integers up as
    floats, so this sum does not wrap. *)
Definition np_mean (l : list Z) : float :=
  match l with
  | [] => NaN
  | _ => Finite (inject_Z (pysum l) / inject_Z (Z.of_nat (length l)))%Q
  end.

End Py.

Import Py.

Declare Scope py_scope.
Delimit Scope py_scope with py.
Notation "x <- m ;; k" := (bind m (fun x => k))
  (at level 61, m at next level, right associativity) : py_scope.
Notation "' pat <- m ;; k" := (bind m (fun x => match x with pat => k end))
  (at level 61, pat pattern, m at next level, right associativity) : py_scope.
Local Open Scope py_scope.

(** ** Problem encoder (QAOA notebook, cell "Build Cost Hamiltonian") *)

Module Encoder.

(** [cirq.ZZ(qubits[i], qubits[j]) ** weight]: a ZZ interaction on the
    qubits of index [zq1] and [zq2] with integer exponent [weight]. *)
Record zz_term := ZZ { zq1 : nat; zq2 : nat; weight : Z }.

Record HamiltonianSpec := MkHamiltonian
  { h_constant_term : Z; h_cost_terms : list zz_term }.

Section WithNumbers.
Variable numbers : list Z.

Definition n_qubits : nat := length numbers.

(** [constant_term = sum(a*a for a in numbers)] *)
Definition constant_term : Z :=
  np_sum (map (fun a => int64 (a * a)) numbers).

(** The double loop appending to [cost_terms]. *)
Definition cost_terms : result (list zz_term) :=
  for_in (range 0 n_qubits)
    (fun cost_terms i =>
       for_in (range (i + 1) n_qubits)
         (fun cost_terms j =>
            ai <- getitem numbers i ;;
            aj <- getitem numbers j ;;
            let weight := int64 (int64 (2 * ai) * aj) in
            Ok (cost_terms ++ [ZZ i j weight]))
         cost_terms)
    [].

(** The whole cell: the Hamiltonian handed to the rest of the notebook. *)
Definition problem_encoder : result HamiltonianSpec :=
  ts <- cost_terms ;;
  Ok (MkHamiltonian constant_term ts).

End WithNumbers.

End Encoder.

(** ** Sampled-mode energy (QAOA notebook, cell "Optimization Setup") *)

Module QAOA.

Section WithNumbers.
Variable numbers : list Z.

(** One shot of [energy_from_measurements]:
    [(sum(numbers[i]*(-1)**b for i, b in enumerate(bs)))**2] *)
Definition shot_energy (bs : list nat) : result Z :=
  terms <- comprehension
             (fun ib : nat * nat =>
                let (i, b) := ib in
                a <- getitem numbers i ;;
                Ok (int64 (a * (-1) ^ Z.of_nat b)))
             (enumerate bs) ;;
  Ok (int64 (np_sum terms ^ 2)).

Definition energy_from_measurements (measurements : list (list nat))
  : result float :=
  costs <- comprehension shot_energy measurements ;;
  Ok (np_mean costs).

(** [simulator.run(circuit, resolved, repetitions=...)]: the sampling oracle,
    one draw of which is a batch of measurement rows. *)
Variable run : R -> R -> nat -> list (list nat).

Definition objective (params : list R) : result float :=
  gamma <- getitem params 0 ;;
  beta <- getitem params 1 ;;
  energy_from_measurements (run gamma beta 500).

End WithNumbers.

End QAOA.

(** ** Solution decoder (last code cell of both notebooks)

    The VQE notebook repeats the QAOA cell with the dictionary called
    [partition_counts] instead of [partition_costs]; one model serves both. *)

Module Decoder.

Record info := MkInfo { cost : Z; count : nat }.

(** The dictionary from partition tuples to [{'cost': _, 'count': _}]. *)
Definition dict := list (list Z * info).

Definition key_eqb (k k' : list Z) : bool :=
  if list_eq_dec Z.eq_dec k k' then true else false.

(** [k in d] *)
Definition dict_contains (d : dict) (k : list Z) : bool :=
  existsb (fun kv => key_eqb k (fst kv)) d.

(** [d[k]] *)
Fixpoint dict_get (d : dict) (k : list Z) : result info :=
  match d with
  | [] => Raise KeyError
  | (k', v) :: d' => if key_eqb k k' then Ok v else dict_get d' k
  end.

(** [d[k]['count'] += 1] for a key of [d] *)
Fixpoint dict_incr_count (d : dict) (k : list Z) : dict :=
  match d with
  | [] => []
  | (k', v) :: d' =>
      if key_eqb k k'
      then (k', MkInfo (cost v) (count v + 1)) :: d'
      else (k', v) :: dict_incr_count d' k
  end.

(** [d[k] = v] for a key that is not in [d]: appended in insertion order. *)
Definition dict_set_new (d : dict) (k : list Z) (v : info) : dict :=
  d ++ [(k, v)].

Record row := MkRow
  { r_partition : list Z;
    r_sub_a : list Z;
    r_sub_b : list Z;
    r_sum_difference : Z;
    r_frequency : nat }.

Section WithNumbers.
Variable numbers : list Z.

Definition n_qubits : nat := length numbers.

(** [[1 if bit == 0 else -1 for bit in bits]] *)
Definition bitstring_to_partition (bits : list nat) : list Z :=
  map (fun bit => if Nat.eqb bit 0 then 1 else -1)%Z bits.

(** [S = sum(a * spin for a, spin in zip(numbers, spin_assignment))],
    [return S * S] *)
Definition compute_cost (spin_assignment : list Z) : Z :=
  let S := np_sum (map (fun p : Z * Z => int64 (fst p * snd p))
                     (combine numbers spin_assignment)) in
  int64 (S * S).

(** The body of [for bits in bitstring_list]. *)
Definition count_shot (partition_costs : dict) (bits : list nat) : dict :=
  let partition := bitstring_to_partition bits in
  let cost := compute_cost partition in
  if dict_contains partition_costs partition
  then dict_incr_count partition_costs partition
  else dict_set_new partition_costs partition (MkInfo cost 1).

Definition partition_costs (measurements : list (list nat)) : dict :=
  fold_left count_shot measurements [].

(** [[p for p, info in partition_costs.items() if info['cost'] == min_cost]] *)
Definition optimal_partitions (d : dict) (min_cost : Z) : list (list Z) :=
  map fst (filter (fun kv => Z.eqb (cost (snd kv)) min_cost) d).

(** [[numbers[i] for i in range(n_qubits) if partition[i] == spin]] *)
Definition subset (partition : list Z) (spin : Z) : result (list Z) :=
  comprehension_if
    (fun i => s <- getitem partition i ;; Ok (Z.eqb s spin))
    (fun i => getitem numbers i)
    (range 0 n_qubits).

(** The loop filling [table_data]. *)
Definition table_data (d : dict) (optimal : list (list Z))
  : result (list row) :=
  for_in optimal
    (fun table_data partition =>
       sub_a <- subset partition 1 ;;
       sub_b <- subset partition (-1) ;;
       entry <- dict_get d partition ;;
       Ok (table_data ++
             [MkRow partition sub_a sub_b
                    (int64 (np_sum sub_a - np_sum sub_b)) (count entry)]))
    [].

(** From the measurements to the rows of the printed table. *)
Definition decode (measurements : list (list nat)) : result (list row) :=
  let d := partition_costs measurements in
  min_cost <- pymin (map (fun kv => cost (snd kv)) d) ;;
  table_data d (optimal_partitions d min_cost).

End WithNumbers.

End Decoder.

(** ** Hardware-efficient ansatz (VQE notebook, [create_ansatz]) *)

Module Ansatz.

(** The operations appended to the circuit. [cirq.rx(t)(q)] is [Rx t q];
    [cirq.ZZPowGate(exponent=e)(qa, qb)] is [ZZPowGate e qa qb]. Qubit
    [qubits[i]] is named by its index [i]; the argument [qubits] is the
    global list of the notebook, whose length is the global [n_qubits]. *)
Inductive gate :=
| H (q : nat)
| Rx (rads : R) (q : nat)
| ZZPowGate (exponent : R) (qa qb : nat).

(** The local variables of [create_ansatz]. [skipped] is a ghost counter:
    the number of times the guard [param_idx < len(params)] was false. *)
Record builder := MkBuilder
  { circuit : list gate; param_idx : nat; skipped : nat }.

Section WithParams.
Variable params : list R.
Variable n_qubits : nat.

(** [circuit.append(cirq.rx(params[param_idx])(qubits[i])); param_idx += 1] *)
Definition rx_step (st : builder) (i : nat) : result builder :=
  p <- getitem params (param_idx st) ;;
  Ok (MkBuilder (circuit st ++ [Rx p i]) (param_idx st + 1) (skipped st)).

(** The guarded body of the entangling loops. *)
Definition zz_step (i : nat) (st : builder) (j : nat) : result builder :=
  if param_idx st <? length params
  then
    p <- getitem params (param_idx st) ;;
    Ok (MkBuilder (circuit st ++ [ZZPowGate (p / PI) i j])
                  (param_idx st + 1) (skipped st))
  else Ok (MkBuilder (circuit st) (param_idx st) (skipped st + 1)).

(** The body of [for _ in range(n_layers)]. *)
Definition layer (st : builder) (_ : nat) : result builder :=
  st <- for_in (range 0 n_qubits) rx_step st ;;
  for_in (range 0 n_qubits)
    (fun st i => for_in (range (i + 1) n_qubits) (zz_step i) st)
    st.

Definition build_ansatz : result builder :=
  let circuit := map H (range 0 n_qubits) in
  n_layers <- floordiv (length params)
                (n_qubits + n_qubits * (n_qubits - 1) / 2) ;;
  let param_idx := 0 in
  for_in (range 0 n_layers) layer (MkBuilder circuit param_idx 0).

Definition create_ansatz : result (list gate) :=
  st <- build_ansatz ;;
  Ok (circuit st).

End WithParams.

End Ansatz.

(** ** The state-vector simulator

    [cirq.Simulator] is a collaborator outside the repository. The three
    gates the ansatz uses are given their unitary action on the amplitudes
    of the computational basis, with exact complex arithmetic:
    - [H]: the matrix [[1, 1], [1, -1]] over [sqrt 2];
    - [rx(t)]: [[cos(t/2), -i sin(t/2)], [-i sin(t/2), cos(t/2)]];
    - [ZZPowGate(exponent=e)]: diagonal, the phase [exp(i pi e)] on the
      basis states whose two bits differ.
    A basis state of [n] qubits is a list of [n] bits, qubit 0 first. *)

Module Sim.

Import Ansatz.
Local Open Scope R_scope.

Definition C : Type := R * R.

Definition Cadd (a b : C) : C := (fst a + fst b, snd a + snd b).

Definition Cmul (a b : C) : C :=
  (fst a * fst b - snd a * snd b, fst a * snd b + snd a * fst b).

Definition Cnorm2 (a : C) : R := fst a * fst a + snd a * snd a.

(** The amplitude of every basis state. *)
Definition state_vector : Type := list bool -> C.

Definition bit (q : nat) (x : list bool) : bool := nth q x false.

Fixpoint setbit (q : nat) (b : bool) (x : list bool) : list bool :=
  match x, q with
  | [], _ => []
  | _ :: x', O => b :: x'
  | y :: x', S q' => y :: setbit q' b x'
  end.

Record mat2 := Mat2 { m00 : C; m01 : C; m10 : C; m11 : C }.

Definition H_matrix : mat2 :=
  Mat2 (/ sqrt 2, 0) (/ sqrt 2, 0) (/ sqrt 2, 0) (- / sqrt 2, 0).

Definition Rx_matrix (rads : R) : mat2 :=
  Mat2 (cos (rads / 2), 0) (0, - sin (rads / 2))
       (0, - sin (rads / 2)) (cos (rads / 2), 0).

(** A one-qubit gate on qubit [q]. *)
Definition apply1 (U : mat2) (q : nat) (psi : state_vector) : state_vector :=
  fun x =>
    let a0 := psi (setbit q false x) in
    let a1 := psi (setbit q true x) in
    if bit q x
    then Cadd (Cmul (m10 U) a0) (Cmul (m11 U) a1)
    else Cadd (Cmul (m00 U) a0) (Cmul (m01 U) a1).

(** [ZZPowGate(exponent=e)] on qubits [qa], [qb]. *)
Definition apply_zzpow (e : R) (qa qb : nat) (psi : state_vector)
  : state_vector :=
  fun x =>
    if xorb (bit qa x) (bit qb x)
    then Cmul (cos (PI * e), sin (PI * e)) (psi x)
    else psi x.

Definition apply_gate (psi : state_vector) (g : gate) : state_vector :=
  match g with
  | H q => apply1 H_matrix q psi
  | Rx rads q => apply1 (Rx_matrix rads) q psi
  | ZZPowGate e qa qb => apply_zzpow e qa qb psi
  end.

(** The initial state: every qubit at 0. *)
Definition ket0 : state_vector :=
  fun x => if existsb (fun b => b) x then (0, 0) else (1, 0).

(** [simulator.simulate(circuit).final_state_vector]: the operations act in
    the order they were appended. *)
Definition simulate (c : list gate) : state_vector :=
  fold_left apply_gate c ket0.

(** The sum of [f] over the basis states of [n] qubits. *)
Fixpoint sum_bits (n : nat) (f : list bool -> R) : R :=
  match n with
  | O => f []
  | S n' =>
      sum_bits n' (fun x => f (false :: x)) + sum_bits n' (fun x => f (true :: x))
  end.

(** The eigenvalue of [Z_i Z_j] on a basis state. *)
Definition zz_sign (i j : nat) (x : list bool) : R :=
  if xorb (bit i x) (bit j x) then -1 else 1.

(** [(cirq.Z(qubits[i]) * cirq.Z(qubits[j]))
       .expectation_from_state_vector(state_vector, qubit_map).real] *)
Definition zz_expectation (n : nat) (psi : state_vector) (i j : nat) : R :=
  sum_bits n (fun x => Cnorm2 (psi x) * zz_sign i j x).

(** The squared norm of a state of [n] qubits. *)
Definition norm2 (n : nat) (psi : state_vector) : R :=
  sum_bits n (fun x => Cnorm2 (psi x)).

(** A gate whose qubits are among the first [n]. *)
Definition gate_fits (n : nat) (g : gate) : Prop :=
  match g with
  | H q => (q < n)%nat
  | Rx _ q => (q < n)%nat
  | ZZPowGate _ qa qb => (qa < n)%nat /\ (qb < n)%nat
  end.

(** A rotation by the angle 0; [ZZPowGate] gets its angle divided by pi. *)
Definition zero_rotation (g : gate) : Prop :=
  match g with
  | H _ => False
  | Rx rads _ => rads = 0
  | ZZPowGate e _ _ => e = 0 / PI
  end.

(** A matrix that keeps the norm of the pair of amplitudes it acts on. *)
Definition isometry (U : mat2) : Prop :=
  forall a b : C,
    Cnorm2 (Cadd (Cmul (m00 U) a) (Cmul (m01 U) b))
    + Cnorm2 (Cadd (Cmul (m10 U) a) (Cmul (m11 U) b))
    = Cnorm2 a + Cnorm2 b.

(** The state after the Hadamard gates on the qubits before [k]: the basis
    states whose other bits are 0 share the amplitude [(1/sqrt 2)^k]. *)
Definition plus_state (k : nat) : state_vector :=
  fun x =>
    if existsb (fun b => b) (skipn k x) then (0, 0) else ((/ sqrt 2) ^ k, 0).

End Sim.

(** ** Exact-mode energy (VQE notebook, [expectation_value]) *)

Module VQE.

Import Ansatz Sim.

Section WithNumbers.
Variable numbers : list Z.

Definition n_qubits : nat := length numbers.

Definition expectation_value (params : list R) : result R :=
  circuit <- create_ansatz params n_qubits ;;
  let state_vector := simulate circuit in
  let energy := IZR (np_sum (map (fun a => int64 (a * a)) numbers)) in
  for_in (range 0 n_qubits)
    (fun energy i =>
       for_in (range (i + 1) n_qubits)
         (fun energy j =>
            ai <- getitem numbers i ;;
            aj <- getitem numbers j ;;
            let weight := int64 (int64 (2 * ai) * aj) in
            let zz_val := zz_expectation n_qubits state_vector i j in
            Ok (energy + IZR weight * zz_val)%R)
         energy)
    energy.

End WithNumbers.

End VQE.

(** ** The vocabulary of the specification

    The definitions below are not taken from the notebooks: they say, in
    the words of the specification, what the code above is compared with. *)

Module Spec.

Import Ansatz.

(** The unordered index pairs [(i, j)], [i < j < n], in the canonical order
    [(0,1), (0,2), ..., (n-2,n-1)]. *)
Definition pairs (n : nat) : list (nat * nat) :=
  flat_map (fun i => map (pair i) (seq (i + 1) (n - (i + 1)))) (seq 0 n).

(** The pairwise term on the pair [ij]: weight [2 * a_i * a_j]. *)
Definition term_of (numbers : list Z) (ij : nat * nat) : Encoder.zz_term :=
  Encoder.ZZ (fst ij) (snd ij)
    (2 * nth (fst ij) numbers 0 * nth (snd ij) numbers 0)%Z.

(** The term the code builds on the pair [ij]: the weight taken in
    [np.int64]. *)
Definition term_of_int64 (numbers : list Z) (ij : nat * nat)
  : Encoder.zz_term :=
  Encoder.ZZ (fst ij) (snd ij)
    (int64 (2 * nth (fst ij) numbers 0 * nth (snd ij) numbers 0)%Z).

(** [sum of |a_i|]. *)
Definition abs_total (numbers : list Z) : Z :=
  fold_right Z.add 0%Z (map Z.abs numbers).

(** The range in which no [np.int64] operation of the notebooks on
    [numbers] wraps: the square of [sum of |a_i|] is below [2^63]. Every
    partial signed sum, its square, the sum of the squares and every
    product [2 * a_i * a_j] are bounded by that square. *)
Definition fits_int64 (numbers : list Z) : Prop :=
  (abs_total numbers * abs_total numbers < 2 ^ 63)%Z.

(** [sum of a_i squared]. *)
Fixpoint sum_squares (numbers : list Z) : Z :=
  match numbers with
  | [] => 0
  | a :: rest => a * a + sum_squares rest
  end%Z.

(** [sum of a_i * s_i] over the positions the two sequences share. *)
Fixpoint weighted_sum (numbers spins : list Z) : Z :=
  match numbers, spins with
  | a :: numbers', s :: spins' => a * s + weighted_sum numbers' spins'
  | _, _ => 0
  end%Z.

(** The spin of a measured bit: [+1 if bit = 0 else -1]. *)
Definition spin_of_bit (b : nat) : Z :=
  match b with O => 1 | S _ => -1 end.

(** [S = sum of a_i * (+1 if bit_i = 0 else -1)] for one shot. *)
Definition signed_sum (numbers : list Z) (bits : list nat) : Z :=
  weighted_sum numbers (map spin_of_bit bits).

(** The total of a list of integers. *)
Definition total (l : list Z) : Z := fold_right Z.add 0%Z l.

(** The arithmetic mean over the shots of [S] squared. *)
Definition mean_square_sum (numbers : list Z) (batch : list (list nat)) : Q :=
  (inject_Z (total (map (fun bits => signed_sum numbers bits ^ 2)%Z batch))
   / inject_Z (Z.of_nat (length batch)))%Q.

(** A batch whose rows have one entry per number. *)
Definition rows_fit (numbers : list Z) (batch : list (list nat)) : Prop :=
  Forall (fun bits => length bits = length numbers) batch.

(** A batch whose entries are bits. *)
Definition rows_binary (batch : list (list nat)) : Prop :=
  Forall (Forall (fun b => b <= 1)) batch.

(** The global spin-flip of a partition. *)
Definition spin_flip (partition : list Z) : list Z := map Z.opp partition.

(** The numbers whose spin in [partition] is [spin]. *)
Definition members (numbers partition : list Z) (spin : Z) : list Z :=
  map fst (filter (fun p : Z * Z => Z.eqb (snd p) spin)
             (combine numbers partition)).

(** The sum of the counts of a dictionary. *)
Definition total_count (d : Decoder.dict) : nat :=
  fold_right (fun kv s => Decoder.count (snd kv) + s) 0 d.

(** How often a partition occurs in a list of partitions. *)
Definition occurrences (observed : list (list Z)) (p : list Z) : nat :=
  count_occ (list_eq_dec Z.eq_dec) observed p.

(** [d] is the statistics of the partitions [observed]: one entry per
    partition that occurs, holding its cost and how often it occurs. *)
Definition statistics_of (numbers : list Z) (observed : list (list Z))
  (d : Decoder.dict) : Prop :=
  NoDup (map fst d)
  /\ total_count d = length observed
  /\ forall p,
       Decoder.dict_get d p
       = if Nat.eqb (occurrences observed p) 0
         then Raise KeyError
         else Ok (Decoder.MkInfo (Decoder.compute_cost numbers p)
                    (occurrences observed p)).

(** The free angles of one layer: [n] rotations and one per pair. *)
Definition per_layer (n : nat) : nat := n + n * (n - 1) / 2.

(** The gates of one layer fed with the angles [chunk]. *)
Definition layer_gates (n : nat) (chunk : list R) : list gate :=
  map (fun pi : R * nat => Rx (fst pi) (snd pi))
      (combine (firstn n chunk) (seq 0 n))
  ++ map (fun pij : R * (nat * nat) =>
            ZZPowGate (fst pij / PI) (fst (snd pij)) (snd (snd pij)))
         (combine (skipn n chunk) (pairs n)).

(** The gates of [layers] whole layers, the angles taken in order. *)
Fixpoint layers_gates (n layers : nat) (angles : list R) : list gate :=
  match layers with
  | O => []
  | S layers' =>
      layer_gates n (firstn (per_layer n) angles)
      ++ layers_gates n layers' (skipn (per_layer n) angles)
  end.

(** A rotation gate whose angle is one of [angles]. *)
Definition rotation_from (angles : list R) (g : gate) : Prop :=
  match g with
  | H _ => False
  | Rx rads _ => In rads angles
  | ZZPowGate e _ _ => exists p, In p angles /\ e = (p / PI)%R
  end.

(** The sum of [f i j] over the pairs [i < j < n]. *)
Definition pair_sum (n : nat) (f : nat -> nat -> R) : R :=
  fold_right (fun ij s => (f (fst ij) (snd ij) + s)%R) 0%R (pairs n).

(** Every measurement row of [n] bits. *)
Fixpoint all_bitstrings (n : nat) : list (list nat) :=
  match n with
  | O => [[]]
  | S n' =>
      map (cons 0) (all_bitstrings n') ++ map (cons 1) (all_bitstrings n')
  end.

(** The expectation of the cost by direct enumeration: every one of the
    [2^n] bitstrings has probability [1 / 2^n]. *)
Definition brute_force_energy (numbers : list Z) : R :=
  (IZR (total (map (fun bits =>
                      Decoder.compute_cost numbers
                        (Decoder.bitstring_to_partition bits))
                   (all_bitstrings (length numbers))))
   / 2 ^ length numbers)%R.

End Spec.

(** ** Further vocabulary: what the encoder, the decoder and the sampled
    energy are compared with beyond the properties above *)

Module Ising.

(** The value of an encoded Hamiltonian on a spin assignment: the constant
    term plus, for every pairwise term, its weight times the two spins (the
    eigenvalue of [Z_i Z_j] on the basis state). *)
Definition value (h : Encoder.HamiltonianSpec) (spins : list Z) : Z :=
  (Encoder.h_constant_term h
   + Spec.total
       (map (fun t =>
               Encoder.weight t * nth (Encoder.zq1 t) spins 0
               * nth (Encoder.zq2 t) spins 0)
          (Encoder.h_cost_terms h)))%Z.

End Ising.

Module Report.

(** The row the table shows for the partition [p] of a batch whose
    partitions are [observed]. *)
Definition expected_row (numbers : list Z) (observed : list (list Z))
  (p : list Z) : Decoder.row :=
  Decoder.MkRow p (Spec.members numbers p 1) (Spec.members numbers p (-1))
    (int64 (np_sum (Spec.members numbers p 1)
            - np_sum (Spec.members numbers p (-1))))
    (Spec.occurrences observed p).

(** The partitions of a list in the order they first occur. *)
Fixpoint first_occurrences (l : list (list Z)) : list (list Z) :=
  match l with
  | [] => []
  | p :: l' =>
      p :: filter (fun q => negb (Decoder.key_eqb q p)) (first_occurrences l')
  end.

(** The costs of a dictionary, each counted as often as its partition. *)
Definition counted_cost (d : Decoder.dict) : Z :=
  Spec.total
    (map (fun kv =>
            Decoder.cost (snd kv) * Z.of_nat (Decoder.count (snd kv)))%Z d).

(** A partition: every entry is a spin. *)
Definition spins (p : list Z) : Prop :=
  Forall (fun s => s = 1%Z \/ s = (-1)%Z) p.

End Report.

Module Sampled.

(** What one shot contributes to the sampled energy: the square of the sum
    of [a_i * (-1)^b_i] over the positions the row shares with [numbers],
    everything in [np.int64]. *)
Definition shot_value (numbers : list Z) (bits : list nat) : Z :=
  int64
    (np_sum
       (map (fun ab : Z * nat => int64 (fst ab * (-1) ^ Z.of_nat (snd ab)))
          (combine numbers bits)) ^ 2).

(** The cost the decoder gives the partition of a row. *)
Definition shot_cost (numbers : list Z) (bits : list nat) : Z :=
  Decoder.compute_cost numbers (Decoder.bitstring_to_partition bits).

End Sampled.

Module Angles.

(** The angle a gate of the ansatz was built from: [rx(t)] keeps [t],
    [ZZPowGate(exponent=t/pi)] keeps [t / pi]; a Hadamard gate has none. *)
Definition angle_of (g : Ansatz.gate) : list R :=
  match g with
  | Ansatz.H _ => []
  | Ansatz.Rx rads _ => [rads]
  | Ansatz.ZZPowGate e _ _ => [(e * PI)%R]
  end.

(** The angles of a circuit, in gate order. *)
Definition angles (c : list Ansatz.gate) : list R := flat_map angle_of c.

End Angles.

Module Born.

Import Sim.

(** The measurement row of a basis state: one bit per qubit. *)
Definition row (x : list bool) : list nat :=
  map (fun b : bool => if b then 1 else 0) x.

(** The probability with which a state gives a basis state when measured. *)
Definition probability (psi : state_vector) (x : list bool) : R :=
  Cnorm2 (psi x).

(** The mean of the cost of the measured partition under a state. *)
Definition expected_cost (numbers : list Z) (psi : state_vector) : R :=
  sum_bits (length numbers)
    (fun x =>
       probability psi x * IZR (Sampled.shot_cost numbers (row x)))%R.

End Born.

(** ** The QAOA circuit (QAOA notebook, cells "Build Mixing Hamiltonian" and
    "QAOA Circuit Construction")

    The notebook builds the circuit once with the symbols [gamma] and
    [beta] and resolves them at every run; the model is the resolved
    circuit, a function of the two values. *)

Module QAOACircuit.

Import Sim.
Local Open Scope R_scope.

(** The operations of the circuit. [cirq.ZZ(qa, qb) ** e] is
    [ZZPow e qa qb], [cirq.X(q) ** e] is [XPow e q], and the final
    [cirq.measure] of all the qubits is [Measure qubits]. *)
Inductive op :=
| H (q : nat)
| ZZPow (exponent : R) (qa qb : nat)
| XPow (exponent : R) (q : nat)
| Measure (qs : list nat).

(** [mixer = [cirq.X(q) for q in qubits]]: each gate [X] is named by its
    qubit; its exponent is 1. *)
Definition mixer (qubits : list nat) : list nat := qubits.

(** The final [cirq.measure] of the qubits: cirq refuses to measure an
    empty set of qubits with a [ValueError]. *)
Definition measure (qubits : list nat) : result op :=
  match qubits with
  | [] => Raise ValueError
  | _ => Ok (Measure qubits)
  end.

(** [term ** gamma] for a term [cirq.ZZ(qi, qj) ** weight] of [cost_terms]:
    the exponents multiply. *)
Definition cost_pow (term : Encoder.zz_term) (gamma : R) : op :=
  ZZPow (IZR (Encoder.weight term) * gamma)
    (Encoder.zq1 term) (Encoder.zq2 term).

(** [term ** beta] for a term [cirq.X(q)] of [mixer]. *)
Definition mixer_pow (q : nat) (beta : R) : op := XPow (1 * beta) q.

Definition circuit (numbers : list Z) (gamma beta : R)
  : result (list op) :=
  cost_terms <- Encoder.cost_terms numbers ;;
  let qubits := range 0 (length numbers) in
  let circuit := map H qubits in
  let circuit :=
    fold_left (fun circuit term => circuit ++ [cost_pow term gamma])
      cost_terms circuit in
  let circuit :=
    fold_left (fun circuit term => circuit ++ [mixer_pow term beta])
      (mixer qubits) circuit in
  measurement <- measure qubits ;;
  Ok (circuit ++ [measurement]).

(** [X ** t]: the matrix [[u, v], [v, u]] with [u = (1 + exp(i pi t)) / 2]
    and [v = (1 - exp(i pi t)) / 2]. *)
Definition XPow_matrix (t : R) : mat2 :=
  Mat2 ((1 + cos (PI * t)) / 2, sin (PI * t) / 2)
       ((1 - cos (PI * t)) / 2, - sin (PI * t) / 2)
       ((1 - cos (PI * t)) / 2, - sin (PI * t) / 2)
       ((1 + cos (PI * t)) / 2, sin (PI * t) / 2).

(** The action of an operation on the state; the final measurement leaves
    the state it samples from as it is. *)
Definition apply_op (psi : state_vector) (o : op) : state_vector :=
  match o with
  | H q => apply1 H_matrix q psi
  | ZZPow e qa qb => apply_zzpow e qa qb psi
  | XPow t q => apply1 (XPow_matrix t) q psi
  | Measure _ => psi
  end.

(** The state the samples of [simulator.run] are drawn from. *)
Definition state (c : list op) : state_vector := fold_left apply_op c ket0.

(** An operation whose qubits are among the first [n]. *)
Definition op_fits (n : nat) (o : op) : Prop :=
  match o with
  | H q => (q < n)%nat
  | ZZPow _ qa qb => (qa < n)%nat /\ (qb < n)%nat
  | XPow _ q => (q < n)%nat
  | Measure _ => True
  end.

End QAOACircuit.

(** * Proofs *)

Unset Implicit Arguments.

(** ** Loops, sums and indexing *)

Lemma getitem_nth {A} (l : list A) (i : nat) (d : A) :
  i < length l -> getitem l i = Ok (nth i l d).
Proof.
  intros Hi. unfold getitem.
  rewrite (nth_error_nth' l d Hi). reflexivity.
Qed.

Lemma fold_left_add_total (l : list Z) (a : Z) :
  fold_left Z.add l a = (a + Spec.total l)%Z.
Proof.
  revert a. induction l as [|x l IH]; intros a; simpl.
  - lia.
  - rewrite IH. lia.
Qed.

Lemma pysum_total (l : list Z) : pysum l = Spec.total l.
Proof. unfold pysum. rewrite fold_left_add_total. lia. Qed.

Lemma total_app (l l' : list Z) :
  Spec.total (l ++ l') = (Spec.total l + Spec.total l')%Z.
Proof. induction l as [|x l IH]; simpl; lia. Qed.

Lemma for_in_app {S X} (xs ys : list X) (body : S -> X -> result S) (s : S) :
  for_in (xs ++ ys) body s = bind (for_in xs body s) (for_in ys body).
Proof.
  revert s. induction xs as [|x xs IH]; intros s; simpl.
  - reflexivity.
  - destruct (body s x) as [s'|e]; simpl; [apply IH | reflexivity].
Qed.

Lemma for_in_map {S X Y} (f : X -> Y) (xs : list X)
  (body : S -> Y -> result S) (s : S) :
  for_in (map f xs) body s = for_in xs (fun s x => body s (f x)) s.
Proof.
  revert s. induction xs as [|x xs IH]; intros s; simpl.
  - reflexivity.
  - destruct (body s (f x)); simpl; [apply IH | reflexivity].
Qed.

Lemma for_in_ext {S X} (xs : list X) (body body' : S -> X -> result S) (s : S) :
  (forall s x, In x xs -> body s x = body' s x) ->
  for_in xs body s = for_in xs body' s.
Proof.
  revert s. induction xs as [|x xs IH]; intros s Hb; simpl.
  - reflexivity.
  - rewrite Hb by now left.
    destruct (body' s x); simpl; [| reflexivity].
    apply IH. intros; apply Hb; now right.
Qed.

(** Nested loops are one loop over the flattened index list. *)
Lemma for_in_flat_map {S X Y} (g : X -> list Y) (xs : list X)
  (body : S -> Y -> result S) (s : S) :
  for_in (flat_map g xs) body s
  = for_in xs (fun s x => for_in (g x) body s) s.
Proof.
  revert s. induction xs as [|x xs IH]; intros s; simpl.
  - reflexivity.
  - rewrite for_in_app.
    destruct (for_in (g x) body s); simpl; [apply IH | reflexivity].
Qed.

(** The double loop [for i in range(n): for j in range(i+1, n)] runs over
    the canonical pairs. *)
Lemma double_loop_pairs {S} (n : nat) (body : nat -> S -> nat -> result S)
  (s : S) :
  for_in (range 0 n) (fun s i => for_in (range (i + 1) n) (body i) s) s
  = for_in (Spec.pairs n) (fun s ij => body (fst ij) s (snd ij)) s.
Proof.
  unfold Spec.pairs, range. rewrite for_in_flat_map, Nat.sub_0_r.
  apply for_in_ext. intros s' i _.
  now rewrite for_in_map.
Qed.

(** A loop that only appends. *)
Lemma for_in_append {X Y} (xs : list X) (body : list Y -> X -> result (list Y))
  (g : X -> Y) (acc : list Y) :
  (forall acc x, In x xs -> body acc x = Ok (acc ++ [g x])) ->
  for_in xs body acc = Ok (acc ++ map g xs).
Proof.
  revert acc. induction xs as [|x xs IH]; intros acc Hb; simpl.
  - now rewrite app_nil_r.
  - rewrite Hb by now left. simpl.
    rewrite IH by (intros; apply Hb; now right).
    now rewrite <- app_assoc.
Qed.

(** ** The canonical pairs *)

Lemma in_pairs (n i j : nat) : In (i, j) (Spec.pairs n) <-> i < j < n.
Proof.
  unfold Spec.pairs. rewrite in_flat_map. split.
  - intros (k & Hk & Hin). apply in_map_iff in Hin.
    destruct Hin as (j' & Heq & Hj). inversion Heq; subst.
    apply in_seq in Hk, Hj. lia.
  - intros Hij. exists i. split.
    + apply in_seq. lia.
    + apply in_map. apply in_seq. lia.
Qed.

Lemma pairs_from_length (n m k : nat) :
  k + m = n ->
  length
    (flat_map (fun i => map (pair i) (seq (i + 1) (n - (i + 1)))) (seq k m))
  = m * (m - 1) / 2.
Proof.
  revert k. induction m as [|m IH]; intros k Hk.
  - reflexivity.
  - cbn [seq flat_map]. rewrite length_app, length_map, length_seq.
    rewrite (IH (S k)) by lia.
    replace (n - (k + 1)) with m by lia.
    replace (S m * (S m - 1)) with (m * (m - 1) + m * 2)
      by (destruct m; simpl; lia).
    rewrite Nat.div_add by discriminate. lia.
Qed.

Lemma length_pairs (n : nat) : length (Spec.pairs n) = n * (n - 1) / 2.
Proof. unfold Spec.pairs. now apply pairs_from_length. Qed.

Lemma NoDup_pairs_from (n m k : nat) :
  NoDup
    (flat_map (fun i => map (pair i) (seq (i + 1) (n - (i + 1)))) (seq k m)).
Proof.
  revert k. induction m as [|m IH]; intros k.
  - constructor.
  - cbn [seq flat_map]. apply NoDup_app.
    + apply Finite.Injective_map_NoDup; [| apply seq_NoDup].
      intros a b Hab. now inversion Hab.
    + apply IH.
    + intros [i j] Hin Hin'.
      apply in_map_iff in Hin. destruct Hin as (j' & Heq & _).
      inversion Heq; subst.
      apply in_flat_map in Hin'. destruct Hin' as (i' & Hi' & Hin').
      apply in_map_iff in Hin'. destruct Hin' as (j'' & Heq' & _).
      inversion Heq'; subst. apply in_seq in Hi'. lia.
Qed.

Lemma NoDup_pairs (n : nat) : NoDup (Spec.pairs n).
Proof. apply NoDup_pairs_from. Qed.

(** ** 64-bit integers *)

Lemma int64_small (z : Z) : (- 2 ^ 63 <= z < 2 ^ 63)%Z -> int64 z = z.
Proof. intros H. unfold int64. rewrite Z.mod_small; lia. Qed.

Lemma int64_range (z : Z) : (- 2 ^ 63 <= int64 z < 2 ^ 63)%Z.
Proof.
  unfold int64.
  pose proof (Z.mod_pos_bound (z + 2 ^ 63) (2 ^ 64) ltac:(lia)). lia.
Qed.

Lemma int64_mod_eq (a b : Z) :
  (a mod 2 ^ 64 = b mod 2 ^ 64)%Z -> int64 a = int64 b.
Proof.
  intros H. unfold int64.
  rewrite <- (Zplus_mod_idemp_l a), H, Zplus_mod_idemp_l. reflexivity.
Qed.

Lemma mod_int64 (z : Z) : (int64 z mod 2 ^ 64 = z mod 2 ^ 64)%Z.
Proof. unfold int64. rewrite Zminus_mod_idemp_l. f_equal. lia. Qed.

Lemma int64_add_l (a b : Z) : int64 (int64 a + b) = int64 (a + b).
Proof.
  apply int64_mod_eq.
  rewrite <- Zplus_mod_idemp_l, mod_int64, Zplus_mod_idemp_l. reflexivity.
Qed.

Lemma int64_add_r (a b : Z) : int64 (a + int64 b) = int64 (a + b).
Proof. rewrite Z.add_comm, int64_add_l, Z.add_comm. reflexivity. Qed.

Lemma int64_mul_l (a b : Z) : int64 (int64 a * b) = int64 (a * b).
Proof.
  apply int64_mod_eq.
  rewrite <- Zmult_mod_idemp_l, mod_int64, Zmult_mod_idemp_l. reflexivity.
Qed.

Lemma int64_mul_r (a b : Z) : int64 (a * int64 b) = int64 (a * b).
Proof. rewrite Z.mul_comm, int64_mul_l, Z.mul_comm. reflexivity. Qed.

Lemma int64_opp (a : Z) : int64 (- int64 a) = int64 (- a).
Proof.
  replace (- int64 a)%Z with (int64 a * -1)%Z by lia.
  rewrite int64_mul_l. f_equal. lia.
Qed.

Lemma int64_sub (a b : Z) : int64 (int64 a - int64 b) = int64 (a - b).
Proof.
  replace (int64 a - int64 b)%Z with (int64 a + - int64 b)%Z by lia.
  rewrite int64_add_l.
  rewrite <- int64_add_r, int64_opp, int64_add_r. reflexivity.
Qed.

Lemma int64_square (a : Z) : int64 (int64 a * int64 a) = int64 (a * a).
Proof. now rewrite int64_mul_l, int64_mul_r. Qed.

(** Wrapping keeps the parity: a doubled value stays even. *)
Lemma int64_even (x : Z) : exists k, int64 (2 * x) = (2 * k)%Z.
Proof.
  exists (x - 2 ^ 63 * ((2 * x + 2 ^ 63) / 2 ^ 64))%Z.
  unfold int64. rewrite Z.mod_eq by lia. lia.
Qed.

Lemma np_sum_from (l : list Z) (a : Z) :
  fold_left (fun acc x => int64 (acc + x)) l (int64 a)
  = int64 (a + Spec.total l).
Proof.
  revert a. induction l as [|x l IH]; intros a; simpl.
  - f_equal. lia.
  - rewrite int64_add_l, IH. f_equal. lia.
Qed.

(** A wrapped sum is the wrapped exact sum. *)
Lemma np_sum_total (l : list Z) : np_sum l = int64 (Spec.total l).
Proof.
  unfold np_sum. change 0%Z with (int64 0) at 1. apply np_sum_from.
Qed.

Lemma int64_total_map {A} (f : A -> Z) (l : list A) :
  int64 (Spec.total (map (fun x => int64 (f x)) l))
  = int64 (Spec.total (map f l)).
Proof.
  induction l as [|x l IH]; simpl; [reflexivity |].
  rewrite int64_add_l, <- int64_add_r, IH, int64_add_r. reflexivity.
Qed.

Lemma np_sum_map {A} (f : A -> Z) (l : list A) :
  np_sum (map (fun x => int64 (f x)) l) = int64 (Spec.total (map f l)).
Proof. rewrite np_sum_total. apply int64_total_map. Qed.

(** ** The range in which nothing wraps *)

Ltac abs_total_cons :=
  repeat match goal with
    | |- context [Spec.abs_total (?a :: ?l)] =>
        change (Spec.abs_total (a :: l))
          with (Z.abs a + Spec.abs_total l)%Z
    | |- context [Spec.abs_total []] =>
        change (Spec.abs_total []) with 0%Z
    end.

Lemma abs_total_nonneg (numbers : list Z) : (0 <= Spec.abs_total numbers)%Z.
Proof. induction numbers as [|a l IH]; abs_total_cons; lia. Qed.

Lemma abs_total_le_square (numbers : list Z) :
  (Spec.abs_total numbers
   <= Spec.abs_total numbers * Spec.abs_total numbers)%Z.
Proof. pose proof (abs_total_nonneg numbers). nia. Qed.

Lemma weighted_sum_abs_total (numbers spins : list Z) :
  Report.spins spins ->
  (Z.abs (Spec.weighted_sum numbers spins) <= Spec.abs_total numbers)%Z.
Proof.
  intros Hs. revert numbers.
  induction Hs as [|s spins Hs _ IH]; intros [|a numbers]; abs_total_cons;
    simpl; try lia; try (pose proof (abs_total_nonneg numbers); lia).
  specialize (IH numbers). destruct Hs as [-> | ->]; lia.
Qed.

Lemma sum_squares_bound (numbers : list Z) :
  (0 <= Spec.sum_squares numbers
   <= Spec.abs_total numbers * Spec.abs_total numbers)%Z.
Proof.
  induction numbers as [|a l IH]; abs_total_cons; simpl; [lia |].
  pose proof (abs_total_nonneg l). nia.
Qed.

Lemma nth_abs_total (numbers : list Z) (i : nat) :
  (Z.abs (nth i numbers 0) <= Spec.abs_total numbers)%Z.
Proof.
  revert i. induction numbers as [|a l IH]; intros [|i]; abs_total_cons;
    simpl; try lia; try (pose proof (abs_total_nonneg l); lia).
  specialize (IH i). lia.
Qed.

Lemma nth_pair_abs_total (numbers : list Z) (i j : nat) :
  i < j ->
  (Z.abs (nth i numbers 0) + Z.abs (nth j numbers 0)
   <= Spec.abs_total numbers)%Z.
Proof.
  revert i j. induction numbers as [|a l IH]; intros i j Hij.
  - abs_total_cons. destruct i, j; simpl; lia.
  - destruct j as [|j]; [lia |]. abs_total_cons. destruct i as [|i]; simpl.
    + pose proof (nth_abs_total l j). lia.
    + specialize (IH i j ltac:(lia)). lia.
Qed.

Lemma pair_weight_bound (numbers : list Z) (i j : nat) :
  i < j ->
  (Z.abs (2 * nth i numbers 0 * nth j numbers 0)
   <= Spec.abs_total numbers * Spec.abs_total numbers)%Z.
Proof.
  intros Hij. pose proof (nth_pair_abs_total numbers i j Hij). nia.
Qed.

Lemma fits_int64_small (numbers : list Z) (z : Z) :
  Spec.fits_int64 numbers ->
  (Z.abs z <= Spec.abs_total numbers * Spec.abs_total numbers)%Z ->
  int64 z = z.
Proof. unfold Spec.fits_int64. intros Hf Hz. apply int64_small. lia. Qed.

(** ** Problem encoder *)

Lemma constant_term_int64 (numbers : list Z) :
  Encoder.constant_term numbers = int64 (Spec.sum_squares numbers).
Proof.
  unfold Encoder.constant_term. rewrite np_sum_map. f_equal.
  induction numbers as [|a l IH]; simpl; [reflexivity | now rewrite IH].
Qed.

Lemma constant_term_sum_squares (numbers : list Z) :
  Spec.fits_int64 numbers ->
  Encoder.constant_term numbers = Spec.sum_squares numbers.
Proof.
  intros Hfit. rewrite constant_term_int64.
  apply (fits_int64_small numbers); [exact Hfit |].
  pose proof (sum_squares_bound numbers). lia.
Qed.

(** Without any assumption: the terms the double loop appends. *)
Lemma cost_terms_int64 (numbers : list Z) :
  Encoder.cost_terms numbers
  = Ok (map (Spec.term_of_int64 numbers) (Spec.pairs (length numbers))).
Proof.
  unfold Encoder.cost_terms, Encoder.n_qubits.
  rewrite double_loop_pairs.
  change (map (Spec.term_of_int64 numbers) (Spec.pairs (length numbers)))
    with ([] ++ map (Spec.term_of_int64 numbers)
                  (Spec.pairs (length numbers))).
  apply for_in_append. intros acc [i j] Hin. apply in_pairs in Hin.
  cbn [fst snd].
  rewrite (getitem_nth numbers _ 0%Z) by lia. cbn [bind].
  rewrite (getitem_nth numbers _ 0%Z) by lia. cbn [bind].
  rewrite int64_mul_l. reflexivity.
Qed.

Lemma term_of_int64_exact (numbers : list Z) (n : nat) :
  Spec.fits_int64 numbers ->
  map (Spec.term_of_int64 numbers) (Spec.pairs n)
  = map (Spec.term_of numbers) (Spec.pairs n).
Proof.
  intros Hfit. apply map_ext_in. intros [i j] Hin. apply in_pairs in Hin.
  unfold Spec.term_of_int64, Spec.term_of. cbn [fst snd]. f_equal.
  apply (fits_int64_small numbers); [exact Hfit |].
  apply pair_weight_bound. lia.
Qed.

Lemma cost_terms_pairs (numbers : list Z) :
  Spec.fits_int64 numbers ->
  Encoder.cost_terms numbers
  = Ok (map (Spec.term_of numbers) (Spec.pairs (length numbers))).
Proof.
  intros Hfit. rewrite cost_terms_int64, term_of_int64_exact by exact Hfit.
  reflexivity.
Qed.

(** C1. For every list of numbers in the range where 64-bit arithmetic is
    exact, the encoder succeeds; its constant term is the sum of the
    squares; it has exactly n(n-1)/2 pairwise terms, the index pairs of the
    terms are pairwise different and are exactly the pairs (i, j) with
    i < j < n, and the weight of the term on (i, j) is 2 * a_i * a_j. *)
Theorem problem_encoder_hamiltonian (numbers : list Z) :
  Spec.fits_int64 numbers ->
  exists terms,
    Encoder.problem_encoder numbers
    = Ok (Encoder.MkHamiltonian (Spec.sum_squares numbers) terms)
    /\ length terms = length numbers * (length numbers - 1) / 2
    /\ NoDup (map (fun t => (Encoder.zq1 t, Encoder.zq2 t)) terms)
    /\ (forall i j,
          In (i, j) (map (fun t => (Encoder.zq1 t, Encoder.zq2 t)) terms)
          <-> i < j < length numbers)
    /\ (forall t, In t terms ->
          Encoder.weight t
          = (2 * nth (Encoder.zq1 t) numbers 0
               * nth (Encoder.zq2 t) numbers 0)%Z).
Proof.
  intros Hfit.
  exists (map (Spec.term_of numbers) (Spec.pairs (length numbers))).
  assert (Hkeys :
    map (fun t => (Encoder.zq1 t, Encoder.zq2 t))
        (map (Spec.term_of numbers) (Spec.pairs (length numbers)))
    = Spec.pairs (length numbers)).
  { rewrite map_map. rewrite <- (map_id (Spec.pairs _)) at 2.
    apply map_ext. now intros [i j]. }
  rewrite Hkeys. split; [| split; [| split; [| split]]].
  - unfold Encoder.problem_encoder.
    rewrite cost_terms_pairs, constant_term_sum_squares by exact Hfit.
    reflexivity.
  - now rewrite length_map, length_pairs.
  - apply NoDup_pairs.
  - intros i j. apply in_pairs.
  - intros t Hin. apply in_map_iff in Hin.
    destruct Hin as ([i j] & <- & _). reflexivity.
Qed.

Lemma problem_encoder_hamiltonian_witness :
  Spec.fits_int64 [3; 1; 2]%Z
  /\ exists terms,
       Encoder.problem_encoder [3; 1; 2]%Z
       = Ok (Encoder.MkHamiltonian 14 terms)
       /\ length terms = 3
       /\ NoDup (map (fun t => (Encoder.zq1 t, Encoder.zq2 t)) terms)
       /\ (forall i j,
             In (i, j) (map (fun t => (Encoder.zq1 t, Encoder.zq2 t)) terms)
             <-> i < j < 3)
       /\ (forall t, In t terms ->
             Encoder.weight t
             = (2 * nth (Encoder.zq1 t) [3; 1; 2] 0
                  * nth (Encoder.zq2 t) [3; 1; 2] 0)%Z).
Proof.
  split; [reflexivity |].
  apply (problem_encoder_hamiltonian [3; 1; 2]%Z). reflexivity.
Defined.

(** The range matters: two numbers near [2^31.5] give a constant term and a
    weight that have wrapped around, far from the exact values. *)
Example problem_encoder_wraps :
  Encoder.problem_encoder [3037000500; 3037000500]%Z
  = Ok (Encoder.MkHamiltonian 290948384 [Encoder.ZZ 0 1 290948384]).
Proof. vm_compute. reflexivity. Qed.

(** C5, as the code has it: a list of fewer than two numbers in the range
    where 64-bit arithmetic is exact is encoded without any error, as the
    constant term and no pairwise term. *)
Theorem problem_encoder_short_input (numbers : list Z) :
  Spec.fits_int64 numbers ->
  length numbers < 2 ->
  Encoder.problem_encoder numbers
  = Ok (Encoder.MkHamiltonian (Spec.sum_squares numbers) []).
Proof.
  intros Hfit Hn. unfold Encoder.problem_encoder.
  rewrite cost_terms_pairs, constant_term_sum_squares by exact Hfit.
  destruct numbers as [|a [|b l]]; simpl in *; [reflexivity | reflexivity | lia].
Qed.

Lemma problem_encoder_short_input_witness :
  Spec.fits_int64 [5%Z]
  /\ length [5%Z] < 2
  /\ Encoder.problem_encoder [5%Z] = Ok (Encoder.MkHamiltonian 25 []).
Proof.
  split; [reflexivity |].
  split; [simpl; lia |].
  apply (problem_encoder_short_input [5%Z]); [reflexivity | simpl; lia].
Defined.

(** C5 as claimed fails: [numbers = [5]] has fewer than two elements and is
    encoded, with constant term 25 and no pairwise term; nothing is raised. *)
Lemma problem_encoder_single_number_no_error :
  length [5%Z] < 2
  /\ Encoder.problem_encoder [5%Z] = Ok (Encoder.MkHamiltonian 25 [])
  /\ ~ raises (Encoder.problem_encoder [5%Z]).
Proof.
  split; [simpl; lia | split; [reflexivity |]].
  intros [e He]. vm_compute in He. discriminate.
Qed.

(** Outside that range the encoder still raises nothing on a short list:
    it returns the wrapped constant term and no pairwise term. *)
Lemma problem_encoder_short_never_raises (numbers : list Z) :
  length numbers < 2 ->
  Encoder.problem_encoder numbers
  = Ok (Encoder.MkHamiltonian (int64 (Spec.sum_squares numbers)) []).
Proof.
  intros Hn. unfold Encoder.problem_encoder.
  rewrite cost_terms_int64, constant_term_int64.
  destruct numbers as [|a [|b l]]; simpl in *; [reflexivity | reflexivity | lia].
Qed.

(** ** Cost of a partition *)

Lemma weighted_sum_total (numbers p : list Z) :
  Spec.total (map (fun q : Z * Z => (fst q * snd q)%Z) (combine numbers p))
  = Spec.weighted_sum numbers p.
Proof.
  revert p. induction numbers as [|a l IH]; intros [|s p]; simpl; try reflexivity.
  now rewrite IH.
Qed.

(** Without any assumption: the cost is the wrapped square of the exact
    weighted sum. *)
Lemma compute_cost_int64 (numbers p : list Z) :
  Decoder.compute_cost numbers p
  = int64 (Spec.weighted_sum numbers p * Spec.weighted_sum numbers p).
Proof.
  unfold Decoder.compute_cost. cbv zeta.
  rewrite (np_sum_map (fun q : Z * Z => (fst q * snd q)%Z)).
  rewrite int64_square, weighted_sum_total. reflexivity.
Qed.

Lemma weighted_sum_square_bound (numbers p : list Z) :
  Report.spins p ->
  (0 <= Spec.weighted_sum numbers p * Spec.weighted_sum numbers p
   <= Spec.abs_total numbers * Spec.abs_total numbers)%Z.
Proof.
  intros Hp. pose proof (weighted_sum_abs_total numbers p Hp). nia.
Qed.

Lemma compute_cost_weighted_sum (numbers p : list Z) :
  Spec.fits_int64 numbers ->
  Report.spins p ->
  Decoder.compute_cost numbers p
  = (Spec.weighted_sum numbers p * Spec.weighted_sum numbers p)%Z.
Proof.
  intros Hfit Hp. rewrite compute_cost_int64.
  apply (fits_int64_small numbers); [exact Hfit |].
  pose proof (weighted_sum_square_bound numbers p Hp). lia.
Qed.

Lemma weighted_sum_flip (numbers p : list Z) :
  Spec.weighted_sum numbers (Spec.spin_flip p)
  = (- Spec.weighted_sum numbers p)%Z.
Proof.
  revert p. induction numbers as [|a l IH]; intros [|s p]; simpl; try reflexivity.
  rewrite IH. lia.
Qed.

Lemma spin_flip_same_cost (numbers p : list Z) :
  Decoder.compute_cost numbers (Spec.spin_flip p)
  = Decoder.compute_cost numbers p.
Proof.
  rewrite !compute_cost_int64, weighted_sum_flip. f_equal. lia.
Qed.

(** C8. A partition and its global spin-flip have the same cost. *)
Theorem compute_cost_spin_flip (numbers partition : list Z) :
  Decoder.compute_cost numbers (Spec.spin_flip partition)
  = Decoder.compute_cost numbers partition.
Proof. apply spin_flip_same_cost. Qed.

Lemma abs_total_bound (B : Z) (numbers : list Z) :
  Forall (fun a => - B <= a <= B)%Z numbers ->
  (Spec.abs_total numbers <= B * Z.of_nat (length numbers))%Z.
Proof.
  intros Hnum. induction Hnum as [|a numbers Ha _ IH]; abs_total_cons.
  - simpl. lia.
  - cbn [length]. rewrite Nat2Z.inj_succ, Z.mul_succ_r. lia.
Qed.

(** The notebooks draw six numbers in [-10, 100): they are in the range
    where no 64-bit operation of the encoder, of the decoder or of the two
    energies wraps. *)
Remark notebook_numbers_fit (numbers : list Z) :
  Forall (fun a => -10 <= a < 100)%Z numbers ->
  length numbers = 6 ->
  Spec.fits_int64 numbers.
Proof.
  intros Hnum Hlen. unfold Spec.fits_int64.
  assert (Hb : (Spec.abs_total numbers
                <= 100 * Z.of_nat (length numbers))%Z).
  { apply abs_total_bound.
    eapply Forall_impl; [| exact Hnum]. simpl. intros a Ha. lia. }
  rewrite Hlen in Hb. pose proof (abs_total_nonneg numbers).
  simpl in Hb. nia.
Qed.

(** ** The dictionary of partitions *)

Lemma key_eqb_eq (k k' : list Z) : Decoder.key_eqb k k' = true <-> k = k'.
Proof.
  unfold Decoder.key_eqb.
  destruct (list_eq_dec Z.eq_dec k k'); split; congruence.
Qed.

Lemma key_eqb_refl (k : list Z) : Decoder.key_eqb k k = true.
Proof. now apply key_eqb_eq. Qed.

Lemma key_eqb_neq (k k' : list Z) : k <> k' -> Decoder.key_eqb k k' = false.
Proof.
  intros Hne. destruct (Decoder.key_eqb k k') eqn:E; [| reflexivity].
  apply key_eqb_eq in E. contradiction.
Qed.

Lemma dict_contains_keys (d : Decoder.dict) (k : list Z) :
  Decoder.dict_contains d k = true <-> In k (map fst d).
Proof.
  unfold Decoder.dict_contains. rewrite existsb_exists, in_map_iff. split.
  - intros (kv & Hin & Heq). apply key_eqb_eq in Heq. eauto.
  - intros (kv & Heq & Hin). exists kv. split; [assumption |].
    apply key_eqb_eq. congruence.
Qed.

Lemma dict_get_keys (d : Decoder.dict) (k : list Z) :
  In k (map fst d) <-> exists v, Decoder.dict_get d k = Ok v.
Proof.
  induction d as [|[k' v'] d IH]; simpl.
  - split; [contradiction | intros [v Hv]; discriminate].
  - destruct (Decoder.key_eqb k k') eqn:E.
    + apply key_eqb_eq in E. subst. split; eauto.
    + rewrite <- IH. split; [| tauto].
      intros [Heq | Hin]; [| assumption].
      subst. rewrite key_eqb_refl in E. discriminate.
Qed.

Lemma dict_get_In (d : Decoder.dict) (k : list Z) (v : Decoder.info) :
  NoDup (map fst d) ->
  (In (k, v) d <-> Decoder.dict_get d k = Ok v).
Proof.
  induction d as [|[k' v'] d IH]; simpl; intros Hnd.
  - split; [contradiction | discriminate].
  - inversion Hnd as [|? ? Hnotin Hnd']; subst.
    destruct (Decoder.key_eqb k k') eqn:E.
    + apply key_eqb_eq in E. subst. split.
      * intros [Heq | Hin]; [congruence |].
        exfalso. apply Hnotin. apply in_map_iff. now exists (k', v).
      * intros Heq. left. congruence.
    + rewrite <- (IH Hnd'). split; [| tauto].
      intros [Heq | Hin]; [| assumption].
      inversion Heq; subst. rewrite key_eqb_refl in E. discriminate.
Qed.

Lemma dict_incr_count_keys (d : Decoder.dict) (k : list Z) :
  map fst (Decoder.dict_incr_count d k) = map fst d.
Proof.
  induction d as [|[k' v'] d IH]; simpl; [reflexivity |].
  destruct (Decoder.key_eqb k k'); simpl; [reflexivity | now rewrite IH].
Qed.

Lemma dict_incr_count_get (d : Decoder.dict) (k p : list Z) :
  Decoder.dict_get (Decoder.dict_incr_count d k) p
  = if Decoder.key_eqb p k
    then match Decoder.dict_get d k with
         | Ok v => Ok (Decoder.MkInfo (Decoder.cost v) (Decoder.count v + 1))
         | Raise e => Raise e
         end
    else Decoder.dict_get d p.
Proof.
  induction d as [|[k' v'] d IH]; simpl.
  - now destruct (Decoder.key_eqb p k).
  - destruct (Decoder.key_eqb k k') eqn:Ek; simpl.
    + apply key_eqb_eq in Ek. subst k'.
      destruct (Decoder.key_eqb p k); reflexivity.
    + destruct (Decoder.key_eqb p k') eqn:Ep.
      * apply key_eqb_eq in Ep. subst k'.
        rewrite key_eqb_neq; [reflexivity |].
        intros ->. rewrite key_eqb_refl in Ek. discriminate.
      * apply IH.
Qed.

Lemma dict_incr_count_total (d : Decoder.dict) (k : list Z) :
  In k (map fst d) ->
  Spec.total_count (Decoder.dict_incr_count d k) = Spec.total_count d + 1.
Proof.
  induction d as [|[k' v'] d IH]; simpl; [contradiction |].
  intros Hin. destruct (Decoder.key_eqb k k') eqn:E; simpl.
  - lia.
  - rewrite IH; [lia |]. destruct Hin as [Heq | Hin]; [| assumption].
    subst. rewrite key_eqb_refl in E. discriminate.
Qed.

Lemma dict_set_new_get (d : Decoder.dict) (k p : list Z) (v : Decoder.info) :
  Decoder.dict_get (Decoder.dict_set_new d k v) p
  = match Decoder.dict_get d p with
    | Ok x => Ok x
    | Raise _ => if Decoder.key_eqb p k then Ok v else Raise KeyError
    end.
Proof.
  unfold Decoder.dict_set_new.
  induction d as [|[k' v'] d IH]; simpl; [reflexivity |].
  destruct (Decoder.key_eqb p k'); [reflexivity | apply IH].
Qed.

Lemma dict_set_new_total (d : Decoder.dict) (k : list Z) (v : Decoder.info) :
  Spec.total_count (Decoder.dict_set_new d k v)
  = Spec.total_count d + Decoder.count v.
Proof.
  unfold Decoder.dict_set_new.
  induction d as [|[k' v'] d IH]; simpl; [lia | rewrite IH; lia].
Qed.

(** ** Aggregation of a sample batch *)

Lemma occurrences_snoc (obs : list (list Z)) (p q : list Z) :
  Spec.occurrences (obs ++ [q]) p
  = Spec.occurrences obs p + (if Decoder.key_eqb p q then 1 else 0).
Proof.
  unfold Spec.occurrences. rewrite count_occ_app. simpl.
  destruct (list_eq_dec Z.eq_dec q p) as [->|Hne].
  - now rewrite key_eqb_refl.
  - rewrite key_eqb_neq by congruence. reflexivity.
Qed.

Lemma occurrences_In (obs : list (list Z)) (p : list Z) :
  In p obs <-> Spec.occurrences obs p <> 0.
Proof.
  unfold Spec.occurrences.
  rewrite (count_occ_In (list_eq_dec Z.eq_dec)). lia.
Qed.

Lemma count_shot_statistics (numbers : list Z) (obs : list (list Z))
  (d : Decoder.dict) (bits : list nat) :
  Spec.statistics_of numbers obs d ->
  Spec.statistics_of numbers (obs ++ [Decoder.bitstring_to_partition bits])
    (Decoder.count_shot numbers d bits).
Proof.
  intros (Hnd & Htot & Hget). unfold Decoder.count_shot.
  set (p0 := Decoder.bitstring_to_partition bits).
  pose proof (Hget p0) as Hp0.
  destruct (Decoder.dict_contains d p0) eqn:Hc.
  - apply dict_contains_keys in Hc.
    destruct (Nat.eqb_spec (Spec.occurrences obs p0) 0) as [Hz|Hnz].
    { apply dict_get_keys in Hc. destruct Hc as [v Hv]. congruence. }
    split; [| split].
    + now rewrite dict_incr_count_keys.
    + rewrite dict_incr_count_total, length_app by assumption. simpl. lia.
    + intros p. rewrite dict_incr_count_get, occurrences_snoc.
      destruct (Decoder.key_eqb p p0) eqn:E.
      * apply key_eqb_eq in E. subst p. rewrite Hp0. simpl.
        destruct (Nat.eqb_spec (Spec.occurrences obs p0 + 1) 0); [lia |].
        reflexivity.
      * rewrite Nat.add_0_r. apply Hget.
  - assert (Hnotin : ~ In p0 (map fst d)).
    { intros Hin. apply dict_contains_keys in Hin. congruence. }
    destruct (Nat.eqb_spec (Spec.occurrences obs p0) 0) as [Hz|Hnz].
    2:{ exfalso. apply Hnotin. apply dict_get_keys. eauto. }
    split; [| split].
    + unfold Decoder.dict_set_new. rewrite map_app. simpl.
      apply NoDup_app; [assumption | repeat constructor; intros [] |].
      intros a Ha [<- | []]. contradiction.
    + rewrite dict_set_new_total, length_app. simpl. lia.
    + intros p. rewrite dict_set_new_get, occurrences_snoc, (Hget p).
      destruct (Decoder.key_eqb p p0) eqn:E.
      * apply key_eqb_eq in E. subst p. rewrite Hz. simpl. reflexivity.
      * rewrite Nat.add_0_r.
        now destruct (Nat.eqb (Spec.occurrences obs p) 0).
Qed.

Lemma fold_count_shot_statistics (numbers : list Z)
  (measurements : list (list nat)) :
  forall (obs : list (list Z)) (d : Decoder.dict),
    Spec.statistics_of numbers obs d ->
    Spec.statistics_of numbers
      (obs ++ map Decoder.bitstring_to_partition measurements)
      (fold_left (Decoder.count_shot numbers) measurements d).
Proof.
  induction measurements as [|bits ms IH]; intros obs d Hinv; simpl.
  - now rewrite app_nil_r.
  - replace (obs ++ Decoder.bitstring_to_partition bits
                 :: map Decoder.bitstring_to_partition ms)
      with ((obs ++ [Decoder.bitstring_to_partition bits])
              ++ map Decoder.bitstring_to_partition ms)
      by now rewrite <- app_assoc.
    apply IH. now apply count_shot_statistics.
Qed.

Lemma partition_costs_statistics (numbers : list Z)
  (measurements : list (list nat)) :
  Spec.statistics_of numbers
    (map Decoder.bitstring_to_partition measurements)
    (Decoder.partition_costs numbers measurements).
Proof.
  apply (fold_count_shot_statistics numbers measurements [] []).
  split; [constructor | split; [reflexivity | intros p; reflexivity]].
Qed.

Lemma bitstring_to_partition_nth (bits : list nat) (i : nat) :
  i < length bits ->
  nth i (Decoder.bitstring_to_partition bits) 0%Z
  = if Nat.eqb (nth i bits 0) 0 then 1%Z else (-1)%Z.
Proof.
  revert i. induction bits as [|b bits IH]; intros [|i] Hi; simpl in *;
    try lia; try reflexivity.
  apply IH. lia.
Qed.

(** C7. A bit 0 becomes the spin +1 and a bit 1 the spin -1, position by
    position; the dictionary has one entry per partition; every shot is
    found under its partition, whose count is the number of shots mapped to
    it; no other partition has an entry; and the counts add up to the
    number of shots. *)
Theorem aggregation_counts_every_shot (numbers : list Z)
  (measurements : list (list nat)) :
  let d := Decoder.partition_costs numbers measurements in
  let observed := map Decoder.bitstring_to_partition measurements in
  (forall bits,
      length (Decoder.bitstring_to_partition bits) = length bits
      /\ forall i, i < length bits ->
           (nth i bits 0 = 0 ->
            nth i (Decoder.bitstring_to_partition bits) 0%Z = 1%Z)
           /\ (nth i bits 0 = 1 ->
               nth i (Decoder.bitstring_to_partition bits) 0%Z = (-1)%Z))
  /\ NoDup (map fst d)
  /\ (forall bits, In bits measurements ->
        exists v,
          Decoder.dict_get d (Decoder.bitstring_to_partition bits) = Ok v
          /\ Decoder.count v
             = Spec.occurrences observed (Decoder.bitstring_to_partition bits))
  /\ (forall p, In p (map fst d) -> In p observed)
  /\ Spec.total_count d = length measurements.
Proof.
  intros d observed.
  destruct (partition_costs_statistics numbers measurements)
    as (Hnd & Htot & Hget).
  fold d in Hnd, Htot, Hget. fold observed in Htot, Hget.
  split; [| split; [| split; [| split]]].
  - intros bits. split.
    + unfold Decoder.bitstring_to_partition. apply length_map.
    + intros i Hi. rewrite bitstring_to_partition_nth by assumption.
      split; intros ->; reflexivity.
  - exact Hnd.
  - intros bits Hin.
    assert (Hobs : In (Decoder.bitstring_to_partition bits) observed)
      by now apply in_map.
    apply occurrences_In in Hobs. rewrite Hget.
    destruct (Nat.eqb_spec
                (Spec.occurrences observed (Decoder.bitstring_to_partition bits)) 0);
      [contradiction |].
    eexists. split; reflexivity.
  - intros p Hin. apply dict_get_keys in Hin. destruct Hin as [v Hv].
    rewrite Hget in Hv. apply occurrences_In.
    destruct (Nat.eqb_spec (Spec.occurrences observed p) 0);
      [discriminate | assumption].
  - unfold observed in Htot. now rewrite length_map in Htot.
Qed.

(** ** The report of the minimal partitions *)

Lemma fold_left_min_spec (l : list Z) (x : Z) :
  (forall y, In y (x :: l) -> (fold_left Z.min l x <= y)%Z)
  /\ In (fold_left Z.min l x) (x :: l).
Proof.
  revert x. induction l as [|a l IH]; intros x; simpl.
  - split; [intros y [<- | []]; lia | now left].
  - destruct (IH (Z.min x a)) as [Hle Hin]. split.
    + intros y [<- | [<- | Hy]].
      * specialize (Hle (Z.min x a) (or_introl eq_refl)). lia.
      * specialize (Hle (Z.min x a) (or_introl eq_refl)). lia.
      * apply Hle. now right.
    + destruct Hin as [Heq | Hin]; [| right; right; exact Hin].
      destruct (Z.min_spec x a) as [[_ Hm] | [_ Hm]];
        [left | right; left]; congruence.
Qed.

Lemma pymin_spec (l : list Z) :
  l <> [] ->
  exists m, pymin l = Ok m /\ In m l /\ forall y, In y l -> (m <= y)%Z.
Proof.
  destruct l as [|x l]; [congruence | intros _].
  destruct (fold_left_min_spec l x) as [Hle Hin].
  exists (fold_left Z.min l x). auto.
Qed.

Lemma subset_members_from (numbers p pre_n pre_p : list Z) (spin : Z) :
  length pre_n = length pre_p ->
  length numbers = length p ->
  comprehension_if
    (fun i => s <- getitem (pre_p ++ p) i ;; Ok (Z.eqb s spin))
    (fun i => getitem (pre_n ++ numbers) i)
    (seq (length pre_n) (length numbers))
  = Ok (Spec.members numbers p spin).
Proof.
  revert p pre_n pre_p.
  induction numbers as [|a numbers IH]; intros [|s p] pre_n pre_p Hpre Hlen;
    simpl in Hlen; try discriminate; [reflexivity |].
  cbn [length seq comprehension_if].
  unfold getitem at 1. rewrite Hpre at 1.
  rewrite nth_error_app2, Nat.sub_diag by lia. cbn [nth_error bind].
  specialize (IH p (pre_n ++ [a]) (pre_p ++ [s])).
  rewrite !length_app, <- !app_assoc in IH. simpl in IH.
  replace (length pre_n + 1) with (S (length pre_n)) in IH by lia.
  rewrite IH by lia.
  unfold Spec.members. cbn [combine filter snd].
  destruct (Z.eqb s spin); [| reflexivity].
  unfold getitem. rewrite nth_error_app2, Nat.sub_diag by lia. reflexivity.
Qed.

Lemma subset_members (numbers p : list Z) (spin : Z) :
  length p = length numbers ->
  Decoder.subset numbers p spin = Ok (Spec.members numbers p spin).
Proof.
  intros Hlen. unfold Decoder.subset, Decoder.n_qubits, range.
  rewrite Nat.sub_0_r.
  apply (subset_members_from numbers p [] [] spin); [reflexivity | lia].
Qed.

Lemma members_difference (numbers p : list Z) :
  Forall (fun s => s = 1%Z \/ s = (-1)%Z) p ->
  (Spec.total (Spec.members numbers p 1)
   - Spec.total (Spec.members numbers p (-1)))%Z
  = Spec.weighted_sum numbers p.
Proof.
  intros Hp. revert numbers.
  induction Hp as [|s p Hs _ IH]; intros [|a numbers]; try reflexivity.
  specialize (IH numbers). unfold Spec.members in *. cbn [combine filter snd].
  destruct Hs as [-> | ->]; simpl; lia.
Qed.

Lemma sum_difference_int64 (numbers p : list Z) :
  Report.spins p ->
  int64 (np_sum (Spec.members numbers p 1)
         - np_sum (Spec.members numbers p (-1)))
  = int64 (Spec.weighted_sum numbers p).
Proof.
  intros Hp. rewrite !np_sum_total, int64_sub.
  now rewrite members_difference.
Qed.

Lemma sum_difference_exact (numbers p : list Z) :
  Spec.fits_int64 numbers ->
  Report.spins p ->
  int64 (np_sum (Spec.members numbers p 1)
         - np_sum (Spec.members numbers p (-1)))
  = Spec.weighted_sum numbers p.
Proof.
  intros Hfit Hp. rewrite sum_difference_int64 by exact Hp.
  apply (fits_int64_small numbers); [exact Hfit |].
  pose proof (weighted_sum_abs_total numbers p Hp).
  pose proof (abs_total_le_square numbers). lia.
Qed.

Lemma bitstring_to_partition_spins (bits : list nat) :
  Forall (fun s => s = 1%Z \/ s = (-1)%Z) (Decoder.bitstring_to_partition bits).
Proof.
  unfold Decoder.bitstring_to_partition. apply Forall_map.
  apply Forall_forall. intros b _. destruct (Nat.eqb b 0); auto.
Qed.

Lemma NoDup_keys_filter (f : list Z * Decoder.info -> bool) (d : Decoder.dict) :
  NoDup (map fst d) -> NoDup (map fst (filter f d)).
Proof.
  induction d as [|kv d IH]; simpl; intros Hnd; [constructor |].
  inversion Hnd as [|? ? Hnotin Hnd']; subst.
  destruct (f kv); simpl; [| now apply IH].
  constructor; [| now apply IH].
  intros Hin. apply Hnotin.
  apply in_map_iff in Hin. destruct Hin as (kv' & Heq & Hin).
  apply filter_In in Hin. apply in_map_iff. exists kv'. tauto.
Qed.

Lemma statistics_entries (numbers : list Z) (obs : list (list Z))
  (d : Decoder.dict) :
  Spec.statistics_of numbers obs d ->
  forall p v,
    In (p, v) d
    <-> In p obs
        /\ v = Decoder.MkInfo (Decoder.compute_cost numbers p)
                 (Spec.occurrences obs p).
Proof.
  intros (Hnd & _ & Hget) p v.
  rewrite (dict_get_In d p v Hnd), Hget, occurrences_In.
  destruct (Nat.eqb_spec (Spec.occurrences obs p) 0) as [Hz|Hnz].
  - split; [discriminate | tauto].
  - split; [intros Heq; inversion Heq; auto | intros [_ ->]; reflexivity].
Qed.

(** Without a shot there is no minimum: [min] raises. *)
Example decode_no_shot (numbers : list Z) :
  Decoder.decode numbers [] = Raise ValueError.
Proof. reflexivity. Qed.

(** A row shorter than [numbers] makes [partition[i]] fail. *)
Example decode_short_row :
  Decoder.decode [1; 2]%Z [[0]] = Raise IndexError.
Proof. reflexivity. Qed.

(** C6. For numbers in the range where 64-bit arithmetic is exact and a
    non-empty batch whose rows have one bit per number, the decoder
    succeeds; the partitions of its rows are pairwise different and
    are exactly the observed partitions whose cost is minimal among the
    observed ones; and every row carries the numbers of spin +1, the numbers
    of spin -1, the signed sum difference (whose square is the cost) and the
    number of shots that gave the partition. *)
Theorem decode_reports_every_minimal_partition (numbers : list Z)
  (measurements : list (list nat)) :
  Spec.fits_int64 numbers ->
  measurements <> [] ->
  Spec.rows_fit numbers measurements ->
  let observed := map Decoder.bitstring_to_partition measurements in
  exists rows,
    Decoder.decode numbers measurements = Ok rows
    /\ NoDup (map Decoder.r_partition rows)
    /\ (forall p,
          In p (map Decoder.r_partition rows)
          <-> In p observed
              /\ forall q, In q observed ->
                   (Decoder.compute_cost numbers p
                    <= Decoder.compute_cost numbers q)%Z)
    /\ (forall r, In r rows ->
          Decoder.r_sub_a r = Spec.members numbers (Decoder.r_partition r) 1
          /\ Decoder.r_sub_b r
             = Spec.members numbers (Decoder.r_partition r) (-1)
          /\ Decoder.r_sum_difference r
             = Spec.weighted_sum numbers (Decoder.r_partition r)
          /\ (Decoder.r_sum_difference r * Decoder.r_sum_difference r)%Z
             = Decoder.compute_cost numbers (Decoder.r_partition r)
          /\ Decoder.r_frequency r
             = Spec.occurrences observed (Decoder.r_partition r)).
Proof.
  intros Hrange Hne Hfit observed.
  pose proof (partition_costs_statistics numbers measurements) as Hstat.
  fold observed in Hstat.
  set (d := Decoder.partition_costs numbers measurements) in *.
  pose proof (statistics_entries numbers observed d Hstat) as Hentries.
  destruct Hstat as (Hnd & Htot & Hget).
  assert (Hd : map (fun kv => Decoder.cost (snd kv)) d <> []).
  { destruct d; [| discriminate].
    destruct measurements; [congruence | discriminate]. }
  destruct (pymin_spec _ Hd) as (m & Hmin & Hm_in & Hm_le).
  (* the minimum is the cost of an observed partition, below all others *)
  assert (Hm_attained :
    exists q0, In q0 observed /\ Decoder.compute_cost numbers q0 = m).
  { apply in_map_iff in Hm_in. destruct Hm_in as ([q0 v0] & Hc & Hin).
    apply Hentries in Hin. destruct Hin as [Hobs ->]. eauto. }
  assert (Hm_lower :
    forall q, In q observed -> (m <= Decoder.compute_cost numbers q)%Z).
  { intros q Hq. apply Hm_le. apply in_map_iff.
    exists (q, Decoder.MkInfo (Decoder.compute_cost numbers q)
                 (Spec.occurrences observed q)).
    split; [reflexivity | apply Hentries; auto]. }
  set (optimal := Decoder.optimal_partitions d m).
  assert (Hopt : forall p,
    In p optimal <-> In p observed /\ Decoder.compute_cost numbers p = m).
  { intros p. unfold optimal, Decoder.optimal_partitions.
    rewrite in_map_iff. split.
    - intros ([p' v] & Heq & Hin). simpl in Heq. subst p'.
      apply filter_In in Hin. destruct Hin as [Hin Hc].
      apply Hentries in Hin. destruct Hin as [Hobs ->].
      simpl in Hc. apply Z.eqb_eq in Hc. auto.
    - intros [Hobs Hc].
      exists (p, Decoder.MkInfo (Decoder.compute_cost numbers p)
                   (Spec.occurrences observed p)).
      split; [reflexivity |]. apply filter_In. split.
      + apply Hentries. auto.
      + simpl. now apply Z.eqb_eq. }
  set (row_of := fun p =>
    Decoder.MkRow p (Spec.members numbers p 1) (Spec.members numbers p (-1))
      (int64 (np_sum (Spec.members numbers p 1)
              - np_sum (Spec.members numbers p (-1))))
      (Spec.occurrences observed p)).
  assert (Hobs_shape : forall p, In p observed ->
    length p = length numbers
    /\ Forall (fun s => s = 1%Z \/ s = (-1)%Z) p).
  { intros p Hp. apply in_map_iff in Hp. destruct Hp as (bits & <- & Hin).
    split; [| apply bitstring_to_partition_spins].
    unfold Decoder.bitstring_to_partition. rewrite length_map.
    unfold Spec.rows_fit in Hfit. rewrite Forall_forall in Hfit. auto. }
  assert (Htable : Decoder.table_data numbers d optimal = Ok (map row_of optimal)).
  { unfold Decoder.table_data.
    change (map row_of optimal) with ([] ++ map row_of optimal).
    apply for_in_append. intros acc p Hp.
    apply Hopt in Hp. destruct Hp as [Hobs _].
    destruct (Hobs_shape p Hobs) as [Hlen _].
    rewrite !subset_members by assumption. cbn [bind].
    rewrite Hget.
    apply occurrences_In in Hobs.
    destruct (Nat.eqb_spec (Spec.occurrences observed p) 0); [contradiction |].
    reflexivity. }
  assert (Hparts : map Decoder.r_partition (map row_of optimal) = optimal).
  { rewrite map_map. simpl. apply map_id. }
  exists (map row_of optimal). rewrite Hparts.
  split; [| split; [| split]].
  - unfold Decoder.decode. fold d. rewrite Hmin. exact Htable.
  - unfold optimal, Decoder.optimal_partitions. now apply NoDup_keys_filter.
  - intros p. rewrite Hopt. split.
    + intros [Hobs Hc]. split; [assumption |].
      intros q Hq. rewrite Hc. now apply Hm_lower.
    + intros [Hobs Hle]. split; [assumption |].
      destruct Hm_attained as (q0 & Hq0 & Hc0).
      specialize (Hle q0 Hq0). specialize (Hm_lower p Hobs). lia.
  - intros r Hr. apply in_map_iff in Hr. destruct Hr as (p & <- & Hp).
    apply Hopt in Hp. destruct Hp as [Hobs _].
    destruct (Hobs_shape p Hobs) as [_ Hspins].
    simpl. rewrite sum_difference_exact, compute_cost_weighted_sum
      by assumption.
    auto.
Qed.

Lemma decode_reports_every_minimal_partition_witness :
  Spec.fits_int64 [1; 1; 2; 2]%Z
  /\ exists rows,
    Decoder.decode [1; 1; 2; 2]%Z [[0; 0; 1; 1]; [1; 1; 0; 0]; [0; 1; 1; 1]]
    = Ok rows
    /\ map Decoder.r_partition rows = [[1; 1; -1; -1]; [-1; -1; 1; 1]]%Z.
Proof.
  split; [reflexivity |].
  destruct (decode_reports_every_minimal_partition [1; 1; 2; 2]%Z
              [[0; 0; 1; 1]; [1; 1; 0; 0]; [0; 1; 1; 1]])
    as (rows & Hrows & _).
  - reflexivity.
  - discriminate.
  - repeat constructor.
  - exists rows. split; [exact Hrows |].
    vm_compute in Hrows. injection Hrows as <-. reflexivity.
Defined.

(** ** Sampled-mode energy *)

Lemma comprehension_map {X Y} (f : X -> result Y) (g : X -> Y) (xs : list X) :
  (forall x, In x xs -> f x = Ok (g x)) ->
  comprehension f xs = Ok (map g xs).
Proof.
  induction xs as [|x xs IH]; intros Hf; simpl; [reflexivity |].
  rewrite Hf by now left. simpl.
  rewrite IH by (intros; apply Hf; now right). reflexivity.
Qed.

Lemma pow_minus_one_bit (b : nat) :
  b <= 1 -> ((-1) ^ Z.of_nat b)%Z = Spec.spin_of_bit b.
Proof. intros Hb. destruct b as [|[|b]]; [reflexivity | reflexivity | lia]. Qed.

Lemma shot_terms_from (numbers pre : list Z) (bits : list nat) :
  length bits <= length numbers ->
  Forall (fun b => b <= 1) bits ->
  comprehension
    (fun ib : nat * nat =>
       let (i, b) := ib in
       a <- getitem (pre ++ numbers) i ;;
       Ok (int64 (a * (-1) ^ Z.of_nat b)))
    (combine (seq (length pre) (length bits)) bits)
  = Ok (map (fun ab : Z * nat =>
               int64 (fst ab * Spec.spin_of_bit (snd ab)))
          (combine numbers bits)).
Proof.
  revert numbers pre.
  induction bits as [|b bits IH]; intros numbers pre Hlen Hbits.
  - now destruct numbers.
  - destruct numbers as [|a numbers]; simpl in Hlen; [lia |].
    inversion Hbits as [|? ? Hb Hbits']; subst.
    cbn [length seq combine comprehension map fst snd].
    unfold getitem at 1.
    rewrite nth_error_app2, Nat.sub_diag by lia. cbn [nth_error bind].
    specialize (IH numbers (pre ++ [a])).
    rewrite length_app, <- app_assoc in IH. simpl in IH.
    replace (length pre + 1) with (S (length pre)) in IH by lia.
    rewrite IH by (assumption || lia). cbn [bind].
    now rewrite pow_minus_one_bit.
Qed.

Lemma total_terms_signed_sum (numbers : list Z) (bits : list nat) :
  Spec.total
    (map (fun ab : Z * nat => (fst ab * Spec.spin_of_bit (snd ab))%Z)
       (combine numbers bits))
  = Spec.signed_sum numbers bits.
Proof.
  unfold Spec.signed_sum. revert bits.
  induction numbers as [|a numbers IH]; intros [|b bits]; simpl;
    try reflexivity.
  now rewrite IH.
Qed.

(** Without any assumption on the numbers: the energy of a shot is the
    wrapped square of its exact signed sum. *)
Lemma shot_energy_int64 (numbers : list Z) (bits : list nat) :
  length bits = length numbers ->
  Forall (fun b => b <= 1) bits ->
  QAOA.shot_energy numbers bits
  = Ok (int64 (Spec.signed_sum numbers bits ^ 2)).
Proof.
  intros Hlen Hbits. unfold QAOA.shot_energy, enumerate.
  assert (Hterms := shot_terms_from numbers [] bits).
  cbn [app length] in Hterms.
  rewrite Hterms by (assumption || lia).
  cbn [bind].
  rewrite (np_sum_map
             (fun ab : Z * nat => (fst ab * Spec.spin_of_bit (snd ab))%Z)).
  rewrite total_terms_signed_sum, !Z.pow_2_r, int64_square. reflexivity.
Qed.

Lemma spin_of_bit_spins (bits : list nat) :
  Report.spins (map Spec.spin_of_bit bits).
Proof.
  unfold Report.spins. apply Forall_map, Forall_forall.
  intros [|b] _; simpl; auto.
Qed.

Lemma signed_sum_square_small (numbers : list Z) (bits : list nat) :
  Spec.fits_int64 numbers ->
  int64 (Spec.signed_sum numbers bits ^ 2)
  = (Spec.signed_sum numbers bits ^ 2)%Z.
Proof.
  intros Hfit. apply (fits_int64_small numbers); [exact Hfit |].
  unfold Spec.signed_sum. rewrite Z.pow_2_r.
  pose proof (weighted_sum_square_bound numbers _ (spin_of_bit_spins bits)).
  lia.
Qed.

Lemma shot_energy_signed_sum (numbers : list Z) (bits : list nat) :
  Spec.fits_int64 numbers ->
  length bits = length numbers ->
  Forall (fun b => b <= 1) bits ->
  QAOA.shot_energy numbers bits = Ok (Spec.signed_sum numbers bits ^ 2)%Z.
Proof.
  intros Hfit Hlen Hbits.
  rewrite shot_energy_int64, signed_sum_square_small by assumption.
  reflexivity.
Qed.

(** The range matters: one number near [2^31.5] and one shot give an energy
    that has wrapped around to a negative value. *)
Example energy_from_measurements_wraps :
  QAOA.shot_energy [3037000500]%Z [0] = Ok (-9223372036709301616)%Z.
Proof. vm_compute. reflexivity. Qed.

(** The mean of no shot is [nan]. *)
Example energy_from_measurements_no_shot (numbers : list Z) :
  QAOA.energy_from_measurements numbers [] = Ok NaN.
Proof. reflexivity. Qed.

(** A row longer than [numbers] makes [numbers[i]] fail. *)
Example energy_from_measurements_long_row :
  QAOA.energy_from_measurements [1]%Z [[0; 1]] = Raise IndexError.
Proof. reflexivity. Qed.

(** C2. For numbers in the range where 64-bit arithmetic is exact and a
    non-empty batch of rows of n bits, the sampled energy is the
    arithmetic mean over the shots of S squared, S being the signed sum of
    the shot; the objective returns that value as it is; so whenever the
    constant term is not zero, the value returned is not the mean plus the
    constant term. *)
Theorem energy_from_measurements_is_mean (numbers : list Z)
  (measurements : list (list nat)) :
  Spec.fits_int64 numbers ->
  measurements <> [] ->
  Spec.rows_fit numbers measurements ->
  Spec.rows_binary measurements ->
  QAOA.energy_from_measurements numbers measurements
  = Ok (Finite (Spec.mean_square_sum numbers measurements))
  /\ (forall run gamma beta rest,
        run gamma beta 500 = measurements ->
        QAOA.objective numbers run (gamma :: beta :: rest)
        = Ok (Finite (Spec.mean_square_sum numbers measurements)))
  /\ (Spec.sum_squares numbers <> 0%Z ->
      ~ (Spec.mean_square_sum numbers measurements
         == Spec.mean_square_sum numbers measurements
            + inject_Z (Spec.sum_squares numbers))%Q).
Proof.
  intros Hrange Hne Hfit Hbin.
  assert (Henergy :
    QAOA.energy_from_measurements numbers measurements
    = Ok (Finite (Spec.mean_square_sum numbers measurements))).
  { unfold QAOA.energy_from_measurements.
    rewrite (comprehension_map _
               (fun bits => (Spec.signed_sum numbers bits ^ 2)%Z)).
    - cbn [bind]. unfold np_mean, Spec.mean_square_sum.
      rewrite pysum_total, length_map.
      destruct measurements; [congruence | reflexivity].
    - intros bits Hin.
      unfold Spec.rows_fit, Spec.rows_binary in *.
      rewrite Forall_forall in Hfit, Hbin.
      apply shot_energy_signed_sum; auto. }
  split; [exact Henergy | split].
  - intros run gamma beta rest Hrun.
    unfold QAOA.objective. cbn [getitem nth_error bind].
    now rewrite Hrun.
  - intros Hc Heq.
    assert (Hz : (inject_Z (Spec.sum_squares numbers) == 0)%Q) by lra.
    apply Hc. unfold Qeq in Hz. simpl in Hz. lia.
Qed.

Lemma energy_from_measurements_is_mean_witness :
  Spec.fits_int64 [1; 1; 2; 2]%Z
  /\ QAOA.energy_from_measurements [1; 1; 2; 2]%Z
       [[0; 0; 1; 1]; [0; 1; 1; 1]]
     = Ok (Finite ((inject_Z (4 + 16) / inject_Z 2)%Q)).
Proof.
  split; [reflexivity |].
  destruct (energy_from_measurements_is_mean [1; 1; 2; 2]%Z
              [[0; 0; 1; 1]; [0; 1; 1; 1]]) as [Henergy _].
  - reflexivity.
  - discriminate.
  - repeat constructor.
  - repeat constructor.
  - exact Henergy.
Defined.

(** ** The layers of the ansatz *)

Lemma skipn_nth_cons {A} (l : list A) (i : nat) (d : A) :
  i < length l -> skipn i l = nth i l d :: skipn (i + 1) l.
Proof.
  revert l. induction i as [|i IH]; intros [|a l] Hi; simpl in *; try lia.
  - reflexivity.
  - apply IH. lia.
Qed.

Lemma per_layer_pairs (n : nat) : Spec.per_layer n = n + length (Spec.pairs n).
Proof. unfold Spec.per_layer. now rewrite length_pairs. Qed.

Section Consume.
Variable params : list R.
Variable X : Type.
Variable mk : R -> X -> Ansatz.gate.
Variable step : Ansatz.builder -> X -> result Ansatz.builder.

Hypothesis step_consumes :
  forall st x,
    Ansatz.param_idx st < length params ->
    step st x
    = Ok (Ansatz.MkBuilder
            (Ansatz.circuit st ++ [mk (nth (Ansatz.param_idx st) params 0%R) x])
            (Ansatz.param_idx st + 1) (Ansatz.skipped st)).

(** A loop whose body consumes one parameter per iteration appends one gate
    per element, fed with the parameters from [param_idx] on. *)
Lemma consume_loop (xs : list X) :
  forall st,
    Ansatz.param_idx st + length xs <= length params ->
    for_in xs step st
    = Ok (Ansatz.MkBuilder
            (Ansatz.circuit st
               ++ map (fun px => mk (fst px) (snd px))
                    (combine (skipn (Ansatz.param_idx st) params) xs))
            (Ansatz.param_idx st + length xs) (Ansatz.skipped st)).
Proof.
  induction xs as [|x xs IH]; intros st Hlen; simpl in *.
  - rewrite combine_nil, app_nil_r, Nat.add_0_r. now destruct st.
  - rewrite step_consumes by lia. cbn [bind].
    rewrite IH by (simpl; lia). simpl.
    rewrite (skipn_nth_cons params (Ansatz.param_idx st) 0%R) by lia.
    simpl. rewrite <- app_assoc. simpl.
    f_equal. f_equal. lia.
Qed.

End Consume.

Lemma rx_step_consumes (params : list R) (st : Ansatz.builder) (i : nat) :
  Ansatz.param_idx st < length params ->
  Ansatz.rx_step params st i
  = Ok (Ansatz.MkBuilder
          (Ansatz.circuit st
             ++ [Ansatz.Rx (nth (Ansatz.param_idx st) params 0%R) i])
          (Ansatz.param_idx st + 1) (Ansatz.skipped st)).
Proof.
  intros Hidx. unfold Ansatz.rx_step.
  now rewrite (getitem_nth params _ 0%R) by assumption.
Qed.

Lemma zz_step_consumes (params : list R) (st : Ansatz.builder)
  (ij : nat * nat) :
  Ansatz.param_idx st < length params ->
  Ansatz.zz_step params (fst ij) st (snd ij)
  = Ok (Ansatz.MkBuilder
          (Ansatz.circuit st
             ++ [Ansatz.ZZPowGate (nth (Ansatz.param_idx st) params 0%R / PI)
                   (fst ij) (snd ij)])
          (Ansatz.param_idx st + 1) (Ansatz.skipped st)).
Proof.
  intros Hidx. unfold Ansatz.zz_step.
  apply Nat.ltb_lt in Hidx. rewrite Hidx. apply Nat.ltb_lt in Hidx.
  now rewrite (getitem_nth params _ 0%R) by assumption.
Qed.

Lemma layer_gates_chunk (n : nat) (l : list R) :
  Spec.layer_gates n (firstn (Spec.per_layer n) l)
  = map (fun pi : R * nat => Ansatz.Rx (fst pi) (snd pi)) (combine l (seq 0 n))
    ++ map (fun pij : R * (nat * nat) =>
              Ansatz.ZZPowGate (fst pij / PI) (fst (snd pij)) (snd (snd pij)))
         (combine (skipn n l) (Spec.pairs n)).
Proof.
  unfold Spec.layer_gates.
  rewrite firstn_firstn, skipn_firstn_comm.
  rewrite per_layer_pairs.
  replace (Nat.min n (n + length (Spec.pairs n))) with (length (seq 0 n))
    by (rewrite length_seq; lia).
  replace (n + length (Spec.pairs n) - n) with (length (Spec.pairs n)) by lia.
  now rewrite <- !combine_firstn_r.
Qed.

Lemma layer_whole (params : list R) (n : nat) (st : Ansatz.builder) (k : nat) :
  Ansatz.param_idx st + Spec.per_layer n <= length params ->
  Ansatz.layer params n st k
  = Ok (Ansatz.MkBuilder
          (Ansatz.circuit st
             ++ Spec.layer_gates n
                  (firstn (Spec.per_layer n)
                     (skipn (Ansatz.param_idx st) params)))
          (Ansatz.param_idx st + Spec.per_layer n) (Ansatz.skipped st)).
Proof.
  intros Hlen. rewrite per_layer_pairs in Hlen. unfold Ansatz.layer.
  replace (range 0 n) with (seq 0 n) at 1
    by (unfold range; now rewrite Nat.sub_0_r).
  rewrite (consume_loop params nat Ansatz.Rx (Ansatz.rx_step params)
             (rx_step_consumes params))
    by (rewrite length_seq; lia).
  cbn [bind].
  rewrite (double_loop_pairs n (Ansatz.zz_step params)).
  rewrite (consume_loop params (nat * nat)
             (fun p ij => Ansatz.ZZPowGate (p / PI) (fst ij) (snd ij))
             (fun st ij => Ansatz.zz_step params (fst ij) st (snd ij))
             (fun st ij => zz_step_consumes params st ij))
    by (simpl; rewrite length_seq; lia).
  simpl. rewrite layer_gates_chunk, length_seq, per_layer_pairs.
  rewrite skipn_skipn, <- app_assoc, Nat.add_assoc.
  now rewrite (Nat.add_comm n (Ansatz.param_idx st)).
Qed.

Lemma layers_whole (params : list R) (n : nat) (ks : list nat) :
  forall st,
    Ansatz.param_idx st + length ks * Spec.per_layer n <= length params ->
    for_in ks (Ansatz.layer params n) st
    = Ok (Ansatz.MkBuilder
            (Ansatz.circuit st
               ++ Spec.layers_gates n (length ks)
                    (skipn (Ansatz.param_idx st) params))
            (Ansatz.param_idx st + length ks * Spec.per_layer n)
            (Ansatz.skipped st)).
Proof.
  induction ks as [|k ks IH]; intros st Hlen; simpl in *.
  - rewrite app_nil_r, Nat.add_0_r. now destruct st.
  - rewrite layer_whole by lia. cbn [bind].
    rewrite IH by (simpl; lia). simpl.
    rewrite skipn_skipn, <- app_assoc, Nat.add_assoc.
    now rewrite (Nat.add_comm (Spec.per_layer n) (Ansatz.param_idx st)).
Qed.

Lemma build_ansatz_whole_layers (params : list R) (n : nat) :
  1 <= n ->
  Ansatz.build_ansatz params n
  = Ok (Ansatz.MkBuilder
          (map Ansatz.H (seq 0 n)
             ++ Spec.layers_gates n (length params / Spec.per_layer n) params)
          (length params / Spec.per_layer n * Spec.per_layer n) 0).
Proof.
  intros Hn. unfold Ansatz.build_ansatz, floordiv.
  fold (Spec.per_layer n).
  assert (Hper : Spec.per_layer n <> 0) by (unfold Spec.per_layer; lia).
  apply Nat.eqb_neq in Hper. rewrite Hper. apply Nat.eqb_neq in Hper.
  cbn [bind]. unfold range. rewrite !Nat.sub_0_r.
  rewrite layers_whole;
    cbn [Ansatz.circuit Ansatz.param_idx Ansatz.skipped skipn];
    rewrite length_seq.
  - reflexivity.
  - rewrite Nat.mul_comm. apply Nat.Div0.mul_div_le.
Qed.

Lemma layers_gates_firstn (n layers : nat) :
  forall l,
    Spec.layers_gates n layers (firstn (layers * Spec.per_layer n) l)
    = Spec.layers_gates n layers l.
Proof.
  induction layers as [|layers IH]; intros l; simpl; [reflexivity |].
  rewrite firstn_firstn, skipn_firstn_comm.
  replace (Nat.min (Spec.per_layer n)
             (Spec.per_layer n + layers * Spec.per_layer n))
    with (Spec.per_layer n) by lia.
  replace (Spec.per_layer n + layers * Spec.per_layer n - Spec.per_layer n)
    with (layers * Spec.per_layer n) by lia.
  now rewrite IH.
Qed.

Lemma length_layer_gates (n : nat) (chunk : list R) :
  length chunk = Spec.per_layer n ->
  length (Spec.layer_gates n chunk) = Spec.per_layer n.
Proof.
  intros Hlen. unfold Spec.layer_gates.
  rewrite length_app, !length_map, !length_combine.
  rewrite length_firstn, length_skipn, length_seq, Hlen, per_layer_pairs.
  lia.
Qed.

Lemma length_layers_gates (n layers : nat) :
  forall l,
    layers * Spec.per_layer n <= length l ->
    length (Spec.layers_gates n layers l) = layers * Spec.per_layer n.
Proof.
  induction layers as [|layers IH]; intros l Hlen; simpl in *; [reflexivity |].
  rewrite length_app, length_layer_gates, IH.
  - reflexivity.
  - rewrite length_skipn. lia.
  - rewrite length_firstn. lia.
Qed.

(** Without a qubit a layer has no parameter and the layer count divides
    by zero. *)
Example create_ansatz_no_qubit (params : list R) :
  Ansatz.create_ansatz params 0 = Raise ZeroDivisionError.
Proof. reflexivity. Qed.

(** C10. For at least one qubit and any parameter vector, [create_ansatz]
    returns a circuit: the Hadamard gates followed by
    [len(params) // per_layer] whole layers fed with the leading parameters
    in order. It stops at parameter index [layers * per_layer], the guard of
    the entangling loop was never false, each consumed parameter gave one
    gate, and the parameters from that index on do not matter. *)
Theorem create_ansatz_whole_layers (params : list R) (n : nat) :
  1 <= n ->
  let per := Spec.per_layer n in
  let layers := length params / per in
  Ansatz.build_ansatz params n
  = Ok (Ansatz.MkBuilder
          (map Ansatz.H (seq 0 n) ++ Spec.layers_gates n layers params)
          (layers * per) 0)
  /\ Ansatz.create_ansatz params n
     = Ok (map Ansatz.H (seq 0 n) ++ Spec.layers_gates n layers params)
  /\ layers * per <= length params < (layers + 1) * per
  /\ length (Spec.layers_gates n layers params) = layers * per
  /\ Spec.layers_gates n layers params
     = Spec.layers_gates n layers (firstn (layers * per) params).
Proof.
  intros Hn per layers.
  assert (Hper : per <> 0) by (unfold per, Spec.per_layer; lia).
  assert (Hfloor : layers * per <= length params < (layers + 1) * per).
  { unfold layers. split.
    - rewrite Nat.mul_comm. apply Nat.Div0.mul_div_le.
    - pose proof (Nat.mul_succ_div_gt (length params) per Hper). lia. }
  split; [| split; [| split; [| split]]].
  - now apply build_ansatz_whole_layers.
  - unfold Ansatz.create_ansatz.
    now rewrite build_ansatz_whole_layers.
  - exact Hfloor.
  - apply length_layers_gates. lia.
  - symmetry. apply layers_gates_firstn.
Qed.

Lemma create_ansatz_whole_layers_witness :
  Ansatz.create_ansatz [1; 2; 3; 4]%R 2
  = Ok [Ansatz.H 0; Ansatz.H 1; Ansatz.Rx 1 0; Ansatz.Rx 2 1;
        Ansatz.ZZPowGate (3 / PI) 0 1].
Proof.
  destruct (create_ansatz_whole_layers [1; 2; 3; 4]%R 2) as (_ & Hc & _).
  - lia.
  - exact Hc.
Defined.

(** C4, as the code has it: a parameter vector whose length is not a
    multiple of the parameters of one layer is accepted. The circuit is the
    one of its longest prefix of whole layers; the guard was never false. *)
Theorem create_ansatz_tolerates_length_mismatch (params : list R) (n : nat) :
  1 <= n ->
  length params mod Spec.per_layer n <> 0 ->
  let whole :=
    firstn (length params / Spec.per_layer n * Spec.per_layer n) params in
  exists c,
    Ansatz.create_ansatz params n = Ok c
    /\ Ansatz.create_ansatz whole n = Ok c
    /\ length whole < length params.
Proof.
  intros Hn Hmod whole.
  set (per := Spec.per_layer n) in *.
  set (layers := length params / per) in *.
  assert (Hper : per <> 0) by (unfold per, Spec.per_layer; lia).
  assert (Hle : layers * per <= length params).
  { unfold layers. rewrite Nat.mul_comm. apply Nat.Div0.mul_div_le. }
  assert (Hwhole : length whole = layers * per).
  { unfold whole. rewrite length_firstn. lia. }
  exists (map Ansatz.H (seq 0 n) ++ Spec.layers_gates n layers params).
  split; [| split].
  - unfold Ansatz.create_ansatz. rewrite build_ansatz_whole_layers by assumption.
    reflexivity.
  - unfold Ansatz.create_ansatz. rewrite build_ansatz_whole_layers by assumption.
    fold per. rewrite Hwhole, Nat.div_mul by assumption.
    cbn [bind Ansatz.circuit]. unfold whole, per.
    now rewrite layers_gates_firstn.
  - rewrite Hwhole.
    pose proof (Nat.div_mod_eq (length params) per) as Hdm.
    fold layers in Hdm. lia.
Qed.

Lemma create_ansatz_tolerates_length_mismatch_witness :
  exists c,
    Ansatz.create_ansatz [1; 2; 3; 4]%R 2 = Ok c
    /\ Ansatz.create_ansatz [1; 2; 3]%R 2 = Ok c.
Proof.
  destruct (create_ansatz_tolerates_length_mismatch [1; 2; 3; 4]%R 2)
    as (c & Hc & Hw & _).
  - lia.
  - discriminate.
  - exists c. split; [exact Hc | exact Hw].
Defined.

(** C4 as claimed fails: one parameter for two qubits, where a layer needs
    three, gives the circuit of the two Hadamard gates; nothing is raised. *)
Lemma create_ansatz_length_mismatch_no_error :
  length [1%R] mod Spec.per_layer 2 <> 0
  /\ Ansatz.create_ansatz [1%R] 2 = Ok [Ansatz.H 0; Ansatz.H 1]
  /\ ~ raises (Ansatz.create_ansatz [1%R] 2).
Proof.
  assert (Hc : Ansatz.create_ansatz [1%R] 2 = Ok [Ansatz.H 0; Ansatz.H 1]).
  { unfold Ansatz.create_ansatz.
    rewrite build_ansatz_whole_layers by lia. reflexivity. }
  split; [discriminate | split; [exact Hc |]].
  intros [e He]. rewrite Hc in He. discriminate.
Qed.

(** ** The simulator keeps the norm *)

Section SimulatorNorm.
Import Sim.
Local Open Scope R_scope.

Lemma sum_bits_ext (n : nat) (f g : list bool -> R) :
  (forall x, length x = n -> f x = g x) -> sum_bits n f = sum_bits n g.
Proof.
  revert f g. induction n as [|n IH]; intros f g Hfg; simpl.
  - now apply Hfg.
  - f_equal; apply IH; intros x Hx; apply Hfg; simpl; now rewrite Hx.
Qed.

Lemma sum_bits_plus (n : nat) (f g : list bool -> R) :
  sum_bits n (fun x => f x + g x) = sum_bits n f + sum_bits n g.
Proof.
  revert f g. induction n as [|n IH]; intros f g; simpl.
  - reflexivity.
  - rewrite !IH. ring.
Qed.

Lemma sum_bits_scal (n : nat) (c : R) (f : list bool -> R) :
  sum_bits n (fun x => c * f x) = c * sum_bits n f.
Proof.
  revert f. induction n as [|n IH]; intros f; simpl.
  - reflexivity.
  - rewrite !IH. ring.
Qed.

Lemma sum_bits_le (n : nat) (f g : list bool -> R) :
  (forall x, f x <= g x) -> sum_bits n f <= sum_bits n g.
Proof.
  revert f g. induction n as [|n IH]; intros f g Hfg; simpl.
  - apply Hfg.
  - apply Rplus_le_compat; apply IH; intros x; apply Hfg.
Qed.

Lemma Cnorm2_nonneg (a : C) : 0 <= Cnorm2 a.
Proof. unfold Cnorm2. nra. Qed.

Lemma bit_setbit_length (q : nat) (b : bool) (x : list bool) :
  length (setbit q b x) = length x.
Proof.
  revert q. induction x as [|y x IH]; intros [|q]; simpl; auto.
Qed.

(** A one-qubit isometry on a qubit of the register keeps the norm. *)
Lemma apply1_norm2 (U : mat2) (n : nat) :
  isometry U ->
  forall (q : nat) (psi : state_vector),
    (q < n)%nat -> norm2 n (apply1 U q psi) = norm2 n psi.
Proof.
  intros HU. unfold norm2.
  induction n as [|n IH]; intros q psi Hq; [lia |].
  destruct q as [|q]; simpl.
  - rewrite <- !sum_bits_plus. apply sum_bits_ext. intros x _.
    unfold apply1. simpl. apply HU.
  - assert (Hshift : forall b,
      sum_bits n (fun x => Cnorm2 (apply1 U (S q) psi (b :: x)))
      = sum_bits n (fun x => Cnorm2 (psi (b :: x)))).
    { intros b.
      rewrite <- (IH q (fun y => psi (b :: y))) by lia.
      apply sum_bits_ext. intros x _. reflexivity. }
    now rewrite !Hshift.
Qed.

Lemma sqrt2_inv_sqr : / sqrt 2 * / sqrt 2 = / 2.
Proof.
  rewrite <- Rinv_mult. f_equal. apply sqrt_sqrt. lra.
Qed.

Lemma H_matrix_isometry : isometry H_matrix.
Proof.
  intros [ar ai] [br bi]. unfold H_matrix, Cnorm2, Cadd, Cmul. simpl.
  pose proof sqrt2_inv_sqr as Hh.
  set (h := / sqrt 2) in *.
  replace ((h * ar - 0 * ai + (h * br - 0 * bi))
           * (h * ar - 0 * ai + (h * br - 0 * bi))
           + (h * ai + 0 * ar + (h * bi + 0 * br))
             * (h * ai + 0 * ar + (h * bi + 0 * br))
           + ((h * ar - 0 * ai + (- h * br - 0 * bi))
              * (h * ar - 0 * ai + (- h * br - 0 * bi))
              + (h * ai + 0 * ar + (- h * bi + 0 * br))
                * (h * ai + 0 * ar + (- h * bi + 0 * br))))
    with (2 * (h * h) * (ar * ar + ai * ai + br * br + bi * bi)) by ring.
  rewrite Hh. field.
Qed.

Lemma Rx_matrix_isometry (rads : R) : isometry (Rx_matrix rads).
Proof.
  intros [ar ai] [br bi]. unfold Rx_matrix, Cnorm2, Cadd, Cmul. simpl.
  pose proof (sin2_cos2 (rads / 2)) as Hsc. unfold Rsqr in Hsc.
  set (c := cos (rads / 2)) in *. set (s := sin (rads / 2)) in *.
  replace ((c * ar - 0 * ai + (0 * br - - s * bi))
           * (c * ar - 0 * ai + (0 * br - - s * bi))
           + (c * ai + 0 * ar + (0 * bi + - s * br))
             * (c * ai + 0 * ar + (0 * bi + - s * br))
           + ((0 * ar - - s * ai + (c * br - 0 * bi))
              * (0 * ar - - s * ai + (c * br - 0 * bi))
              + (0 * ai + - s * ar + (c * bi + 0 * br))
                * (0 * ai + - s * ar + (c * bi + 0 * br))))
    with ((s * s + c * c) * (ar * ar + ai * ai + br * br + bi * bi)) by ring.
  rewrite Hsc. ring.
Qed.

Lemma phase_norm2 (t : R) (a : C) : Cnorm2 (Cmul (cos t, sin t) a) = Cnorm2 a.
Proof.
  destruct a as [ar ai]. unfold Cnorm2, Cmul. simpl.
  pose proof (sin2_cos2 t) as Hsc. unfold Rsqr in Hsc.
  replace ((cos t * ar - sin t * ai) * (cos t * ar - sin t * ai)
           + (cos t * ai + sin t * ar) * (cos t * ai + sin t * ar))
    with ((sin t * sin t + cos t * cos t) * (ar * ar + ai * ai)) by ring.
  rewrite Hsc. ring.
Qed.

Lemma apply_zzpow_norm2 (n : nat) (e : R) (qa qb : nat) (psi : state_vector) :
  norm2 n (apply_zzpow e qa qb psi) = norm2 n psi.
Proof.
  unfold norm2. apply sum_bits_ext. intros x _. unfold apply_zzpow.
  destruct (xorb (bit qa x) (bit qb x)); [apply phase_norm2 | reflexivity].
Qed.

Lemma apply_gate_norm2 (n : nat) (g : Ansatz.gate) (psi : state_vector) :
  gate_fits n g -> norm2 n (apply_gate psi g) = norm2 n psi.
Proof.
  destruct g as [q | rads q | e qa qb]; simpl; intros Hfit.
  - now apply apply1_norm2; [apply H_matrix_isometry |].
  - now apply apply1_norm2; [apply Rx_matrix_isometry |].
  - apply apply_zzpow_norm2.
Qed.

Lemma sum_bits_zero (n : nat) : sum_bits n (fun _ => 0) = 0.
Proof. induction n as [|n IH]; simpl; [reflexivity | rewrite IH; ring]. Qed.

Lemma ket0_norm2 (n : nat) : norm2 n ket0 = 1.
Proof.
  unfold norm2. induction n as [|n IH]; simpl.
  - unfold ket0, Cnorm2. simpl. ring.
  - replace (sum_bits n (fun x => Cnorm2 (ket0 (true :: x)))) with 0.
    + rewrite Rplus_0_r. rewrite <- IH. apply sum_bits_ext.
      intros x _. reflexivity.
    + rewrite <- (sum_bits_zero n). apply sum_bits_ext. intros x _.
      unfold ket0, Cnorm2. simpl. ring.
Qed.

Lemma fold_gates_norm2 (n : nat) (c : list Ansatz.gate) :
  Forall (gate_fits n) c ->
  forall psi, norm2 n (fold_left apply_gate c psi) = norm2 n psi.
Proof.
  induction 1 as [|g c Hg _ IH]; intros psi; simpl.
  - reflexivity.
  - rewrite IH. now apply apply_gate_norm2.
Qed.

(** The state of a circuit on [n] qubits is normalised. *)
Lemma simulate_norm2 (n : nat) (c : list Ansatz.gate) :
  Forall (gate_fits n) c -> norm2 n (simulate c) = 1.
Proof.
  intros Hc. unfold simulate.
  rewrite fold_gates_norm2 by assumption. apply ket0_norm2.
Qed.

Lemma zz_sign_bound (i j : nat) (x : list bool) : -1 <= zz_sign i j x <= 1.
Proof. unfold zz_sign. destruct (xorb (bit i x) (bit j x)); lra. Qed.

(** On a normalised state the parity expectation lies in [-1, 1]. *)
Lemma zz_expectation_bound (n : nat) (psi : state_vector) (i j : nat) :
  norm2 n psi = 1 -> -1 <= zz_expectation n psi i j <= 1.
Proof.
  intros Hnorm. unfold zz_expectation, norm2 in *. split.
  - replace (-1) with (-1 * sum_bits n (fun x => Cnorm2 (psi x)))
      by (rewrite Hnorm; ring).
    rewrite <- sum_bits_scal. apply sum_bits_le. intros x.
    pose proof (Cnorm2_nonneg (psi x)). pose proof (zz_sign_bound i j x). nra.
  - rewrite <- Hnorm. apply sum_bits_le. intros x.
    pose proof (Cnorm2_nonneg (psi x)). pose proof (zz_sign_bound i j x). nra.
Qed.

End SimulatorNorm.

(** ** The gates of the ansatz *)

Lemma In_firstn {A} (n : nat) (l : list A) (x : A) :
  In x (firstn n l) -> In x l.
Proof.
  intros Hin. rewrite <- (firstn_skipn n l). apply in_or_app. now left.
Qed.

Lemma In_skipn {A} (n : nat) (l : list A) (x : A) :
  In x (skipn n l) -> In x l.
Proof.
  intros Hin. rewrite <- (firstn_skipn n l). apply in_or_app. now right.
Qed.

Lemma rotation_from_incl (l l' : list R) (g : Ansatz.gate) :
  (forall p, In p l -> In p l') ->
  Spec.rotation_from l g -> Spec.rotation_from l' g.
Proof.
  intros Hincl. destruct g as [q | rads q | e qa qb]; simpl.
  - trivial.
  - apply Hincl.
  - intros (p & Hp & He). eauto.
Qed.

Lemma layer_gates_shape (n : nat) (chunk : list R) :
  Forall (fun g => Sim.gate_fits n g /\ Spec.rotation_from chunk g)
    (Spec.layer_gates n chunk).
Proof.
  unfold Spec.layer_gates. apply Forall_app. split.
  - apply Forall_forall. intros g Hg. apply in_map_iff in Hg.
    destruct Hg as ([p i] & <- & Hin). simpl. split.
    + apply in_combine_r in Hin. apply in_seq in Hin. lia.
    + apply in_combine_l in Hin. now apply In_firstn in Hin.
  - apply Forall_forall. intros g Hg. apply in_map_iff in Hg.
    destruct Hg as ([p [i j]] & <- & Hin). simpl. split.
    + apply in_combine_r in Hin. apply in_pairs in Hin. lia.
    + apply in_combine_l in Hin. apply In_skipn in Hin. eauto.
Qed.

Lemma layers_gates_shape (n layers : nat) :
  forall angles,
    Forall (fun g => Sim.gate_fits n g /\ Spec.rotation_from angles g)
      (Spec.layers_gates n layers angles).
Proof.
  induction layers as [|layers IH]; intros angles; simpl; [constructor |].
  apply Forall_app. split.
  - eapply Forall_impl; [| apply layer_gates_shape].
    intros g [Hfit Hrot]. split; [assumption |].
    eapply rotation_from_incl; [| exact Hrot]. apply In_firstn.
  - eapply Forall_impl; [| apply IH].
    intros g [Hfit Hrot]. split; [assumption |].
    eapply rotation_from_incl; [| exact Hrot]. apply In_skipn.
Qed.

Lemma hadamards_fit (n : nat) :
  Forall (Sim.gate_fits n) (map Ansatz.H (seq 0 n)).
Proof.
  apply Forall_forall. intros g Hg. apply in_map_iff in Hg.
  destruct Hg as (q & <- & Hq). apply in_seq in Hq. simpl. lia.
Qed.

Lemma ansatz_gates_fit (n layers : nat) (params : list R) :
  Forall (Sim.gate_fits n)
    (map Ansatz.H (seq 0 n) ++ Spec.layers_gates n layers params).
Proof.
  apply Forall_app. split; [apply hadamards_fit |].
  eapply Forall_impl; [| apply layers_gates_shape]. now intros g [Hfit _].
Qed.

(** ** Exact-mode energy *)

Lemma for_in_accumulate {X} (g : X -> R) (xs : list X) :
  forall energy : R,
    for_in xs (fun energy x => Ok (energy + g x)%R) energy
    = Ok (energy + fold_right (fun x s => g x + s) 0 xs)%R.
Proof.
  induction xs as [|x xs IH]; intros energy; simpl.
  - now rewrite Rplus_0_r.
  - rewrite IH. now rewrite Rplus_assoc.
Qed.

Lemma pair_sum_ext (n : nat) (f g : nat -> nat -> R) :
  (forall i j, i < j < n -> f i j = g i j) ->
  Spec.pair_sum n f = Spec.pair_sum n g.
Proof.
  intros Hfg. unfold Spec.pair_sum.
  assert (Hall : forall ij, In ij (Spec.pairs n) ->
                   f (fst ij) (snd ij) = g (fst ij) (snd ij)).
  { intros [i j] Hin. apply in_pairs in Hin. now apply Hfg. }
  induction (Spec.pairs n) as [|ij l IH]; simpl; [reflexivity |].
  rewrite Hall by now left. rewrite IH; [reflexivity |].
  intros; apply Hall; now right.
Qed.

(** Without any assumption on the numbers: the constant and the weights
    are the wrapped ones. *)
Lemma expectation_value_int64 (numbers : list Z) (params : list R)
  (c : list Ansatz.gate) :
  Ansatz.create_ansatz params (length numbers) = Ok c ->
  VQE.expectation_value numbers params
  = Ok (IZR (int64 (Spec.sum_squares numbers))
        + Spec.pair_sum (length numbers)
            (fun i j =>
               IZR (int64 (2 * nth i numbers 0 * nth j numbers 0)%Z)
               * Sim.zz_expectation (length numbers) (Sim.simulate c) i j))%R.
Proof.
  intros Hc. unfold VQE.expectation_value, VQE.n_qubits.
  rewrite Hc. cbn [bind].
  fold (Encoder.constant_term numbers). rewrite constant_term_int64.
  rewrite (double_loop_pairs (length numbers)
             (fun i energy j =>
                ai <- getitem numbers i ;;
                aj <- getitem numbers j ;;
                Ok (energy
                    + IZR (int64 (int64 (2 * ai) * aj)%Z)
                      * Sim.zz_expectation (length numbers) (Sim.simulate c) i j)%R)).
  unfold Spec.pair_sum.
  rewrite <- (for_in_accumulate
                (fun ij : nat * nat =>
                   IZR (int64 (2 * nth (fst ij) numbers 0
                               * nth (snd ij) numbers 0)%Z)
                   * Sim.zz_expectation (length numbers) (Sim.simulate c)
                       (fst ij) (snd ij))%R).
  apply for_in_ext. intros energy [i j] Hin. apply in_pairs in Hin.
  cbn [fst snd].
  rewrite (getitem_nth numbers _ 0%Z) by lia. cbn [bind].
  rewrite (getitem_nth numbers _ 0%Z) by lia. cbn [bind].
  rewrite int64_mul_l. reflexivity.
Qed.

Lemma expectation_value_of_circuit (numbers : list Z) (params : list R)
  (c : list Ansatz.gate) :
  Spec.fits_int64 numbers ->
  Ansatz.create_ansatz params (length numbers) = Ok c ->
  VQE.expectation_value numbers params
  = Ok (IZR (Spec.sum_squares numbers)
        + Spec.pair_sum (length numbers)
            (fun i j =>
               IZR (2 * nth i numbers 0 * nth j numbers 0)%Z
               * Sim.zz_expectation (length numbers) (Sim.simulate c) i j))%R.
Proof.
  intros Hfit Hc. rewrite (expectation_value_int64 numbers params c Hc).
  rewrite <- constant_term_int64, constant_term_sum_squares by exact Hfit.
  do 2 f_equal. apply pair_sum_ext. intros i j Hij.
  rewrite (fits_int64_small numbers); [reflexivity | exact Hfit |].
  apply pair_weight_bound. lia.
Qed.

(** Without a number the ansatz cannot be built. *)
Example expectation_value_no_number (params : list R) :
  VQE.expectation_value [] params = Raise ZeroDivisionError.
Proof. reflexivity. Qed.

(** C3. For a non-empty list of numbers in the range where 64-bit
    arithmetic is exact and any parameter vector the ansatz is built and the exact-mode energy is the constant term plus the sum
    over the pairs i < j of 2 * a_i * a_j times the expectation of Z_i Z_j
    on the state of the circuit; each such expectation lies in [-1, 1]. *)
Theorem expectation_value_exact_energy (numbers : list Z) (params : list R) :
  Spec.fits_int64 numbers ->
  numbers <> [] ->
  exists c,
    Ansatz.create_ansatz params (length numbers) = Ok c
    /\ VQE.expectation_value numbers params
       = Ok (IZR (Spec.sum_squares numbers)
             + Spec.pair_sum (length numbers)
                 (fun i j =>
                    IZR (2 * nth i numbers 0 * nth j numbers 0)%Z
                    * Sim.zz_expectation (length numbers) (Sim.simulate c) i j))%R
    /\ forall i j,
         i < j < length numbers ->
         (-1 <= Sim.zz_expectation (length numbers) (Sim.simulate c) i j <= 1)%R.
Proof.
  intros Hfit Hne.
  assert (Hn : 1 <= length numbers) by (destruct numbers; simpl; [congruence | lia]).
  set (n := length numbers) in *.
  set (c := map Ansatz.H (seq 0 n)
              ++ Spec.layers_gates n (length params / Spec.per_layer n) params).
  assert (Hc : Ansatz.create_ansatz params n = Ok c).
  { unfold Ansatz.create_ansatz.
    now rewrite build_ansatz_whole_layers. }
  exists c. split; [exact Hc | split].
  - now apply expectation_value_of_circuit.
  - intros i j _. apply zz_expectation_bound.
    apply simulate_norm2. apply ansatz_gates_fit.
Qed.

Lemma expectation_value_exact_energy_witness :
  Spec.fits_int64 [3; 4]%Z
  /\ exists c,
       Ansatz.create_ansatz [1; 2; 3]%R (length [3; 4]%Z) = Ok c
       /\ (-1 <= Sim.zz_expectation 2 (Sim.simulate c) 0 1 <= 1)%R.
Proof.
  split; [reflexivity |].
  destruct (expectation_value_exact_energy [3; 4]%Z [1; 2; 3]%R)
    as (c & Hc & _ & Hbound).
  - reflexivity.
  - discriminate.
  - exists c. split; [exact Hc | apply Hbound; simpl; lia].
Defined.

(** ** All parameters at zero *)

Section ZeroParameters.
Import Sim.
Local Open Scope R_scope.

Lemma setbit_same (q : nat) (x : list bool) : setbit q (bit q x) x = x.
Proof.
  revert q. induction x as [|y x IH]; intros [|q]; simpl; try reflexivity.
  unfold bit in IH. simpl. now rewrite IH.
Qed.

Lemma Rx_zero_identity (q : nat) (psi : state_vector) :
  apply1 (Rx_matrix 0) q psi = psi.
Proof.
  apply functional_extensionality. intros x. unfold apply1, Rx_matrix. simpl.
  replace (0 / 2) with 0 by field. rewrite cos_0, sin_0.
  assert (Hsame := setbit_same q x).
  destruct (bit q x); rewrite Hsame.
  - destruct (psi (setbit q false x)) as [ar ai], (psi x) as [br bi].
    unfold Cadd, Cmul. simpl. f_equal; ring.
  - destruct (psi (setbit q true x)) as [ar ai], (psi x) as [br bi].
    unfold Cadd, Cmul. simpl. f_equal; ring.
Qed.

Lemma ZZPow_zero_identity (qa qb : nat) (psi : state_vector) :
  apply_zzpow (0 / PI) qa qb psi = psi.
Proof.
  apply functional_extensionality. intros x. unfold apply_zzpow.
  replace (PI * (0 / PI)) with 0 by (field; apply PI_neq0).
  rewrite cos_0, sin_0.
  destruct (xorb (bit qa x) (bit qb x)); [| reflexivity].
  destruct (psi x) as [ar ai]. unfold Cmul. simpl. f_equal; ring.
Qed.

Lemma zero_rotation_identity (g : Ansatz.gate) (psi : state_vector) :
  zero_rotation g -> apply_gate psi g = psi.
Proof.
  destruct g as [q | rads q | e qa qb]; simpl.
  - contradiction.
  - intros ->. apply Rx_zero_identity.
  - intros ->. apply ZZPow_zero_identity.
Qed.

Lemma fold_zero_rotations (c : list Ansatz.gate) (psi : state_vector) :
  Forall zero_rotation c -> fold_left apply_gate c psi = psi.
Proof.
  induction 1 as [|g c Hg _ IH]; simpl; [reflexivity |].
  now rewrite zero_rotation_identity.
Qed.

Lemma rotation_from_zeros (m : nat) (g : Ansatz.gate) :
  Spec.rotation_from (repeat 0 m) g -> zero_rotation g.
Proof.
  destruct g as [q | rads q | e qa qb]; simpl.
  - trivial.
  - intros Hin. now apply repeat_spec in Hin.
  - intros (p & Hin & ->). apply repeat_spec in Hin. now subst.
Qed.

Lemma skipn_setbit (k : nat) (b : bool) (x : list bool) :
  (k < length x)%nat -> skipn k (setbit k b x) = b :: skipn (S k) x.
Proof.
  revert k. induction x as [|y x IH]; intros [|k] Hk; simpl in *; try lia.
  - reflexivity.
  - apply IH. lia.
Qed.

(** The Hadamard gates on the first [k] qubits, from all qubits at 0. *)
Lemma hadamards_plus_state (n k : nat) :
  (k <= n)%nat ->
  forall x, length x = n ->
    fold_left apply_gate (map Ansatz.H (seq 0 k)) ket0 x = plus_state k x.
Proof.
  induction k as [|k IH]; intros Hk x Hx.
  - simpl. unfold plus_state, ket0. simpl.
    destruct (existsb (fun b => b) x); reflexivity.
  - rewrite seq_S, map_app, fold_left_app. simpl.
    unfold apply1.
    rewrite !IH by (rewrite ?bit_setbit_length; lia).
    unfold plus_state.
    rewrite !skipn_setbit by lia. cbn [existsb orb].
    destruct (existsb (fun b => b) (skipn (S k) x)), (bit k x);
      unfold Cadd, Cmul, H_matrix; simpl; f_equal; ring.
Qed.

Lemma hadamards_uniform (n : nat) (x : list bool) :
  length x = n ->
  simulate (map Ansatz.H (seq 0 n)) x = ((/ sqrt 2) ^ n, 0).
Proof.
  intros Hx. unfold simulate.
  rewrite (hadamards_plus_state n n) by (assumption || lia).
  unfold plus_state. rewrite skipn_all2 by lia. reflexivity.
Qed.

(** Over all basis states the two parities of a pair of qubits balance. *)
Lemma sum_bits_zz_sign (n : nat) :
  forall i j, (i < j < n)%nat -> sum_bits n (zz_sign i j) = 0.
Proof.
  induction n as [|n IH]; intros i j Hij; [lia |].
  destruct j as [|j]; [lia |]. destruct i as [|i]; simpl.
  - replace (sum_bits n (fun x => zz_sign 0 (S j) (true :: x)))
      with (sum_bits n (fun x => -1 * zz_sign 0 (S j) (false :: x))).
    + rewrite sum_bits_scal. ring.
    + apply sum_bits_ext. intros x _. unfold zz_sign, bit. simpl.
      destruct (nth j x false); simpl; ring.
  - replace (sum_bits n (fun x => zz_sign (S i) (S j) (false :: x)))
      with (sum_bits n (zz_sign i j)) by (apply sum_bits_ext; reflexivity).
    replace (sum_bits n (fun x => zz_sign (S i) (S j) (true :: x)))
      with (sum_bits n (zz_sign i j)) by (apply sum_bits_ext; reflexivity).
    rewrite IH by lia. ring.
Qed.

Lemma zz_expectation_uniform (n : nat) (psi : state_vector) (a : C) (i j : nat) :
  (forall x, length x = n -> psi x = a) ->
  (i < j < n)%nat ->
  zz_expectation n psi i j = 0.
Proof.
  intros Hpsi Hij. unfold zz_expectation.
  rewrite (sum_bits_ext n _ (fun x => Cnorm2 a * zz_sign i j x)).
  - rewrite sum_bits_scal, sum_bits_zz_sign by assumption. ring.
  - intros x Hx. now rewrite Hpsi.
Qed.

Lemma pair_sum_zero (n : nat) (f : nat -> nat -> R) :
  (forall i j, (i < j < n)%nat -> f i j = 0) -> Spec.pair_sum n f = 0.
Proof.
  intros Hf. unfold Spec.pair_sum.
  assert (Hall : forall ij, In ij (Spec.pairs n) -> f (fst ij) (snd ij) = 0).
  { intros [i j] Hin. apply in_pairs in Hin. now apply Hf. }
  induction (Spec.pairs n) as [|ij l IH]; simpl; [reflexivity |].
  rewrite Hall by now left. rewrite IH; [ring |].
  intros; apply Hall; now right.
Qed.

End ZeroParameters.

(** ** Direct enumeration over the uniform distribution *)

Lemma length_all_bitstrings (n : nat) :
  Z.of_nat (length (Spec.all_bitstrings n)) = (2 ^ Z.of_nat n)%Z.
Proof.
  induction n as [|n IH].
  - reflexivity.
  - cbn [Spec.all_bitstrings]. rewrite length_app, !length_map.
    rewrite Nat2Z.inj_add, IH, Nat2Z.inj_succ, Z.pow_succ_r by lia. lia.
Qed.

(** The enumeration lists every row of [n] bits, each once. *)
Lemma all_bitstrings_complete (n : nat) (bits : list nat) :
  In bits (Spec.all_bitstrings n)
  <-> length bits = n /\ Forall (fun b => b <= 1) bits.
Proof.
  revert bits. induction n as [|n IH]; intros bits; cbn [Spec.all_bitstrings].
  - split.
    + intros [<- | []]. split; [reflexivity | constructor].
    + intros [Hlen _]. left. now destruct bits.
  - rewrite in_app_iff, !in_map_iff. split.
    + intros [(x & <- & Hx) | (x & <- & Hx)]; apply IH in Hx;
        destruct Hx as [Hlen Hall]; (split; [simpl; lia | constructor; [lia | exact Hall]]).
    + intros [Hlen Hall]. destruct bits as [|b bits]; [discriminate |].
      inversion Hall as [|? ? Hb Hall']; subst.
      assert (Hin : In bits (Spec.all_bitstrings n))
        by (apply IH; split; [simpl in Hlen; lia | exact Hall']).
      destruct b as [|[|b]]; [left | right | lia]; now exists bits.
Qed.

Lemma all_bitstrings_NoDup (n : nat) : NoDup (Spec.all_bitstrings n).
Proof.
  induction n as [|n IH]; cbn [Spec.all_bitstrings].
  - repeat constructor. intros [].
  - apply NoDup_app.
    + apply Finite.Injective_map_NoDup; [| exact IH].
      intros a b Hab. now inversion Hab.
    + apply Finite.Injective_map_NoDup; [| exact IH].
      intros a b Hab. now inversion Hab.
    + intros x Hx Hx'. apply in_map_iff in Hx, Hx'.
      destruct Hx as (y & <- & _), Hx' as (y' & Heq & _). discriminate.
Qed.

Lemma total_squares_both_signs {X} (s : X -> Z) (a : Z) (xs : list X) :
  (Spec.total (map (fun x => (a * 1 + s x) * (a * 1 + s x)) xs)
   + Spec.total (map (fun x => (a * -1 + s x) * (a * -1 + s x)) xs))%Z
  = (2 * (Z.of_nat (length xs) * (a * a))
     + 2 * Spec.total (map (fun x => s x * s x) xs))%Z.
Proof.
  induction xs as [|x xs IH].
  - reflexivity.
  - cbn [map Spec.total fold_right length]. rewrite Nat2Z.inj_succ.
    fold (Spec.total (map (fun x => (a * 1 + s x) * (a * 1 + s x))%Z xs)).
    fold (Spec.total (map (fun x => (a * -1 + s x) * (a * -1 + s x))%Z xs)).
    fold (Spec.total (map (fun x => s x * s x)%Z xs)).
    set (t0 := Spec.total (map (fun x => (a * 1 + s x) * (a * 1 + s x))%Z xs)) in *.
    set (t1 := Spec.total (map (fun x => (a * -1 + s x) * (a * -1 + s x))%Z xs)) in *.
    set (ts := Spec.total (map (fun x => s x * s x)%Z xs)) in *.
    replace ((a * 1 + s x) * (a * 1 + s x) + t0
             + ((a * -1 + s x) * (a * -1 + s x) + t1))%Z
      with (2 * (a * a) + 2 * (s x * s x) + (t0 + t1))%Z by ring.
    rewrite IH. ring.
Qed.

Lemma enumeration_total_exact (numbers : list Z) :
  Spec.total
    (map (fun bits =>
            Spec.weighted_sum numbers (Decoder.bitstring_to_partition bits)
            * Spec.weighted_sum numbers (Decoder.bitstring_to_partition bits))%Z
       (Spec.all_bitstrings (length numbers)))
  = (2 ^ Z.of_nat (length numbers) * Spec.sum_squares numbers)%Z.
Proof.
  induction numbers as [|a numbers IH].
  - reflexivity.
  - cbn [length Spec.all_bitstrings Spec.sum_squares].
    rewrite map_app, !map_map, total_app.
    rewrite (map_ext _
               (fun x => (a * 1 + Spec.weighted_sum numbers
                                    (Decoder.bitstring_to_partition x))
                         * (a * 1 + Spec.weighted_sum numbers
                                      (Decoder.bitstring_to_partition x)))%Z)
      by (intros x; reflexivity).
    rewrite (map_ext
               (fun x => Spec.weighted_sum (a :: numbers)
                           (Decoder.bitstring_to_partition (1%nat :: x))
                         * Spec.weighted_sum (a :: numbers)
                             (Decoder.bitstring_to_partition (1%nat :: x)))%Z
               (fun x => (a * -1 + Spec.weighted_sum numbers
                                     (Decoder.bitstring_to_partition x))
                         * (a * -1 + Spec.weighted_sum numbers
                                       (Decoder.bitstring_to_partition x)))%Z)
      by (intros x; reflexivity).
    rewrite (total_squares_both_signs
               (fun x => Spec.weighted_sum numbers
                           (Decoder.bitstring_to_partition x))).
    rewrite IH, length_all_bitstrings, Nat2Z.inj_succ, Z.pow_succ_r by lia.
    ring.
Qed.

Lemma enumeration_total (numbers : list Z) :
  Spec.fits_int64 numbers ->
  Spec.total
    (map (fun bits =>
            Decoder.compute_cost numbers (Decoder.bitstring_to_partition bits))
       (Spec.all_bitstrings (length numbers)))
  = (2 ^ Z.of_nat (length numbers) * Spec.sum_squares numbers)%Z.
Proof.
  intros Hfit. rewrite <- enumeration_total_exact. f_equal.
  apply map_ext. intros bits.
  apply compute_cost_weighted_sum; [exact Hfit |].
  apply bitstring_to_partition_spins.
Qed.

(** Direct enumeration gives the constant term. *)
Lemma brute_force_energy_constant (numbers : list Z) :
  Spec.fits_int64 numbers ->
  Spec.brute_force_energy numbers = IZR (Spec.sum_squares numbers).
Proof.
  intros Hfit. unfold Spec.brute_force_energy.
  rewrite enumeration_total, mult_IZR, <- pow_IZR by exact Hfit.
  field. apply pow_nonzero. lra.
Qed.

(** C9. With every parameter at 0 (any number of them) and a non-empty list
    of numbers in the range where 64-bit arithmetic is exact, the ansatz is
    built, every pairwise expectation of Z_i Z_j
    on its state is 0, and the exact-mode energy is the constant term, which
    is also the expectation obtained by direct enumeration of the 2^n
    bitstrings under the uniform distribution. *)
Theorem expectation_value_zero_parameters (numbers : list Z) (m : nat) :
  Spec.fits_int64 numbers ->
  numbers <> [] ->
  exists c,
    Ansatz.create_ansatz (repeat 0%R m) (length numbers) = Ok c
    /\ (forall i j,
          i < j < length numbers ->
          Sim.zz_expectation (length numbers) (Sim.simulate c) i j = 0%R)
    /\ VQE.expectation_value numbers (repeat 0%R m)
       = Ok (IZR (Spec.sum_squares numbers))
    /\ VQE.expectation_value numbers (repeat 0%R m)
       = Ok (Spec.brute_force_energy numbers).
Proof.
  intros Hfit Hne.
  assert (Hn : 1 <= length numbers) by (destruct numbers; simpl; [congruence | lia]).
  set (n := length numbers) in *.
  set (rotations :=
         Spec.layers_gates n (length (repeat 0%R m) / Spec.per_layer n)
           (repeat 0%R m)).
  set (c := map Ansatz.H (seq 0 n) ++ rotations).
  assert (Hc : Ansatz.create_ansatz (repeat 0%R m) n = Ok c).
  { unfold Ansatz.create_ansatz. now rewrite build_ansatz_whole_layers. }
  assert (Hstate : Sim.simulate c = Sim.simulate (map Ansatz.H (seq 0 n))).
  { unfold c, Sim.simulate. rewrite fold_left_app.
    apply fold_zero_rotations.
    eapply Forall_impl; [| apply layers_gates_shape].
    intros g [_ Hrot]. now apply rotation_from_zeros in Hrot. }
  assert (Hzz : forall i j, i < j < n ->
            Sim.zz_expectation n (Sim.simulate c) i j = 0%R).
  { intros i j Hij. rewrite Hstate.
    now apply (zz_expectation_uniform n _ ((/ sqrt 2) ^ n, 0)%R);
      [intros x Hx; apply hadamards_uniform |]. }
  assert (Henergy : VQE.expectation_value numbers (repeat 0%R m)
                    = Ok (IZR (Spec.sum_squares numbers))).
  { rewrite (expectation_value_of_circuit numbers _ c Hfit Hc).
    fold n. rewrite pair_sum_zero.
    - now rewrite Rplus_0_r.
    - intros i j Hij. rewrite Hzz by assumption. apply Rmult_0_r. }
  exists c. split; [exact Hc | split; [exact Hzz | split; [exact Henergy |]]].
  now rewrite brute_force_energy_constant.
Qed.

Lemma expectation_value_zero_parameters_witness :
  Spec.fits_int64 [1; 2; 3]%Z
  /\ VQE.expectation_value [1; 2; 3]%Z (repeat 0%R 12)
     = Ok (IZR (1 + 4 + 9)).
Proof.
  split; [reflexivity |].
  destruct (expectation_value_zero_parameters [1; 2; 3]%Z 12)
    as (c & _ & _ & Henergy & _).
  - reflexivity.
  - discriminate.
  - exact Henergy.
Defined.

(** * Further properties of the code *)

(** ** The encoded Hamiltonian is the cost function *)

Lemma total_scal {X} (c : Z) (f : X -> Z) (l : list X) :
  Spec.total (map (fun x => c * f x)%Z l) = (c * Spec.total (map f l))%Z.
Proof.
  induction l as [|x l IH]; simpl; [lia |].
  fold (Spec.total (map (fun x => c * f x)%Z l)).
  fold (Spec.total (map f l)). rewrite IH. lia.
Qed.

Lemma flat_map_shift (n : nat) (l : list nat) :
  flat_map (fun i => map (pair i) (seq (i + 1) (S n - (i + 1)))) (map S l)
  = map (fun ij : nat * nat => (S (fst ij), S (snd ij)))
      (flat_map (fun i => map (pair i) (seq (i + 1) (n - (i + 1)))) l).
Proof.
  induction l as [|i l IH]; [reflexivity |].
  cbn [map flat_map]. rewrite map_app, IH. f_equal.
  replace (S n - (S i + 1)) with (n - (i + 1)) by lia.
  replace (S i + 1) with (S (i + 1)) by lia.
  rewrite <- seq_shift, !map_map. reflexivity.
Qed.

(** The pairs of [n + 1] indices: those with the index 0, then the pairs of
    the other [n] indices. *)
Lemma pairs_succ (n : nat) :
  Spec.pairs (S n)
  = map (pair 0) (map S (seq 0 n))
    ++ map (fun ij : nat * nat => (S (fst ij), S (snd ij))) (Spec.pairs n).
Proof.
  unfold Spec.pairs.
  change (seq 0 (S n)) with (0 :: seq 1 n). cbn [flat_map].
  replace (seq 1 n) with (map S (seq 0 n)) by apply seq_shift.
  rewrite flat_map_shift. f_equal.
  simpl. now rewrite Nat.sub_0_r, seq_shift.
Qed.

Lemma index_sum_weighted_sum (l q : list Z) :
  length q = length l ->
  Spec.total (map (fun j => nth j l 0 * nth j q 0)%Z (seq 0 (length l)))
  = Spec.weighted_sum l q.
Proof.
  revert q. induction l as [|a l IH]; intros [|s q] Hlen; simpl in Hlen;
    try discriminate; [reflexivity |].
  cbn [length seq map Spec.total fold_right Spec.weighted_sum nth].
  rewrite <- seq_shift, map_map. cbn [nth].
  fold (Spec.total (map (fun j => nth j l 0 * nth j q 0)%Z (seq 0 (length l)))).
  rewrite IH by lia. reflexivity.
Qed.

Lemma weighted_sum_expansion (numbers p : list Z) :
  length p = length numbers ->
  Report.spins p ->
  (Spec.weighted_sum numbers p * Spec.weighted_sum numbers p)%Z
  = (Spec.sum_squares numbers
     + Spec.total
         (map (fun ij : nat * nat =>
                 2 * nth (fst ij) numbers 0 * nth (snd ij) numbers 0
                 * nth (fst ij) p 0 * nth (snd ij) p 0)
            (Spec.pairs (length numbers))))%Z.
Proof.
  revert p. induction numbers as [|a l IH]; intros [|s q] Hlen Hsp;
    simpl in Hlen; try discriminate; [reflexivity |].
  inversion Hsp as [|? ? Hs Hq]; subst.
  specialize (IH q ltac:(lia) Hq).
  cbn [length]. rewrite pairs_succ, map_app, total_app, !map_map.
  cbn [fst snd nth Spec.sum_squares Spec.weighted_sum].
  rewrite (map_ext _ (fun j => (2 * a * s) * (nth j l 0 * nth j q 0))%Z)
    by (intros j; ring).
  rewrite total_scal, index_sum_weighted_sum by lia.
  assert (Hss : (s * s = 1)%Z) by (destruct Hs as [-> | ->]; reflexivity).
  set (W := Spec.weighted_sum l q) in *.
  set (F := Spec.total _) in *.
  replace ((a * s + W) * (a * s + W))%Z
    with (a * a * (s * s) + 2 * a * s * W + W * W)%Z by ring.
  rewrite Hss, IH. ring.
Qed.

Lemma cost_expansion (numbers p : list Z) :
  Spec.fits_int64 numbers ->
  length p = length numbers ->
  Report.spins p ->
  Decoder.compute_cost numbers p
  = (Spec.sum_squares numbers
     + Spec.total
         (map (fun ij : nat * nat =>
                 2 * nth (fst ij) numbers 0 * nth (snd ij) numbers 0
                 * nth (fst ij) p 0 * nth (snd ij) p 0)
            (Spec.pairs (length numbers))))%Z.
Proof.
  intros Hfit Hlen Hsp.
  rewrite compute_cost_weighted_sum by assumption.
  now apply weighted_sum_expansion.
Qed.

(** X1. For numbers in the range where 64-bit arithmetic is exact, on every
    spin assignment of the right length the Hamiltonian the encoder builds
    takes the value [compute_cost] gives the partition. *)
Theorem encoded_hamiltonian_is_cost (numbers p : list Z) :
  Spec.fits_int64 numbers ->
  length p = length numbers ->
  Report.spins p ->
  exists h,
    Encoder.problem_encoder numbers = Ok h
    /\ Ising.value h p = Decoder.compute_cost numbers p.
Proof.
  intros Hfit Hlen Hsp.
  exists (Encoder.MkHamiltonian (Spec.sum_squares numbers)
            (map (Spec.term_of numbers) (Spec.pairs (length numbers)))).
  split.
  - unfold Encoder.problem_encoder.
    now rewrite cost_terms_pairs, constant_term_sum_squares.
  - unfold Ising.value. cbn [Encoder.h_constant_term Encoder.h_cost_terms].
    rewrite map_map, cost_expansion by assumption. reflexivity.
Qed.

Lemma encoded_hamiltonian_is_cost_witness :
  Spec.fits_int64 [1; 1; 2; 2]%Z
  /\ exists h,
       Encoder.problem_encoder [1; 1; 2; 2]%Z = Ok h
       /\ Ising.value h [1; -1; -1; 1]%Z = 0%Z.
Proof.
  split; [reflexivity |].
  destruct (encoded_hamiltonian_is_cost [1; 1; 2; 2]%Z [1; -1; -1; 1]%Z)
    as (h & Hh & Hv).
  - reflexivity.
  - reflexivity.
  - repeat (apply Forall_cons; [auto |]). apply Forall_nil.
  - exists h. split; [exact Hh | exact Hv].
Defined.

(** ** The report, row by row *)

Lemma observed_shape (numbers : list Z) (measurements : list (list nat))
  (p : list Z) :
  Spec.rows_fit numbers measurements ->
  In p (map Decoder.bitstring_to_partition measurements) ->
  length p = length numbers /\ Report.spins p.
Proof.
  intros Hfit Hp. apply in_map_iff in Hp. destruct Hp as (bits & <- & Hin).
  split; [| apply bitstring_to_partition_spins].
  unfold Decoder.bitstring_to_partition. rewrite length_map.
  unfold Spec.rows_fit in Hfit. rewrite Forall_forall in Hfit. auto.
Qed.

(** The report in closed form: the rows of the partitions of minimal cost,
    in the order of the dictionary. *)
Lemma decode_explicit (numbers : list Z) (measurements : list (list nat)) :
  measurements <> [] ->
  Spec.rows_fit numbers measurements ->
  let observed := map Decoder.bitstring_to_partition measurements in
  let d := Decoder.partition_costs numbers measurements in
  exists m,
    (exists q0, In q0 observed /\ Decoder.compute_cost numbers q0 = m)
    /\ (forall q, In q observed -> (m <= Decoder.compute_cost numbers q)%Z)
    /\ Decoder.decode numbers measurements
       = Ok (map (Report.expected_row numbers observed)
               (Decoder.optimal_partitions d m))
    /\ (forall p,
          In p (Decoder.optimal_partitions d m)
          <-> In p observed /\ Decoder.compute_cost numbers p = m).
Proof.
  intros Hne Hfit observed d.
  pose proof (partition_costs_statistics numbers measurements) as Hstat.
  fold observed in Hstat. fold d in Hstat.
  pose proof (statistics_entries numbers observed d Hstat) as Hentries.
  destruct Hstat as (Hnd & Htot & Hget).
  assert (Hd : map (fun kv => Decoder.cost (snd kv)) d <> []).
  { destruct d; [| discriminate].
    destruct measurements; [congruence | discriminate]. }
  destruct (pymin_spec _ Hd) as (m & Hmin & Hm_in & Hm_le).
  exists m.
  assert (Hopt : forall p,
    In p (Decoder.optimal_partitions d m)
    <-> In p observed /\ Decoder.compute_cost numbers p = m).
  { intros p. unfold Decoder.optimal_partitions.
    rewrite in_map_iff. split.
    - intros ([p' v] & Heq & Hin). simpl in Heq. subst p'.
      apply filter_In in Hin. destruct Hin as [Hin Hc].
      apply Hentries in Hin. destruct Hin as [Hobs ->].
      simpl in Hc. apply Z.eqb_eq in Hc. auto.
    - intros [Hobs Hc].
      exists (p, Decoder.MkInfo (Decoder.compute_cost numbers p)
                   (Spec.occurrences observed p)).
      split; [reflexivity |]. apply filter_In. split.
      + apply Hentries. auto.
      + simpl. now apply Z.eqb_eq. }
  split; [| split; [| split; [| exact Hopt]]].
  - apply in_map_iff in Hm_in. destruct Hm_in as ([q0 v0] & Hc & Hin).
    apply Hentries in Hin. destruct Hin as [Hobs ->]. eauto.
  - intros q Hq. apply Hm_le. apply in_map_iff.
    exists (q, Decoder.MkInfo (Decoder.compute_cost numbers q)
                 (Spec.occurrences observed q)).
    split; [reflexivity | apply Hentries; auto].
  - unfold Decoder.decode. fold d. rewrite Hmin. cbn [bind].
    unfold Decoder.table_data.
    change (map (Report.expected_row numbers observed)
              (Decoder.optimal_partitions d m))
      with ([] ++ map (Report.expected_row numbers observed)
                    (Decoder.optimal_partitions d m)).
    apply for_in_append. intros acc p Hp.
    apply Hopt in Hp. destruct Hp as [Hobs _].
    destruct (observed_shape numbers measurements p Hfit Hobs) as [Hlen Hsp].
    rewrite !subset_members by assumption. cbn [bind].
    rewrite Hget. apply occurrences_In in Hobs.
    destruct (Nat.eqb_spec (Spec.occurrences observed p) 0); [contradiction |].
    cbn [bind Decoder.count]. reflexivity.
Qed.

Lemma occurrences_permutation (l l' : list (list Z)) (p : list Z) :
  Permutation l l' -> Spec.occurrences l p = Spec.occurrences l' p.
Proof.
  intros Hperm. unfold Spec.occurrences.
  now apply (Permutation_count_occ (list_eq_dec Z.eq_dec)).
Qed.

(** X2. The statistics do not depend on the order of the shots: two batches
    with the same shots in another order give every partition the same
    entry, the same total, and reports that are rearrangements of each
    other. *)
Theorem decode_order_invariant (numbers : list Z)
  (measurements measurements' : list (list nat)) :
  Permutation measurements measurements' ->
  measurements <> [] ->
  Spec.rows_fit numbers measurements ->
  (forall p,
      Decoder.dict_get (Decoder.partition_costs numbers measurements) p
      = Decoder.dict_get (Decoder.partition_costs numbers measurements') p)
  /\ exists rows rows',
       Decoder.decode numbers measurements = Ok rows
       /\ Decoder.decode numbers measurements' = Ok rows'
       /\ Permutation rows rows'.
Proof.
  intros Hperm Hne Hfit.
  assert (Hne' : measurements' <> []).
  { intros ->. apply Permutation_sym, Permutation_nil in Hperm. contradiction. }
  assert (Hfit' : Spec.rows_fit numbers measurements').
  { unfold Spec.rows_fit in *. eapply Permutation_Forall; eassumption. }
  assert (Hobs : Permutation (map Decoder.bitstring_to_partition measurements)
                   (map Decoder.bitstring_to_partition measurements'))
    by now apply Permutation_map.
  split.
  - intros p.
    destruct (partition_costs_statistics numbers measurements) as (_ & _ & Hg).
    destruct (partition_costs_statistics numbers measurements') as (_ & _ & Hg').
    rewrite Hg, Hg'. now rewrite (occurrences_permutation _ _ p Hobs).
  - destruct (decode_explicit numbers measurements Hne Hfit)
      as (m & (q0 & Hq0 & Hc0) & Hlow & Hdec & Hopt).
    destruct (decode_explicit numbers measurements' Hne' Hfit')
      as (m' & (q0' & Hq0' & Hc0') & Hlow' & Hdec' & Hopt').
    assert (Hm : m = m').
    { assert (In q0 (map Decoder.bitstring_to_partition measurements'))
        by (eapply Permutation_in; eassumption).
      assert (In q0' (map Decoder.bitstring_to_partition measurements))
        by (eapply Permutation_in; [apply Permutation_sym |]; eassumption).
      specialize (Hlow q0' ltac:(assumption)).
      specialize (Hlow' q0 ltac:(assumption)). lia. }
    rewrite <- Hm in Hdec', Hopt'.
    eexists. eexists. split; [exact Hdec | split; [exact Hdec' |]].
    rewrite (map_ext_in
               (Report.expected_row numbers
                  (map Decoder.bitstring_to_partition measurements'))
               (Report.expected_row numbers
                  (map Decoder.bitstring_to_partition measurements))).
    + apply Permutation_map. apply NoDup_Permutation.
      * unfold Decoder.optimal_partitions. apply NoDup_keys_filter.
        apply (partition_costs_statistics numbers measurements).
      * unfold Decoder.optimal_partitions. apply NoDup_keys_filter.
        apply (partition_costs_statistics numbers measurements').
      * intros p. rewrite Hopt, Hopt'. split; intros [Hin Hc]; split; auto.
        -- eapply Permutation_in; eassumption.
        -- eapply Permutation_in; [apply Permutation_sym |]; eassumption.
    + intros p _. unfold Report.expected_row.
      now rewrite (occurrences_permutation _ _ p Hobs).
Qed.

Lemma decode_order_invariant_witness :
  exists rows rows',
    Decoder.decode [1; 1; 2; 2]%Z [[0; 0; 1; 1]; [1; 1; 0; 0]] = Ok rows
    /\ Decoder.decode [1; 1; 2; 2]%Z [[1; 1; 0; 0]; [0; 0; 1; 1]] = Ok rows'
    /\ Permutation rows rows'.
Proof.
  destruct (decode_order_invariant [1; 1; 2; 2]%Z
              [[0; 0; 1; 1]; [1; 1; 0; 0]] [[1; 1; 0; 0]; [0; 0; 1; 1]])
    as [_ Hrows].
  - apply perm_swap.
  - discriminate.
  - repeat constructor.
  - exact Hrows.
Defined.

Lemma dict_contains_count_shot (numbers : list Z) (d : Decoder.dict)
  (bits : list nat) (q : list Z) :
  Decoder.dict_contains (Decoder.count_shot numbers d bits) q
  = Decoder.dict_contains d q
    || Decoder.key_eqb q (Decoder.bitstring_to_partition bits).
Proof.
  unfold Decoder.count_shot.
  set (p := Decoder.bitstring_to_partition bits).
  destruct (Decoder.dict_contains d p) eqn:Hc.
  - assert (Hkeys : Decoder.dict_contains (Decoder.dict_incr_count d p) q
                    = Decoder.dict_contains d q).
    { apply eq_true_iff_eq. rewrite !dict_contains_keys.
      now rewrite dict_incr_count_keys. }
    rewrite Hkeys.
    destruct (Decoder.key_eqb q p) eqn:E; [| now rewrite orb_false_r].
    apply key_eqb_eq in E. subst q. now rewrite Hc.
  - unfold Decoder.dict_set_new, Decoder.dict_contains.
    rewrite existsb_app. simpl. now rewrite orb_false_r.
Qed.

Lemma filter_filter {A} (f g : A -> bool) (l : list A) :
  filter f (filter g l) = filter (fun x => g x && f x) l.
Proof.
  induction l as [|x l IH]; simpl; [reflexivity |].
  destruct (g x); simpl; [destruct (f x) |]; now rewrite IH.
Qed.

(** The keys of the dictionary are the partitions in the order they were
    first seen. *)
Lemma fold_count_shot_keys (numbers : list Z) (measurements : list (list nat)) :
  forall d,
    map fst (fold_left (Decoder.count_shot numbers) measurements d)
    = map fst d
      ++ filter (fun q => negb (Decoder.dict_contains d q))
           (Report.first_occurrences
              (map Decoder.bitstring_to_partition measurements)).
Proof.
  induction measurements as [|bits ms IH]; intros d.
  - simpl. now rewrite app_nil_r.
  - cbn [fold_left map Report.first_occurrences]. rewrite IH.
    set (p := Decoder.bitstring_to_partition bits).
    set (fo := Report.first_occurrences
                 (map Decoder.bitstring_to_partition ms)).
    rewrite (filter_ext _
               (fun q => negb (Decoder.key_eqb q p)
                         && negb (Decoder.dict_contains d q)))
      by (intros q; unfold p; rewrite dict_contains_count_shot, negb_orb;
          apply andb_comm).
    cbn [filter]. rewrite filter_filter.
    unfold Decoder.count_shot. fold p.
    destruct (Decoder.dict_contains d p) eqn:Hc; cbn [negb].
    + now rewrite dict_incr_count_keys.
    + unfold Decoder.dict_set_new. rewrite map_app, <- app_assoc. reflexivity.
Qed.

Lemma partition_costs_keys (numbers : list Z) (measurements : list (list nat)) :
  map fst (Decoder.partition_costs numbers measurements)
  = Report.first_occurrences
      (map Decoder.bitstring_to_partition measurements).
Proof.
  unfold Decoder.partition_costs. rewrite fold_count_shot_keys. simpl.
  induction (Report.first_occurrences _) as [|q l IH]; simpl;
    [reflexivity | now rewrite IH].
Qed.

Lemma first_occurrences_In (l : list (list Z)) (p : list Z) :
  In p (Report.first_occurrences l) <-> In p l.
Proof.
  induction l as [|q l IH]; simpl; [tauto |].
  rewrite filter_In, IH. split.
  - intros [H | [H _]]; auto.
  - intros [H | H]; [now left |].
    destruct (list_eq_dec Z.eq_dec q p) as [Heq | Hne]; [now left |].
    right. split; [assumption |].
    rewrite key_eqb_neq by congruence. reflexivity.
Qed.

Lemma optimal_partitions_keys (numbers : list Z) (d : Decoder.dict) (m : Z) :
  (forall k v, In (k, v) d -> Decoder.cost v = Decoder.compute_cost numbers k) ->
  Decoder.optimal_partitions d m
  = filter (fun p => Z.eqb (Decoder.compute_cost numbers p) m) (map fst d).
Proof.
  unfold Decoder.optimal_partitions.
  induction d as [|[k v] d IH]; intros Hcost; [reflexivity |].
  cbn [filter map fst snd].
  rewrite (Hcost k v) by now left.
  destruct (Z.eqb (Decoder.compute_cost numbers k) m); cbn [map fst];
    rewrite IH by (intros; apply Hcost; now right); reflexivity.
Qed.

(** X3. The rows of the report follow the order in which the partitions
    were first measured: the partitions of the rows are the first
    occurrences of the observed partitions, kept where no observed partition
    is cheaper. *)
Theorem decode_rows_in_first_seen_order (numbers : list Z)
  (measurements : list (list nat)) :
  measurements <> [] ->
  Spec.rows_fit numbers measurements ->
  let observed := map Decoder.bitstring_to_partition measurements in
  exists rows,
    Decoder.decode numbers measurements = Ok rows
    /\ map Decoder.r_partition rows
       = filter
           (fun p =>
              forallb
                (fun q =>
                   (Decoder.compute_cost numbers p
                    <=? Decoder.compute_cost numbers q)%Z)
                observed)
           (Report.first_occurrences observed).
Proof.
  intros Hne Hfit observed.
  destruct (decode_explicit numbers measurements Hne Hfit)
    as (m & (q0 & Hq0 & Hc0) & Hlow & Hdec & Hopt).
  fold observed in Hq0, Hlow, Hdec, Hopt.
  eexists. split; [exact Hdec |].
  rewrite map_map. cbn [Report.expected_row Decoder.r_partition].
  rewrite map_id.
  pose proof (partition_costs_statistics numbers measurements) as Hstat.
  fold observed in Hstat.
  rewrite (optimal_partitions_keys numbers).
  - rewrite partition_costs_keys. fold observed.
    apply filter_ext_in. intros p Hp. apply -> first_occurrences_In in Hp.
    apply eq_true_iff_eq. rewrite Z.eqb_eq, forallb_forall. split.
    + intros <- q Hq. apply Z.leb_le. now apply Hlow.
    + intros Hall. specialize (Hall q0 Hq0). apply Z.leb_le in Hall.
      specialize (Hlow p Hp). lia.
  - intros k v Hin.
    apply (statistics_entries numbers observed _ Hstat) in Hin.
    destruct Hin as [_ ->]. reflexivity.
Qed.

Lemma decode_rows_in_first_seen_order_witness :
  exists rows,
    Decoder.decode [1; 1; 2; 2]%Z
      [[1; 1; 0; 0]; [0; 1; 1; 1]; [0; 0; 1; 1]; [1; 1; 0; 0]] = Ok rows
    /\ map Decoder.r_partition rows = [[-1; -1; 1; 1]; [1; 1; -1; -1]]%Z.
Proof.
  destruct (decode_rows_in_first_seen_order [1; 1; 2; 2]%Z
              [[1; 1; 0; 0]; [0; 1; 1; 1]; [0; 0; 1; 1]; [1; 1; 0; 0]])
    as (rows & Hrows & Hparts).
  - discriminate.
  - repeat constructor.
  - exists rows. split; [exact Hrows | exact Hparts].
Defined.

(** X4. For numbers in the range where 64-bit arithmetic is exact, mirror
    partitions are reported together: when a row's partition has its global
    spin-flip among the observed partitions, the flip has a row too, with
    the opposite sum difference. *)
Theorem decode_reports_mirror (numbers : list Z)
  (measurements : list (list nat)) :
  Spec.fits_int64 numbers ->
  measurements <> [] ->
  Spec.rows_fit numbers measurements ->
  exists rows,
    Decoder.decode numbers measurements = Ok rows
    /\ forall r,
         In r rows ->
         In (Spec.spin_flip (Decoder.r_partition r))
            (map Decoder.bitstring_to_partition measurements) ->
         exists r',
           In r' rows
           /\ Decoder.r_partition r' = Spec.spin_flip (Decoder.r_partition r)
           /\ Decoder.r_sum_difference r' = (- Decoder.r_sum_difference r)%Z.
Proof.
  intros Hrange Hne Hfit.
  destruct (decode_explicit numbers measurements Hne Hfit)
    as (m & _ & _ & Hdec & Hopt).
  eexists. split; [exact Hdec |].
  intros r Hr Hflip. apply in_map_iff in Hr. destruct Hr as (p & <- & Hp).
  cbn [Report.expected_row Decoder.r_partition Decoder.r_sum_difference] in *.
  apply Hopt in Hp. destruct Hp as [Hobs Hc].
  destruct (observed_shape numbers measurements p Hfit Hobs) as [_ Hsp].
  destruct (observed_shape numbers measurements _ Hfit Hflip) as [_ Hsp'].
  exists (Report.expected_row numbers
            (map Decoder.bitstring_to_partition measurements)
            (Spec.spin_flip p)).
  split; [| split].
  - apply in_map. apply Hopt. split; [assumption |].
    rewrite <- Hc. apply spin_flip_same_cost.
  - reflexivity.
  - cbn [Report.expected_row Decoder.r_sum_difference].
    rewrite !sum_difference_exact by assumption.
    apply weighted_sum_flip.
Qed.

Lemma decode_reports_mirror_witness :
  Spec.fits_int64 [1; 1; 2; 2]%Z
  /\ exists rows,
       Decoder.decode [1; 1; 2; 2]%Z [[0; 0; 1; 1]; [1; 1; 0; 0]] = Ok rows
       /\ length rows = 2.
Proof.
  split; [reflexivity |].
  destruct (decode_reports_mirror [1; 1; 2; 2]%Z [[0; 0; 1; 1]; [1; 1; 0; 0]])
    as (rows & Hrows & _).
  - reflexivity.
  - discriminate.
  - repeat constructor.
  - exists rows. split; [exact Hrows |].
    vm_compute in Hrows. injection Hrows as <-. reflexivity.
Defined.

Lemma members_partition (numbers p : list Z) :
  length p = length numbers ->
  Report.spins p ->
  Permutation (Spec.members numbers p 1 ++ Spec.members numbers p (-1)) numbers.
Proof.
  revert p. induction numbers as [|a l IH]; intros [|s q] Hlen Hsp;
    simpl in Hlen; try discriminate; [constructor |].
  inversion Hsp as [|? ? Hs Hq]; subst.
  specialize (IH q ltac:(lia) Hq).
  unfold Spec.members in *. cbn [combine filter snd].
  destruct Hs as [-> | ->]; cbn [Z.eqb Pos.eqb map fst app].
  - now apply perm_skip.
  - apply Permutation_sym, Permutation_cons_app. now apply Permutation_sym.
Qed.

Lemma total_permutation (l l' : list Z) :
  Permutation l l' -> Spec.total l = Spec.total l'.
Proof.
  induction 1; simpl; lia.
Qed.

(** X5. For numbers in the range where 64-bit arithmetic is exact, the two
    subsets of a row split the input: together they are a rearrangement of
    [numbers], so their sums add up to the sum of the numbers and the sum
    difference has the parity of that sum. *)
Theorem decode_subsets_split_numbers (numbers : list Z)
  (measurements : list (list nat)) :
  Spec.fits_int64 numbers ->
  measurements <> [] ->
  Spec.rows_fit numbers measurements ->
  exists rows,
    Decoder.decode numbers measurements = Ok rows
    /\ forall r,
         In r rows ->
         Permutation (Decoder.r_sub_a r ++ Decoder.r_sub_b r) numbers
         /\ (Spec.total (Decoder.r_sub_a r) + Spec.total (Decoder.r_sub_b r)
             = Spec.total numbers)%Z
         /\ (Decoder.r_sum_difference r
             = Spec.total numbers - 2 * Spec.total (Decoder.r_sub_b r))%Z.
Proof.
  intros Hrange Hne Hfit.
  destruct (decode_explicit numbers measurements Hne Hfit)
    as (m & _ & _ & Hdec & Hopt).
  eexists. split; [exact Hdec |].
  intros r Hr. apply in_map_iff in Hr. destruct Hr as (p & <- & Hp).
  cbn [Report.expected_row Decoder.r_sub_a Decoder.r_sub_b
       Decoder.r_sum_difference].
  apply Hopt in Hp. destruct Hp as [Hobs _].
  destruct (observed_shape numbers measurements p Hfit Hobs) as [Hlen Hsp].
  pose proof (members_partition numbers p Hlen Hsp) as Hperm.
  pose proof (total_permutation _ _ Hperm) as Htot.
  rewrite total_app in Htot.
  pose proof (members_difference numbers p Hsp) as Hdiff.
  rewrite sum_difference_exact by assumption.
  split; [exact Hperm | split; [exact Htot | lia]].
Qed.

Lemma decode_subsets_split_numbers_witness :
  Spec.fits_int64 [3; 1; 2]%Z
  /\ exists rows,
       Decoder.decode [3; 1; 2]%Z [[0; 1; 1]; [0; 0; 0]] = Ok rows
       /\ map Decoder.r_sub_a rows = [[3%Z]]
       /\ map Decoder.r_sub_b rows = [[1; 2]%Z].
Proof.
  split; [reflexivity |].
  destruct (decode_subsets_split_numbers [3; 1; 2]%Z [[0; 1; 1]; [0; 0; 0]])
    as (rows & Hrows & _).
  - reflexivity.
  - discriminate.
  - repeat constructor.
  - exists rows. split; [exact Hrows |].
    vm_compute in Hrows. injection Hrows as <-. split; reflexivity.
Defined.

Lemma occurrences_sum_le (obs l : list (list Z)) :
  NoDup l ->
  list_sum (map (Spec.occurrences obs) l) <= length obs.
Proof.
  intros Hnd. induction obs as [|x obs IH].
  - induction l as [|p l IHl]; simpl; [lia |].
    inversion Hnd; subst. apply IHl; assumption.
  - assert (Hstep : list_sum (map (Spec.occurrences (x :: obs)) l)
                    = list_sum (map (Spec.occurrences obs) l)
                      + count_occ (list_eq_dec Z.eq_dec) l x).
    { clear IH Hnd. induction l as [|p l IHl]; [reflexivity |].
      cbn [map count_occ].
      change (list_sum (Spec.occurrences (x :: obs) p
                        :: map (Spec.occurrences (x :: obs)) l))
        with (Spec.occurrences (x :: obs) p
              + list_sum (map (Spec.occurrences (x :: obs)) l)).
      change (list_sum (Spec.occurrences obs p
                        :: map (Spec.occurrences obs) l))
        with (Spec.occurrences obs p
              + list_sum (map (Spec.occurrences obs) l)).
      rewrite IHl.
      unfold Spec.occurrences at 1. cbn [count_occ].
      fold (Spec.occurrences obs p).
      destruct (list_eq_dec Z.eq_dec x p) as [Heq|Hne];
        destruct (list_eq_dec Z.eq_dec p x); try congruence; lia. }
    rewrite Hstep. simpl.
    pose proof (proj1 (NoDup_count_occ (list_eq_dec Z.eq_dec) l) Hnd x). lia.
Qed.

(** X6. For numbers in the range where 64-bit arithmetic is exact, every
    row stands for at least one shot, the frequencies of the rows together
    do not exceed the number of shots, and all rows have the same squared
    sum difference. *)
Theorem decode_frequencies (numbers : list Z) (measurements : list (list nat)) :
  Spec.fits_int64 numbers ->
  measurements <> [] ->
  Spec.rows_fit numbers measurements ->
  exists rows,
    Decoder.decode numbers measurements = Ok rows
    /\ rows <> []
    /\ (forall r, In r rows -> 1 <= Decoder.r_frequency r)
    /\ list_sum (map Decoder.r_frequency rows) <= length measurements
    /\ (forall r r', In r rows -> In r' rows ->
          (Decoder.r_sum_difference r * Decoder.r_sum_difference r
           = Decoder.r_sum_difference r' * Decoder.r_sum_difference r')%Z).
Proof.
  intros Hrange Hne Hfit.
  destruct (decode_explicit numbers measurements Hne Hfit)
    as (m & (q0 & Hq0 & Hc0) & _ & Hdec & Hopt).
  eexists. split; [exact Hdec | split; [| split; [| split]]].
  - assert (Hin : In q0 (Decoder.optimal_partitions
                           (Decoder.partition_costs numbers measurements) m))
      by (apply Hopt; auto).
    intros Hnil. apply map_eq_nil in Hnil. rewrite Hnil in Hin. contradiction.
  - intros r Hr. apply in_map_iff in Hr. destruct Hr as (p & <- & Hp).
    cbn [Report.expected_row Decoder.r_frequency].
    apply Hopt in Hp. destruct Hp as [Hobs _].
    apply occurrences_In in Hobs. lia.
  - rewrite map_map. cbn [Report.expected_row Decoder.r_frequency].
    etransitivity.
    + apply occurrences_sum_le.
      unfold Decoder.optimal_partitions. apply NoDup_keys_filter.
      apply (partition_costs_statistics numbers measurements).
    + now rewrite length_map.
  - intros r r' Hr Hr'.
    apply in_map_iff in Hr, Hr'.
    destruct Hr as (p & <- & Hp), Hr' as (p' & <- & Hp').
    cbn [Report.expected_row Decoder.r_sum_difference].
    apply Hopt in Hp, Hp'. destruct Hp as [Hobs Hc], Hp' as [Hobs' Hc'].
    destruct (observed_shape numbers measurements p Hfit Hobs) as [_ Hsp].
    destruct (observed_shape numbers measurements p' Hfit Hobs') as [_ Hsp'].
    rewrite !sum_difference_exact by assumption.
    rewrite <- !compute_cost_weighted_sum by assumption. congruence.
Qed.

Lemma decode_frequencies_witness :
  Spec.fits_int64 [1; 1; 2; 2]%Z
  /\ exists rows,
       Decoder.decode [1; 1; 2; 2]%Z
         [[0; 1; 1; 0]; [0; 1; 1; 0]; [0; 0; 0; 1]]
       = Ok rows
       /\ map Decoder.r_frequency rows = [2].
Proof.
  split; [reflexivity |].
  destruct (decode_frequencies [1; 1; 2; 2]%Z
              [[0; 1; 1; 0]; [0; 1; 1; 0]; [0; 0; 0; 1]])
    as (rows & Hrows & _).
  - reflexivity.
  - discriminate.
  - repeat constructor.
  - exists rows. split; [exact Hrows |].
    vm_compute in Hrows. injection Hrows as <-. reflexivity.
Defined.

(** ** The sampled energy: errors, order, sign *)

Lemma shot_terms_any (numbers pre : list Z) (bits : list nat) :
  length bits <= length numbers ->
  comprehension
    (fun ib : nat * nat =>
       let (i, b) := ib in
       a <- getitem (pre ++ numbers) i ;;
       Ok (int64 (a * (-1) ^ Z.of_nat b)))
    (combine (seq (length pre) (length bits)) bits)
  = Ok (map (fun ab : Z * nat =>
               int64 (fst ab * (-1) ^ Z.of_nat (snd ab)))
          (combine numbers bits)).
Proof.
  revert numbers pre.
  induction bits as [|b bits IH]; intros numbers pre Hlen.
  - now destruct numbers.
  - destruct numbers as [|a numbers]; simpl in Hlen; [lia |].
    cbn [length seq combine comprehension map fst snd].
    unfold getitem at 1.
    rewrite nth_error_app2, Nat.sub_diag by lia. cbn [nth_error bind].
    specialize (IH numbers (pre ++ [a])).
    rewrite length_app, <- app_assoc in IH. simpl in IH.
    replace (length pre + 1) with (S (length pre)) in IH by lia.
    rewrite IH by lia. reflexivity.
Qed.

Lemma shot_terms_long (numbers pre : list Z) (bits : list nat) :
  length numbers < length bits ->
  comprehension
    (fun ib : nat * nat =>
       let (i, b) := ib in
       a <- getitem (pre ++ numbers) i ;;
       Ok (int64 (a * (-1) ^ Z.of_nat b)))
    (combine (seq (length pre) (length bits)) bits)
  = Raise IndexError.
Proof.
  revert numbers pre.
  induction bits as [|b bits IH]; intros numbers pre Hlen; simpl in Hlen;
    [lia |].
  cbn [length seq combine comprehension].
  destruct numbers as [|a numbers].
  - unfold getitem. rewrite app_nil_r.
    now rewrite (proj2 (nth_error_None pre (length pre)) (Nat.le_refl _)).
  - unfold getitem at 1.
    rewrite nth_error_app2, Nat.sub_diag by lia. cbn [nth_error bind].
    specialize (IH numbers (pre ++ [a])).
    rewrite length_app, <- app_assoc in IH. simpl in IH.
    replace (length pre + 1) with (S (length pre)) in IH by lia.
    rewrite IH by (simpl in Hlen; lia). reflexivity.
Qed.

Lemma shot_energy_short (numbers : list Z) (bits : list nat) :
  length bits <= length numbers ->
  QAOA.shot_energy numbers bits = Ok (Sampled.shot_value numbers bits).
Proof.
  intros Hlen. unfold QAOA.shot_energy, enumerate, Sampled.shot_value.
  assert (Hterms := shot_terms_any numbers [] bits).
  cbn [app length] in Hterms. rewrite Hterms by assumption.
  reflexivity.
Qed.

Lemma shot_energy_long (numbers : list Z) (bits : list nat) :
  length numbers < length bits ->
  QAOA.shot_energy numbers bits = Raise IndexError.
Proof.
  intros Hlen. unfold QAOA.shot_energy, enumerate.
  assert (Hterms := shot_terms_long numbers [] bits).
  cbn [app length] in Hterms. now rewrite Hterms.
Qed.

Lemma comprehension_raise {X Y} (f : X -> result Y) (e : exn) (xs : list X) :
  (forall x, In x xs -> (exists y, f x = Ok y) \/ f x = Raise e) ->
  Exists (fun x => f x = Raise e) xs ->
  comprehension f xs = Raise e.
Proof.
  intros Hf Hex. induction xs as [|x xs IH]; [inversion Hex |].
  cbn [comprehension].
  destruct (Hf x (or_introl eq_refl)) as [[y Hy] | Hr].
  - rewrite Hy. cbn [bind]. rewrite IH; [reflexivity | |].
    + intros; apply Hf; now right.
    + inversion Hex; subst; [congruence | assumption].
  - now rewrite Hr.
Qed.

Lemma energy_short_rows (numbers : list Z) (measurements : list (list nat)) :
  Forall (fun bits => length bits <= length numbers) measurements ->
  QAOA.energy_from_measurements numbers measurements
  = Ok (np_mean (map (Sampled.shot_value numbers) measurements)).
Proof.
  intros Hall. rewrite Forall_forall in Hall.
  unfold QAOA.energy_from_measurements.
  rewrite (comprehension_map _ (Sampled.shot_value numbers))
    by (intros bits Hin; apply shot_energy_short; auto).
  reflexivity.
Qed.

Lemma energy_long_row (numbers : list Z) (measurements : list (list nat)) :
  Exists (fun bits => length numbers < length bits) measurements ->
  QAOA.energy_from_measurements numbers measurements = Raise IndexError.
Proof.
  intros Hex. unfold QAOA.energy_from_measurements.
  rewrite (comprehension_raise (QAOA.shot_energy numbers) IndexError);
    [reflexivity | |].
  - intros bits _.
    destruct (Nat.le_gt_cases (length bits) (length numbers)) as [Hle | Hgt].
    + left. rewrite shot_energy_short by assumption. eauto.
    + right. now apply shot_energy_long.
  - eapply Exists_impl; [| exact Hex].
    intros bits Hgt. now apply shot_energy_long.
Qed.

(** X7. The sampled energy fails in one way only: [IndexError], exactly
    when some row has more entries than there are numbers. Rows that are
    shorter are accepted. *)
Theorem energy_from_measurements_errors (numbers : list Z)
  (measurements : list (list nat)) :
  (Forall (fun bits => length bits <= length numbers) measurements ->
   exists energy,
     QAOA.energy_from_measurements numbers measurements = Ok energy)
  /\ (Exists (fun bits => length numbers < length bits) measurements ->
      QAOA.energy_from_measurements numbers measurements = Raise IndexError).
Proof.
  split.
  - intros Hall. rewrite energy_short_rows by assumption. eauto.
  - apply energy_long_row.
Qed.

Lemma energy_from_measurements_errors_witness :
  (exists energy,
      QAOA.energy_from_measurements [3; 4]%Z [[0]; [1; 0]] = Ok energy)
  /\ QAOA.energy_from_measurements [3; 4]%Z [[0; 1]; [0; 1; 1]]
     = Raise IndexError.
Proof.
  destruct (energy_from_measurements_errors [3; 4]%Z [[0]; [1; 0]])
    as [Hok _].
  destruct (energy_from_measurements_errors [3; 4]%Z [[0; 1]; [0; 1; 1]])
    as [_ Hraise].
  split.
  - apply Hok. repeat constructor.
  - apply Hraise. right. left. simpl. lia.
Defined.

Lemma np_mean_permutation (l l' : list Z) :
  Permutation l l' -> np_mean l = np_mean l'.
Proof.
  intros Hperm.
  pose proof (Permutation_length Hperm) as Hlen.
  pose proof (total_permutation _ _ Hperm) as Htot.
  destruct l as [|x l], l' as [|x' l']; try discriminate; [reflexivity |].
  unfold np_mean. now rewrite !pysum_total, Htot, Hlen.
Qed.

(** X8. The sampled energy does not depend on the order of the shots,
    whether it is a value or an error. *)
Theorem energy_from_measurements_order_invariant (numbers : list Z)
  (measurements measurements' : list (list nat)) :
  Permutation measurements measurements' ->
  QAOA.energy_from_measurements numbers measurements
  = QAOA.energy_from_measurements numbers measurements'.
Proof.
  intros Hperm.
  destruct (Forall_Exists_dec
              (fun bits => length bits <= length numbers)
              (fun bits => le_dec (length bits) (length numbers))
              measurements) as [Hall | Hex].
  - rewrite !energy_short_rows;
      [| eapply Permutation_Forall; eassumption | assumption].
    f_equal. apply np_mean_permutation. now apply Permutation_map.
  - assert (Hlong : Exists (fun bits => length numbers < length bits)
                      measurements)
      by (eapply Exists_impl; [| exact Hex]; simpl; intros; lia).
    rewrite !energy_long_row; [reflexivity | | assumption].
    apply Exists_exists in Hlong. destruct Hlong as (bits & Hin & Hgt).
    apply Exists_exists. exists bits. split; [| assumption].
    eapply Permutation_in; eassumption.
Qed.

Lemma energy_from_measurements_order_invariant_witness :
  QAOA.energy_from_measurements [1; 2]%Z [[0; 1]; [0; 0]]
  = QAOA.energy_from_measurements [1; 2]%Z [[0; 0]; [0; 1]].
Proof.
  apply (energy_from_measurements_order_invariant [1; 2]%Z
           [[0; 1]; [0; 0]] [[0; 0]; [0; 1]]).
  apply perm_swap.
Defined.

Lemma bitstring_to_partition_spin_of_bit (bits : list nat) :
  Decoder.bitstring_to_partition bits = map Spec.spin_of_bit bits.
Proof.
  unfold Decoder.bitstring_to_partition. apply map_ext.
  now intros [|b].
Qed.

Lemma shot_cost_int64 (numbers : list Z) (bits : list nat) :
  Sampled.shot_cost numbers bits = int64 (Spec.signed_sum numbers bits ^ 2).
Proof.
  unfold Sampled.shot_cost, Spec.signed_sum.
  rewrite compute_cost_int64, bitstring_to_partition_spin_of_bit.
  f_equal. lia.
Qed.

Lemma shot_cost_signed_sum (numbers : list Z) (bits : list nat) :
  Spec.fits_int64 numbers ->
  Sampled.shot_cost numbers bits = (Spec.signed_sum numbers bits ^ 2)%Z.
Proof.
  intros Hfit. rewrite shot_cost_int64. now apply signed_sum_square_small.
Qed.

(** On rows of [n] bits the sampled energy is the mean of the costs the
    decoder gives the shots. *)
Lemma energy_mean_cost (numbers : list Z) (measurements : list (list nat)) :
  measurements <> [] ->
  Spec.rows_fit numbers measurements ->
  Spec.rows_binary measurements ->
  QAOA.energy_from_measurements numbers measurements
  = Ok (Finite
          (inject_Z (Spec.total (map (Sampled.shot_cost numbers) measurements))
           / inject_Z (Z.of_nat (length measurements)))%Q).
Proof.
  intros Hne Hfit Hbin. unfold QAOA.energy_from_measurements.
  rewrite (comprehension_map _ (Sampled.shot_cost numbers)).
  - cbn [bind]. unfold np_mean. rewrite pysum_total, length_map.
    destruct measurements; [congruence | reflexivity].
  - intros bits Hin. unfold Spec.rows_fit, Spec.rows_binary in *.
    rewrite Forall_forall in Hfit, Hbin.
    rewrite shot_cost_int64. apply shot_energy_int64; auto.
Qed.

Lemma shot_cost_nonneg (numbers : list Z) (bits : list nat) :
  Spec.fits_int64 numbers ->
  (0 <= Sampled.shot_cost numbers bits)%Z.
Proof. intros Hfit. rewrite shot_cost_signed_sum by exact Hfit. nia. Qed.

Lemma total_nonneg_zero {X} (f : X -> Z) (l : list X) :
  (forall x, 0 <= f x)%Z ->
  (0 <= Spec.total (map f l))%Z
  /\ (Spec.total (map f l) = 0%Z <-> forall x, In x l -> f x = 0%Z).
Proof.
  intros Hf. induction l as [|x l [IHle IHeq]]; simpl.
  - split; [lia | split; [intros _ y [] | reflexivity]].
  - fold (Spec.total (map f l)). specialize (Hf x) as Hx. split; [lia |].
    split.
    + intros Hsum y [<- | Hy]; [lia |]. apply IHeq; [lia | assumption].
    + intros Hall. rewrite (Hall x) by now left.
      rewrite (proj2 IHeq) by (intros; apply Hall; now right). reflexivity.
Qed.

Lemma quotient_sign (t : Z) (m : nat) :
  m <> 0 ->
  ((0 <= t)%Z -> (0 <= inject_Z t / inject_Z (Z.of_nat m))%Q)
  /\ ((inject_Z t / inject_Z (Z.of_nat m) == 0)%Q <-> t = 0%Z).
Proof.
  intros Hm. destruct m as [|m]; [congruence |].
  unfold Qdiv, Qinv, Qmult, Qle, Qeq, inject_Z. simpl. split; [lia |].
  split; lia.
Qed.

(** X9. For numbers in the range where 64-bit arithmetic is exact, on a
    non-empty batch of rows of n bits the sampled energy is never negative, and it is zero exactly when every shot decodes to a partition
    of cost 0. *)
Theorem energy_from_measurements_sign (numbers : list Z)
  (measurements : list (list nat)) :
  Spec.fits_int64 numbers ->
  measurements <> [] ->
  Spec.rows_fit numbers measurements ->
  Spec.rows_binary measurements ->
  exists q,
    QAOA.energy_from_measurements numbers measurements = Ok (Finite q)
    /\ (0 <= q)%Q
    /\ ((q == 0)%Q
        <-> forall bits,
              In bits measurements ->
              Decoder.compute_cost numbers
                (Decoder.bitstring_to_partition bits) = 0%Z).
Proof.
  intros Hrange Hne Hfit Hbin.
  eexists. split; [now apply energy_mean_cost |].
  assert (Hm : length measurements <> 0)
    by (destruct measurements; [congruence | discriminate]).
  destruct (quotient_sign
              (Spec.total (map (Sampled.shot_cost numbers) measurements))
              (length measurements) Hm) as [Hle Heq].
  destruct (total_nonneg_zero (Sampled.shot_cost numbers) measurements
              (fun bits => shot_cost_nonneg numbers bits Hrange))
    as [Hnn Hzero].
  split; [now apply Hle |].
  rewrite Heq, Hzero. reflexivity.
Qed.

Lemma energy_from_measurements_sign_witness :
  Spec.fits_int64 [1; 1; 2; 2]%Z
  /\ QAOA.energy_from_measurements [1; 1; 2; 2]%Z
       [[0; 1; 1; 0]; [1; 0; 0; 1]]
     = Ok (Finite (inject_Z 0 / inject_Z 2)%Q).
Proof.
  split; [reflexivity |].
  destruct (energy_from_measurements_sign [1; 1; 2; 2]%Z
              [[0; 1; 1; 0]; [1; 0; 0; 1]]) as (q & Hq & _).
  - reflexivity.
  - discriminate.
  - repeat constructor.
  - repeat constructor.
  - rewrite Hq. vm_compute in Hq. injection Hq as <-. reflexivity.
Defined.

(** ** The sampled energy and the dictionary of the decoder *)

Lemma counted_cost_incr (d : Decoder.dict) (k : list Z) (v : Decoder.info) :
  Decoder.dict_get d k = Ok v ->
  Report.counted_cost (Decoder.dict_incr_count d k)
  = (Report.counted_cost d + Decoder.cost v)%Z.
Proof.
  unfold Report.counted_cost.
  induction d as [|[k' v'] d IH]; simpl; [discriminate |].
  destruct (Decoder.key_eqb k k'); simpl.
  - intros Heq. inversion Heq; subst. lia.
  - intros Hget. rewrite (IH Hget). lia.
Qed.

Lemma counted_cost_set_new (d : Decoder.dict) (k : list Z) (v : Decoder.info) :
  Report.counted_cost (Decoder.dict_set_new d k v)
  = (Report.counted_cost d
     + Decoder.cost v * Z.of_nat (Decoder.count v))%Z.
Proof.
  unfold Report.counted_cost, Decoder.dict_set_new.
  rewrite map_app, total_app. simpl. lia.
Qed.

Lemma fold_count_shot_counted_cost (numbers : list Z)
  (measurements : list (list nat)) :
  forall obs d,
    Spec.statistics_of numbers obs d ->
    Report.counted_cost (fold_left (Decoder.count_shot numbers) measurements d)
    = (Report.counted_cost d
       + Spec.total (map (Sampled.shot_cost numbers) measurements))%Z.
Proof.
  induction measurements as [|bits ms IH]; intros obs d Hstat.
  - simpl. lia.
  - cbn [fold_left map].
    rewrite (IH _ _ (count_shot_statistics numbers obs d bits Hstat)).
    assert (Hstep :
      Report.counted_cost (Decoder.count_shot numbers d bits)
      = (Report.counted_cost d + Sampled.shot_cost numbers bits)%Z).
    { destruct Hstat as (_ & _ & Hget). unfold Decoder.count_shot.
      set (p := Decoder.bitstring_to_partition bits).
      destruct (Decoder.dict_contains d p) eqn:Hc.
      - apply dict_contains_keys, dict_get_keys in Hc. destruct Hc as [v Hv].
        rewrite (counted_cost_incr d p v Hv).
        rewrite Hget in Hv.
        destruct (Nat.eqb (Spec.occurrences obs p) 0); [discriminate |].
        inversion Hv; subst. reflexivity.
      - rewrite counted_cost_set_new. simpl. unfold Sampled.shot_cost. fold p.
        lia. }
    rewrite Hstep. simpl. fold (Spec.total (map (Sampled.shot_cost numbers) ms)).
    lia.
Qed.

(** X10. The sampled energy can be read off the dictionary of the decoder:
    it is the sum over the entries of cost times count, over the number of
    shots. *)
Theorem energy_from_partition_costs (numbers : list Z)
  (measurements : list (list nat)) :
  measurements <> [] ->
  Spec.rows_fit numbers measurements ->
  Spec.rows_binary measurements ->
  QAOA.energy_from_measurements numbers measurements
  = Ok (Finite
          (inject_Z
             (Report.counted_cost
                (Decoder.partition_costs numbers measurements))
           / inject_Z (Z.of_nat (Spec.total_count
                                   (Decoder.partition_costs numbers
                                      measurements))))%Q).
Proof.
  intros Hne Hfit Hbin.
  rewrite energy_mean_cost by assumption.
  destruct (partition_costs_statistics numbers measurements) as (_ & Htot & _).
  rewrite Htot, length_map.
  unfold Decoder.partition_costs.
  rewrite (fold_count_shot_counted_cost numbers measurements [] []).
  - reflexivity.
  - split; [constructor | split; [reflexivity | intros p; reflexivity]].
Qed.

Lemma energy_from_partition_costs_witness :
  QAOA.energy_from_measurements [1; 2]%Z [[0; 1]; [0; 0]; [0; 1]]
  = Ok (Finite (inject_Z (1 * 2 + 9 * 1) / inject_Z 3)%Q).
Proof.
  rewrite (energy_from_partition_costs [1; 2]%Z [[0; 1]; [0; 0]; [0; 1]]).
  - reflexivity.
  - discriminate.
  - repeat constructor.
  - repeat constructor.
Defined.

Lemma total_lower_bound {X} (f : X -> Z) (m : Z) (l : list X) :
  (forall x, In x l -> (m <= f x)%Z) ->
  (m * Z.of_nat (length l) <= Spec.total (map f l))%Z.
Proof.
  induction l as [|x l IH]; intros Hf.
  - simpl. lia.
  - cbn [length map Spec.total fold_right].
    fold (Spec.total (map f l)).
    specialize (Hf x (or_introl eq_refl)) as Hx.
    specialize (IH ltac:(intros; apply Hf; now right)).
    rewrite Nat2Z.inj_succ, Z.mul_succ_r. lia.
Qed.

(** X11. For numbers in the range where 64-bit arithmetic is exact, the
    cost of the partitions the decoder reports is a lower bound of the
    sampled energy of the same batch: the squared sum difference of a
    row never exceeds the mean cost of the shots. *)
Theorem decode_cost_below_energy (numbers : list Z)
  (measurements : list (list nat)) :
  Spec.fits_int64 numbers ->
  measurements <> [] ->
  Spec.rows_fit numbers measurements ->
  Spec.rows_binary measurements ->
  exists rows q,
    Decoder.decode numbers measurements = Ok rows
    /\ QAOA.energy_from_measurements numbers measurements = Ok (Finite q)
    /\ forall r,
         In r rows ->
         (inject_Z (Decoder.r_sum_difference r * Decoder.r_sum_difference r)
          <= q)%Q.
Proof.
  intros Hrange Hne Hfit Hbin.
  destruct (decode_explicit numbers measurements Hne Hfit)
    as (m & _ & Hlow & Hdec & Hopt).
  eexists. eexists. split; [exact Hdec |].
  split; [now apply energy_mean_cost |].
  intros r Hr. apply in_map_iff in Hr. destruct Hr as (p & <- & Hp).
  cbn [Report.expected_row Decoder.r_sum_difference].
  apply Hopt in Hp. destruct Hp as [Hobs Hc].
  destruct (observed_shape numbers measurements p Hfit Hobs) as [_ Hsp].
  rewrite sum_difference_exact by assumption.
  rewrite <- compute_cost_weighted_sum, Hc by assumption.
  assert (Hbound :
    (m * Z.of_nat (length measurements)
     <= Spec.total (map (Sampled.shot_cost numbers) measurements))%Z).
  { apply total_lower_bound. intros bits Hin. apply Hlow. now apply in_map. }
  apply Qle_shift_div_l.
  - destruct measurements; [congruence |]. reflexivity.
  - rewrite <- inject_Z_mult. now rewrite <- Zle_Qle.
Qed.

Lemma decode_cost_below_energy_witness :
  Spec.fits_int64 [1; 2]%Z
  /\ exists rows q,
       Decoder.decode [1; 2]%Z [[0; 1]; [0; 0]] = Ok rows
       /\ QAOA.energy_from_measurements [1; 2]%Z [[0; 1]; [0; 0]]
          = Ok (Finite q).
Proof.
  split; [reflexivity |].
  destruct (decode_cost_below_energy [1; 2]%Z [[0; 1]; [0; 0]])
    as (rows & q & Hrows & Hq & _).
  - reflexivity.
  - discriminate.
  - repeat constructor.
  - repeat constructor.
  - exists rows, q. split; [exact Hrows | exact Hq].
Defined.

(** ** The ansatz and its parameters *)

Lemma angles_app (c c' : list Ansatz.gate) :
  Angles.angles (c ++ c') = Angles.angles c ++ Angles.angles c'.
Proof. unfold Angles.angles. apply flat_map_app. Qed.

Lemma angles_hadamards (qs : list nat) :
  Angles.angles (map Ansatz.H qs) = [].
Proof. induction qs as [|q qs IH]; simpl; [reflexivity | exact IH]. Qed.

Lemma map_fst_combine {A B} (l : list A) (l' : list B) :
  length l <= length l' -> map fst (combine l l') = l.
Proof.
  revert l'. induction l as [|a l IH]; intros [|b l'] Hlen; simpl in *;
    try lia; [reflexivity | reflexivity |].
  now rewrite IH by lia.
Qed.

Lemma angles_layer_gates (n : nat) (chunk : list R) :
  length chunk = Spec.per_layer n ->
  Angles.angles (Spec.layer_gates n chunk) = chunk.
Proof.
  intros Hlen. unfold Spec.layer_gates. rewrite angles_app.
  rewrite per_layer_pairs in Hlen.
  assert (Hrx : forall l : list (R * nat),
    Angles.angles (map (fun pi => Ansatz.Rx (fst pi) (snd pi)) l) = map fst l).
  { induction l as [|x l IH]; simpl; [reflexivity | now rewrite <- IH]. }
  assert (Hzz : forall l : list (R * (nat * nat)),
    Angles.angles
      (map (fun pij => Ansatz.ZZPowGate (fst pij / PI) (fst (snd pij))
                         (snd (snd pij))) l)
    = map fst l).
  { induction l as [|x l IH]; [reflexivity |].
    cbn [map]. change (Angles.angles (?g :: ?c))
      with (Angles.angle_of g ++ Angles.angles c).
    rewrite IH. cbn [Angles.angle_of app map]. f_equal.
    field. apply PI_neq0. }
  rewrite Hrx, Hzz, !map_fst_combine.
  - apply firstn_skipn.
  - rewrite length_skipn. lia.
  - rewrite length_firstn, length_seq. lia.
Qed.

Lemma angles_layers_gates (n layers : nat) :
  forall l,
    layers * Spec.per_layer n <= length l ->
    Angles.angles (Spec.layers_gates n layers l)
    = firstn (layers * Spec.per_layer n) l.
Proof.
  induction layers as [|layers IH]; intros l Hlen; [reflexivity |].
  cbn [Spec.layers_gates]. simpl in Hlen.
  rewrite angles_app, angles_layer_gates, IH.
  - rewrite <- (firstn_skipn (Spec.per_layer n) l) at 3.
    rewrite firstn_app, length_firstn.
    replace (S layers * Spec.per_layer n
             - Nat.min (Spec.per_layer n) (length l))
      with (layers * Spec.per_layer n) by (simpl; lia).
    rewrite firstn_firstn.
    replace (Nat.min (S layers * Spec.per_layer n) (Spec.per_layer n))
      with (Spec.per_layer n) by (simpl; lia).
    reflexivity.
  - rewrite length_skipn. lia.
  - rewrite length_firstn. lia.
Qed.

(** X12. No parameter is lost, repeated or reordered: reading the angles
    back from the gates of the circuit gives the parameters of the whole
    layers, in order. With a parameter vector of [n_layers * per_layer]
    entries, as the notebook allocates, the angles read back are the vector
    itself and the circuit has one gate per qubit plus one per parameter. *)
Theorem create_ansatz_angles_round_trip (params : list R) (n : nat) :
  1 <= n ->
  exists c,
    Ansatz.create_ansatz params n = Ok c
    /\ Angles.angles c
       = firstn (length params / Spec.per_layer n * Spec.per_layer n) params
    /\ forall n_layers,
         length params = n_layers * Spec.per_layer n ->
         Angles.angles c = params /\ length c = n + length params.
Proof.
  intros Hn.
  set (per := Spec.per_layer n).
  set (layers := length params / per).
  assert (Hper : per <> 0) by (unfold per, Spec.per_layer; lia).
  assert (Hle : layers * per <= length params).
  { unfold layers. rewrite Nat.mul_comm. apply Nat.Div0.mul_div_le. }
  assert (Hangles :
    Angles.angles (map Ansatz.H (seq 0 n) ++ Spec.layers_gates n layers params)
    = firstn (layers * per) params).
  { rewrite angles_app, angles_hadamards. simpl.
    now apply angles_layers_gates. }
  exists (map Ansatz.H (seq 0 n) ++ Spec.layers_gates n layers params).
  split; [| split].
  - unfold Ansatz.create_ansatz. now rewrite build_ansatz_whole_layers.
  - exact Hangles.
  - intros n_layers Hlen.
    assert (Hlayers : layers * per = length params).
    { unfold layers. rewrite Hlen. fold per. now rewrite Nat.div_mul. }
    split.
    + rewrite Hangles, Hlayers. apply firstn_all.
    + rewrite length_app, length_map, length_seq, length_layers_gates
        by assumption.
      fold per. now rewrite Hlayers.
Qed.

Lemma create_ansatz_angles_round_trip_witness :
  exists c,
    Ansatz.create_ansatz [1; 2; 3; 4; 5; 6]%R 2 = Ok c
    /\ Angles.angles c = [1; 2; 3; 4; 5; 6]%R.
Proof.
  destruct (create_ansatz_angles_round_trip [1; 2; 3; 4; 5; 6]%R 2)
    as (c & Hc & _ & Hall).
  - lia.
  - exists c. split; [exact Hc |]. now apply (Hall 2).
Defined.

Lemma layers_gates_app (n layers : nat) (chunk : list R) :
  length chunk = Spec.per_layer n ->
  forall l,
    length l = layers * Spec.per_layer n ->
    Spec.layers_gates n (layers + 1) (l ++ chunk)
    = Spec.layers_gates n layers l ++ Spec.layer_gates n chunk.
Proof.
  intros Hchunk. induction layers as [|layers IH]; intros l Hlen.
  - simpl in Hlen. apply length_zero_iff_nil in Hlen. subst l.
    cbn [Nat.add Spec.layers_gates app]. rewrite app_nil_r.
    now rewrite firstn_all2 by lia.
  - cbn [Nat.add Spec.layers_gates]. simpl in Hlen.
    rewrite firstn_app, skipn_app.
    replace (Spec.per_layer n - length l) with 0 by lia.
    cbn [firstn skipn]. rewrite app_nil_r.
    rewrite IH by (rewrite length_skipn; lia).
    now rewrite app_assoc.
Qed.

(** X13. Parameters for one more layer add one layer and leave the rest of
    the circuit as it was: on a vector of whole layers followed by the
    angles of a further layer, the circuit is the circuit of the vector
    followed by the gates of that layer. *)
Theorem create_ansatz_appends_layer (params chunk : list R) (n n_layers : nat) :
  1 <= n ->
  length params = n_layers * Spec.per_layer n ->
  length chunk = Spec.per_layer n ->
  exists c,
    Ansatz.create_ansatz params n = Ok c
    /\ Ansatz.create_ansatz (params ++ chunk) n
       = Ok (c ++ Spec.layer_gates n chunk).
Proof.
  intros Hn Hlen Hchunk.
  assert (Hper : Spec.per_layer n <> 0) by (unfold Spec.per_layer; lia).
  exists (map Ansatz.H (seq 0 n) ++ Spec.layers_gates n n_layers params).
  unfold Ansatz.create_ansatz. rewrite !build_ansatz_whole_layers by assumption.
  cbn [bind Ansatz.circuit]. rewrite length_app, Hlen, Hchunk.
  rewrite Nat.div_mul by assumption.
  replace (n_layers * Spec.per_layer n + Spec.per_layer n)
    with ((n_layers + 1) * Spec.per_layer n) by lia.
  rewrite Nat.div_mul by assumption.
  split; [reflexivity |].
  now rewrite layers_gates_app, app_assoc.
Qed.

Lemma create_ansatz_appends_layer_witness :
  Ansatz.create_ansatz ([1; 2; 3] ++ [4; 5; 6])%R 2
  = Ok ([Ansatz.H 0; Ansatz.H 1; Ansatz.Rx 1 0; Ansatz.Rx 2 1;
         Ansatz.ZZPowGate (3 / PI) 0 1]
        ++ Spec.layer_gates 2 [4; 5; 6]%R).
Proof.
  destruct (create_ansatz_appends_layer [1; 2; 3]%R [4; 5; 6]%R 2 1)
    as (c & Hc & Happ).
  - lia.
  - reflexivity.
  - reflexivity.
  - rewrite Happ.
    unfold Ansatz.create_ansatz in Hc.
    rewrite build_ansatz_whole_layers in Hc by lia.
    injection Hc as <-. reflexivity.
Defined.

(** X14. The exact-mode energy does not see the parameters beyond the last
    whole layer: it is the same value, or the same error, on the vector and
    on its prefix of whole layers. *)
Theorem expectation_value_ignores_trailing (numbers : list Z) (params : list R) :
  let per := Spec.per_layer (length numbers) in
  VQE.expectation_value numbers params
  = VQE.expectation_value numbers
      (firstn (length params / per * per) params).
Proof.
  intros per. destruct numbers as [|a numbers]; [reflexivity |].
  set (n := length (a :: numbers)) in *.
  assert (Hn : 1 <= n) by (unfold n; simpl; lia).
  assert (Hper : per <> 0) by (unfold per, Spec.per_layer; lia).
  assert (Hle : length params / per * per <= length params).
  { rewrite Nat.mul_comm. apply Nat.Div0.mul_div_le. }
  unfold VQE.expectation_value, VQE.n_qubits. fold n.
  unfold Ansatz.create_ansatz. rewrite !build_ansatz_whole_layers by assumption.
  fold per. rewrite length_firstn.
  replace (Nat.min (length params / per * per) (length params))
    with (length params / per * per) by lia.
  rewrite Nat.div_mul by assumption.
  unfold per. now rewrite layers_gates_firstn.
Qed.

(** ** The exact-mode energy is a mean of costs *)

Section BornRule.
Import Sim.
Local Open Scope R_scope.

Lemma row_spin (x : list bool) (i : nat) :
  (i < length x)%nat ->
  nth i (Decoder.bitstring_to_partition (Born.row x)) 0%Z
  = if bit i x then (-1)%Z else 1%Z.
Proof.
  revert i. induction x as [|b x IH]; intros [|i] Hi; simpl in *; try lia.
  - now destruct b.
  - apply IH. lia.
Qed.

Lemma row_shape (x : list bool) :
  length (Decoder.bitstring_to_partition (Born.row x)) = length x
  /\ Report.spins (Decoder.bitstring_to_partition (Born.row x))
  /\ length (Born.row x) = length x
  /\ Forall (fun b => (b <= 1)%nat) (Born.row x).
Proof.
  unfold Decoder.bitstring_to_partition, Born.row.
  rewrite !length_map. split; [reflexivity | split; [| split]].
  - apply bitstring_to_partition_spins.
  - reflexivity.
  - apply Forall_map, Forall_forall. intros [|] _; lia.
Qed.

Lemma zz_sign_spins (w : Z) (i j : nat) (x : list bool) :
  (i < length x)%nat -> (j < length x)%nat ->
  IZR (w * nth i (Decoder.bitstring_to_partition (Born.row x)) 0
       * nth j (Decoder.bitstring_to_partition (Born.row x)) 0)%Z
  = IZR w * zz_sign i j x.
Proof.
  intros Hi Hj. rewrite !row_spin by assumption. unfold zz_sign.
  destruct (bit i x), (bit j x); simpl; rewrite !mult_IZR; simpl; ring.
Qed.

Lemma IZR_total {X} (f : X -> Z) (l : list X) :
  IZR (Spec.total (map f l)) = fold_right (fun a s => IZR (f a) + s) 0 l.
Proof.
  induction l as [|a l IH]; simpl; [reflexivity |].
  fold (Spec.total (map f l)). now rewrite plus_IZR, IH.
Qed.

Lemma fold_right_sum_ext {X} (f g : X -> R) (l : list X) :
  (forall a, In a l -> f a = g a) ->
  fold_right (fun a s => f a + s) 0 l = fold_right (fun a s => g a + s) 0 l.
Proof.
  induction l as [|a l IH]; intros Hfg; simpl; [reflexivity |].
  rewrite Hfg by now left. rewrite IH; [reflexivity |].
  intros; apply Hfg; now right.
Qed.

Lemma sum_bits_fold {X} (n : nat) (p : list bool -> R) (c : R)
  (g : X -> list bool -> R) (l : list X) :
  sum_bits n (fun x => p x * (c + fold_right (fun a s => g a x + s) 0 l))
  = c * sum_bits n p
    + fold_right (fun a s => sum_bits n (fun x => p x * g a x) + s) 0 l.
Proof.
  induction l as [|a l IH]; simpl.
  - rewrite !Rplus_0_r, <- sum_bits_scal.
    apply sum_bits_ext. intros x _. ring.
  - rewrite <- Rplus_assoc, (Rplus_comm (c * sum_bits n p)), Rplus_assoc.
    rewrite <- IH, <- sum_bits_plus.
    apply sum_bits_ext. intros x _. ring.
Qed.

(** On a normalised state the mean cost is the constant term plus the
    weighted parity expectations. *)
Lemma expected_cost_expansion (numbers : list Z) (psi : state_vector) :
  Spec.fits_int64 numbers ->
  norm2 (length numbers) psi = 1 ->
  Born.expected_cost numbers psi
  = IZR (Spec.sum_squares numbers)
    + Spec.pair_sum (length numbers)
        (fun i j =>
           IZR (2 * nth i numbers 0 * nth j numbers 0)%Z
           * zz_expectation (length numbers) psi i j).
Proof.
  intros Hrange Hnorm.
  unfold Born.expected_cost, Born.probability, Spec.pair_sum.
  set (n := length numbers) in *.
  rewrite (sum_bits_ext n _
             (fun x =>
                Cnorm2 (psi x)
                * (IZR (Spec.sum_squares numbers)
                   + fold_right
                       (fun ij s =>
                          IZR (2 * nth (fst ij) numbers 0
                               * nth (snd ij) numbers 0)%Z
                          * zz_sign (fst ij) (snd ij) x + s)
                       0 (Spec.pairs n)))).
  - rewrite sum_bits_fold. fold (norm2 n psi). rewrite Hnorm, Rmult_1_r.
    f_equal. apply fold_right_sum_ext. intros [i j] _. cbn [fst snd].
    unfold zz_expectation. rewrite <- sum_bits_scal.
    apply sum_bits_ext. intros x _. ring.
  - intros x Hx. f_equal. unfold Sampled.shot_cost.
    destruct (row_shape x) as (Hlen & Hsp & _).
    rewrite cost_expansion by (assumption || (rewrite Hlen; exact Hx)).
    fold n. rewrite plus_IZR, IZR_total. f_equal.
    apply fold_right_sum_ext. intros [i j] Hin. apply in_pairs in Hin.
    cbn [fst snd]. apply zz_sign_spins; lia.
Qed.

Lemma sum_bits_le_len (n : nat) (f g : list bool -> R) :
  (forall x, length x = n -> f x <= g x) -> sum_bits n f <= sum_bits n g.
Proof.
  revert f g. induction n as [|n IH]; intros f g Hfg; simpl.
  - now apply Hfg.
  - apply Rplus_le_compat; apply IH; intros x Hx; apply Hfg; simpl;
      now rewrite Hx.
Qed.

Lemma expected_cost_between (numbers : list Z) (psi : state_vector) (lo hi : Z) :
  norm2 (length numbers) psi = 1 ->
  (forall bits, In bits (Spec.all_bitstrings (length numbers)) ->
     (lo <= Sampled.shot_cost numbers bits <= hi)%Z) ->
  IZR lo <= Born.expected_cost numbers psi <= IZR hi.
Proof.
  intros Hnorm Hcost. unfold Born.expected_cost, Born.probability.
  assert (Hrow : forall x, length x = length numbers ->
            IZR lo <= IZR (Sampled.shot_cost numbers (Born.row x)) <= IZR hi).
  { intros x Hx. destruct (row_shape x) as (_ & _ & Hlen & Hbits).
    destruct (Hcost (Born.row x)) as [Hlo Hhi].
    - apply all_bitstrings_complete. split; [congruence | assumption].
    - split; now apply IZR_le. }
  unfold norm2 in Hnorm. split.
  - replace (IZR lo)
      with (IZR lo * sum_bits (length numbers) (fun x => Cnorm2 (psi x)))
      by (rewrite Hnorm; ring).
    rewrite <- sum_bits_scal. apply sum_bits_le_len. intros x Hx.
    pose proof (Cnorm2_nonneg (psi x)). specialize (Hrow x Hx). nra.
  - replace (IZR hi)
      with (IZR hi * sum_bits (length numbers) (fun x => Cnorm2 (psi x)))
      by (rewrite Hnorm; ring).
    rewrite <- sum_bits_scal. apply sum_bits_le_len. intros x Hx.
    pose proof (Cnorm2_nonneg (psi x)). specialize (Hrow x Hx). nra.
Qed.

End BornRule.

Lemma ansatz_state (numbers : list Z) (params : list R) :
  Spec.fits_int64 numbers ->
  numbers <> [] ->
  exists c,
    Ansatz.create_ansatz params (length numbers) = Ok c
    /\ Sim.norm2 (length numbers) (Sim.simulate c) = 1%R
    /\ VQE.expectation_value numbers params
       = Ok (Born.expected_cost numbers (Sim.simulate c)).
Proof.
  intros Hfit Hne.
  assert (Hn : 1 <= length numbers)
    by (destruct numbers; simpl; [congruence | lia]).
  set (c := map Ansatz.H (seq 0 (length numbers))
              ++ Spec.layers_gates (length numbers)
                   (length params / Spec.per_layer (length numbers)) params).
  assert (Hc : Ansatz.create_ansatz params (length numbers) = Ok c).
  { unfold Ansatz.create_ansatz. now rewrite build_ansatz_whole_layers. }
  assert (Hnorm : Sim.norm2 (length numbers) (Sim.simulate c) = 1%R)
    by (apply simulate_norm2, ansatz_gates_fit).
  exists c. split; [exact Hc | split; [exact Hnorm |]].
  rewrite (expectation_value_of_circuit numbers params c Hfit Hc).
  now rewrite expected_cost_expansion.
Qed.

(** X15. For numbers in the range where 64-bit arithmetic is exact, the
    exact-mode energy is the mean of [compute_cost] over the measurement
    rows, each weighted with the probability the state of the
    ansatz gives it; these probabilities are not negative and add up to 1.
    The exact mode computes what the sampled mode estimates. *)
Theorem expectation_value_is_mean_cost (numbers : list Z) (params : list R) :
  Spec.fits_int64 numbers ->
  numbers <> [] ->
  exists c,
    Ansatz.create_ansatz params (length numbers) = Ok c
    /\ VQE.expectation_value numbers params
       = Ok (Born.expected_cost numbers (Sim.simulate c))
    /\ (forall x, 0 <= Born.probability (Sim.simulate c) x)%R
    /\ Sim.sum_bits (length numbers) (Born.probability (Sim.simulate c)) = 1%R.
Proof.
  intros Hfit Hne.
  destruct (ansatz_state numbers params Hfit Hne)
    as (c & Hc & Hnorm & Henergy).
  exists c. split; [exact Hc | split; [exact Henergy | split]].
  - intros x. apply Cnorm2_nonneg.
  - exact Hnorm.
Qed.

Lemma expectation_value_is_mean_cost_witness :
  Spec.fits_int64 [3; 4]%Z
  /\ exists c,
       Ansatz.create_ansatz [1; 2; 3]%R (length [3; 4]%Z) = Ok c
       /\ VQE.expectation_value [3; 4]%Z [1; 2; 3]%R
          = Ok (Born.expected_cost [3; 4]%Z (Sim.simulate c)).
Proof.
  split; [reflexivity |].
  destruct (expectation_value_is_mean_cost [3; 4]%Z [1; 2; 3]%R)
    as (c & Hc & Henergy & _).
  - reflexivity.
  - discriminate.
  - exists c. split; [exact Hc | exact Henergy].
Defined.

(** X16. For numbers in the range where 64-bit arithmetic is exact, the
    exact-mode energy lies between the least and the greatest cost of a
    partition: whatever the parameters, it is not below a lower bound
    of the costs of all rows of n bits nor above an upper bound, and it is
    never negative. *)
Theorem expectation_value_between_costs (numbers : list Z) (params : list R) :
  Spec.fits_int64 numbers ->
  numbers <> [] ->
  exists energy,
    VQE.expectation_value numbers params = Ok energy
    /\ (0 <= energy)%R
    /\ forall lo hi : Z,
         (forall bits,
             In bits (Spec.all_bitstrings (length numbers)) ->
             (lo <= Decoder.compute_cost numbers
                      (Decoder.bitstring_to_partition bits) <= hi)%Z) ->
         (IZR lo <= energy <= IZR hi)%R.
Proof.
  intros Hfit Hne.
  destruct (ansatz_state numbers params Hfit Hne)
    as (c & Hc & Hnorm & Henergy).
  eexists. split; [exact Henergy | split].
  - unfold Born.expected_cost, Born.probability.
    rewrite <- (sum_bits_zero (length numbers)).
    apply sum_bits_le. intros x.
    pose proof (Cnorm2_nonneg (Sim.simulate c x)).
    pose proof (IZR_le _ _ (shot_cost_nonneg numbers (Born.row x) Hfit)).
    simpl in *. nra.
  - intros lo hi Hcost. now apply expected_cost_between.
Qed.

Lemma expectation_value_between_costs_witness :
  Spec.fits_int64 [3; 4]%Z
  /\ exists energy,
       VQE.expectation_value [3; 4]%Z [1; 2; 3]%R = Ok energy
       /\ (IZR 1 <= energy <= IZR 49)%R.
Proof.
  split; [reflexivity |].
  destruct (expectation_value_between_costs [3; 4]%Z [1; 2; 3]%R)
    as (energy & Henergy & _ & Hbounds).
  - reflexivity.
  - discriminate.
  - exists energy. split; [exact Henergy |].
    apply Hbounds. intros bits Hin. simpl in Hin.
    repeat (destruct Hin as [<- | Hin]; [vm_compute; split; discriminate |]).
    contradiction.
Defined.

(** ** The QAOA circuit *)

Section QAOAState.
Import Sim.
Local Open Scope R_scope.

Lemma fold_left_snoc_map {A B} (f : A -> B) (l : list A) (c : list B) :
  fold_left (fun c t => c ++ [f t]) l c = c ++ map f l.
Proof.
  revert c. induction l as [|a l IH]; intros c; simpl.
  - now rewrite app_nil_r.
  - rewrite IH, <- app_assoc. reflexivity.
Qed.

Lemma measure_qubits (numbers : list Z) :
  numbers <> [] ->
  QAOACircuit.measure (seq 0 (length numbers))
  = Ok (QAOACircuit.Measure (seq 0 (length numbers))).
Proof. destruct numbers; [congruence | reflexivity]. Qed.

(** Without a number there is no qubit to measure: the construction of the
    circuit raises. *)
Example qaoa_circuit_no_number (gamma beta : R) :
  QAOACircuit.circuit [] gamma beta = Raise ValueError.
Proof. reflexivity. Qed.

(** The circuit in closed form: Hadamards, one cost rotation per pair, one
    mixer rotation per qubit, the measurement. *)
Lemma qaoa_circuit_explicit (numbers : list Z) (gamma beta : R) :
  numbers <> [] ->
  QAOACircuit.circuit numbers gamma beta
  = Ok (map QAOACircuit.H (seq 0 (length numbers))
        ++ map (fun ij => QAOACircuit.cost_pow (Spec.term_of_int64 numbers ij) gamma)
             (Spec.pairs (length numbers))
        ++ map (fun q => QAOACircuit.mixer_pow q beta) (seq 0 (length numbers))
        ++ [QAOACircuit.Measure (seq 0 (length numbers))]).
Proof.
  intros Hne. unfold QAOACircuit.circuit, QAOACircuit.mixer, range.
  rewrite cost_terms_int64. cbn [bind]. rewrite Nat.sub_0_r.
  rewrite (measure_qubits numbers Hne). cbn [bind].
  rewrite !fold_left_snoc_map, map_map, <- !app_assoc. reflexivity.
Qed.

Lemma XPow_matrix_isometry (t : R) : isometry (QAOACircuit.XPow_matrix t).
Proof.
  intros [ar ai] [br bi]. unfold QAOACircuit.XPow_matrix, Cnorm2, Cadd, Cmul.
  simpl.
  pose proof (sin2_cos2 (PI * t)) as Hsc. unfold Rsqr in Hsc.
  set (c := cos (PI * t)) in *. set (s := sin (PI * t)) in *.
  match goal with
  | |- ?l = ?r =>
      assert (Hd : l - r
                   = (s * s + c * c - 1)
                     * ((ar * ar + ai * ai + br * br + bi * bi) / 2
                        - (ar * br + ai * bi))) by field
  end.
  rewrite Hsc in Hd. lra.
Qed.

Lemma apply_op_norm2 (n : nat) (o : QAOACircuit.op) (psi : state_vector) :
  QAOACircuit.op_fits n o ->
  norm2 n (QAOACircuit.apply_op psi o) = norm2 n psi.
Proof.
  destruct o as [q | e qa qb | t q | qs]; simpl; intros Hfit.
  - now apply apply1_norm2; [apply H_matrix_isometry |].
  - apply apply_zzpow_norm2.
  - now apply apply1_norm2; [apply XPow_matrix_isometry |].
  - reflexivity.
Qed.

Lemma fold_ops_norm2 (n : nat) (c : list QAOACircuit.op) :
  Forall (QAOACircuit.op_fits n) c ->
  forall psi, norm2 n (fold_left QAOACircuit.apply_op c psi) = norm2 n psi.
Proof.
  induction 1 as [|o c Ho _ IH]; intros psi; simpl.
  - reflexivity.
  - rewrite IH. now apply apply_op_norm2.
Qed.

Lemma qaoa_ops_fit (numbers : list Z) (gamma beta : R) :
  Forall (QAOACircuit.op_fits (length numbers))
    (map QAOACircuit.H (seq 0 (length numbers))
     ++ map (fun ij => QAOACircuit.cost_pow (Spec.term_of_int64 numbers ij) gamma)
          (Spec.pairs (length numbers))
     ++ map (fun q => QAOACircuit.mixer_pow q beta) (seq 0 (length numbers))
     ++ [QAOACircuit.Measure (seq 0 (length numbers))]).
Proof.
  repeat (apply Forall_app; split).
  - apply Forall_forall. intros o Ho. apply in_map_iff in Ho.
    destruct Ho as (q & <- & Hq). apply in_seq in Hq. simpl. lia.
  - apply Forall_forall. intros o Ho. apply in_map_iff in Ho.
    destruct Ho as ([i j] & <- & Hij). apply in_pairs in Hij. simpl. lia.
  - apply Forall_forall. intros o Ho. apply in_map_iff in Ho.
    destruct Ho as (q & <- & Hq). apply in_seq in Hq. simpl. lia.
  - repeat constructor.
Qed.

End QAOAState.

(** X17. The QAOA circuit is built for every non-empty list of numbers and
    every pair of angles, with one Hadamard gate and one mixer rotation per qubit,
    one cost rotation per pair of qubits and the measurement; the
    probabilities its state gives the measurement rows add up to 1. *)
Theorem qaoa_circuit_normalised (numbers : list Z) (gamma beta : R) :
  numbers <> [] ->
  exists c,
    QAOACircuit.circuit numbers gamma beta = Ok c
    /\ length c
       = 2 * length numbers + length numbers * (length numbers - 1) / 2 + 1
    /\ (forall x, 0 <= Born.probability (QAOACircuit.state c) x)%R
    /\ Sim.sum_bits (length numbers) (Born.probability (QAOACircuit.state c))
       = 1%R.
Proof.
  intros Hne.
  eexists. split; [now apply qaoa_circuit_explicit | split; [| split]].
  - rewrite !length_app, !length_map, length_seq, length_pairs. simpl. lia.
  - intros x. apply Cnorm2_nonneg.
  - change (Sim.norm2 (length numbers)
              (QAOACircuit.state
                 (map QAOACircuit.H (seq 0 (length numbers))
                  ++ map (fun ij =>
                            QAOACircuit.cost_pow (Spec.term_of_int64 numbers ij) gamma)
                       (Spec.pairs (length numbers))
                  ++ map (fun q => QAOACircuit.mixer_pow q beta)
                       (seq 0 (length numbers))
                  ++ [QAOACircuit.Measure (seq 0 (length numbers))]))
            = 1%R).
    unfold QAOACircuit.state.
    rewrite fold_ops_norm2 by apply qaoa_ops_fit. apply ket0_norm2.
Qed.

Lemma qaoa_circuit_normalised_witness :
  [3; 4]%Z <> []
  /\ exists c,
       QAOACircuit.circuit [3; 4]%Z 1%R 1%R = Ok c
       /\ length c = 6.
Proof.
  split; [discriminate |].
  destruct (qaoa_circuit_normalised [3; 4]%Z 1%R 1%R)
    as (c & Hc & Hlen & _).
  - discriminate.
  - exists c. split; [exact Hc | exact Hlen].
Defined.

Section QAOAUniform.
Import Sim.
Local Open Scope R_scope.

Lemma hadamard_ops (qs : list nat) :
  forall psi,
    fold_left QAOACircuit.apply_op (map QAOACircuit.H qs) psi
    = fold_left apply_gate (map Ansatz.H qs) psi.
Proof.
  induction qs as [|q qs IH]; intros psi; simpl; [reflexivity | apply IH].
Qed.

Lemma qaoa_state_layers (numbers : list Z) (gamma beta : R) :
  QAOACircuit.state
    (map QAOACircuit.H (seq 0 (length numbers))
     ++ map (fun ij => QAOACircuit.cost_pow (Spec.term_of_int64 numbers ij) gamma)
          (Spec.pairs (length numbers))
     ++ map (fun q => QAOACircuit.mixer_pow q beta) (seq 0 (length numbers))
     ++ [QAOACircuit.Measure (seq 0 (length numbers))])
  = fold_left QAOACircuit.apply_op
      (map (fun q => QAOACircuit.mixer_pow q beta) (seq 0 (length numbers)))
      (fold_left QAOACircuit.apply_op
         (map (fun ij => QAOACircuit.cost_pow (Spec.term_of_int64 numbers ij) gamma)
            (Spec.pairs (length numbers)))
         (simulate (map Ansatz.H (seq 0 (length numbers))))).
Proof.
  unfold QAOACircuit.state, simulate.
  rewrite !fold_left_app, hadamard_ops. reflexivity.
Qed.

Lemma fold_ops_ext {X} (f g : X -> QAOACircuit.op) (l : list X) :
  (forall a psi, In a l ->
     QAOACircuit.apply_op psi (f a) = QAOACircuit.apply_op psi (g a)) ->
  forall psi,
    fold_left QAOACircuit.apply_op (map f l) psi
    = fold_left QAOACircuit.apply_op (map g l) psi.
Proof.
  induction l as [|a l IH]; intros Hfg psi; simpl; [reflexivity |].
  rewrite Hfg by now left. apply IH. intros; apply Hfg; now right.
Qed.

Lemma fold_ops_identity {X} (f : X -> QAOACircuit.op) (l : list X) :
  (forall a psi, In a l -> QAOACircuit.apply_op psi (f a) = psi) ->
  forall psi, fold_left QAOACircuit.apply_op (map f l) psi = psi.
Proof.
  induction l as [|a l IH]; intros Hf psi; simpl; [reflexivity |].
  rewrite Hf by now left. apply IH. intros; apply Hf; now right.
Qed.

Lemma apply_zzpow_zero (e : R) (qa qb : nat) (psi : state_vector) :
  e = 0 -> apply_zzpow e qa qb psi = psi.
Proof.
  intros ->. apply functional_extensionality. intros x. unfold apply_zzpow.
  rewrite Rmult_0_r, cos_0, sin_0.
  destruct (xorb (bit qa x) (bit qb x)); [| reflexivity].
  destruct (psi x) as [ar ai]. unfold Cmul. simpl. f_equal; ring.
Qed.

Lemma XPow_zero (t : R) (q : nat) (psi : state_vector) :
  t = 0 -> apply1 (QAOACircuit.XPow_matrix t) q psi = psi.
Proof.
  intros ->. apply functional_extensionality. intros x.
  unfold apply1, QAOACircuit.XPow_matrix. simpl.
  rewrite Rmult_0_r, cos_0, sin_0.
  assert (Hsame := setbit_same q x).
  destruct (bit q x); rewrite Hsame.
  - destruct (psi (setbit q false x)) as [ar ai], (psi x) as [br bi].
    unfold Cadd, Cmul. simpl. f_equal; field.
  - destruct (psi (setbit q true x)) as [ar ai], (psi x) as [br bi].
    unfold Cadd, Cmul. simpl. f_equal; field.
Qed.

(** Cost rotations only change phases: the probabilities stay. *)
Lemma cost_layer_probability {X} (f : X -> QAOACircuit.op) (l : list X) :
  (forall a, In a l -> exists e qa qb, f a = QAOACircuit.ZZPow e qa qb) ->
  forall psi x,
    Cnorm2 (fold_left QAOACircuit.apply_op (map f l) psi x) = Cnorm2 (psi x).
Proof.
  induction l as [|a l IH]; intros Hf psi x; simpl; [reflexivity |].
  rewrite IH by (intros; apply Hf; now right).
  destruct (Hf a (or_introl eq_refl)) as (e & qa & qb & ->). simpl.
  unfold apply_zzpow.
  destruct (xorb (bit qa x) (bit qb x)); [apply phase_norm2 | reflexivity].
Qed.

(** A mixer rotation leaves a state of equal amplitudes as it is. *)
Lemma mixer_layer_uniform (n : nat) (a : C) (beta : R) (qs : list nat) :
  forall psi,
    (forall x, length x = n -> psi x = a) ->
    forall x, length x = n ->
      fold_left QAOACircuit.apply_op
        (map (fun q => QAOACircuit.mixer_pow q beta) qs) psi x = a.
Proof.
  induction qs as [|q qs IH]; intros psi Hpsi x Hx; simpl; [now apply Hpsi |].
  apply IH; [| assumption].
  intros y Hy. unfold apply1.
  rewrite !Hpsi by (rewrite bit_setbit_length; exact Hy).
  destruct a as [ar ai].
  destruct (bit q y); unfold Cadd, Cmul, QAOACircuit.XPow_matrix; simpl;
    f_equal; field.
Qed.

Lemma uniform_probability (n : nat) :
  Cnorm2 ((/ sqrt 2) ^ n, 0) = (/ 2) ^ n.
Proof.
  unfold Cnorm2. simpl. rewrite Rmult_0_l, Rplus_0_r.
  rewrite <- Rpow_mult_distr, sqrt2_inv_sqr. reflexivity.
Qed.

Lemma sum_bits_rows (n : nat) :
  forall f : list nat -> Z,
    sum_bits n (fun x => IZR (f (Born.row x)))
    = IZR (Spec.total (map f (Spec.all_bitstrings n))).
Proof.
  induction n as [|n IH]; intros f.
  - simpl. now rewrite Z.add_0_r.
  - cbn [sum_bits Spec.all_bitstrings].
    rewrite map_app, !map_map, total_app, plus_IZR.
    rewrite <- (IH (fun r => f (0%nat :: r))), <- (IH (fun r => f (1%nat :: r))).
    reflexivity.
Qed.

(** With every row equally likely the mean cost is the constant term. *)
Lemma expected_cost_uniform (numbers : list Z) (psi : state_vector) :
  Spec.fits_int64 numbers ->
  (forall x, length x = length numbers ->
     Born.probability psi x = (/ 2) ^ length numbers) ->
  Born.expected_cost numbers psi = IZR (Spec.sum_squares numbers).
Proof.
  intros Hfit Hp. unfold Born.expected_cost.
  rewrite (sum_bits_ext _ _
             (fun x => (/ 2) ^ length numbers
                       * IZR (Sampled.shot_cost numbers (Born.row x))))
    by (intros x Hx; now rewrite Hp).
  rewrite sum_bits_scal, (sum_bits_rows _ (Sampled.shot_cost numbers)).
  unfold Sampled.shot_cost.
  rewrite enumeration_total, mult_IZR, <- pow_IZR, <- Rmult_assoc
    by exact Hfit.
  rewrite <- Rpow_mult_distr.
  replace (/ 2 * 2) with 1 by field. rewrite pow1. ring.
Qed.

End QAOAUniform.

(** X18. For a non-empty list of numbers in the range where 64-bit
    arithmetic is exact: when [gamma] is 0 or [beta] is 0 the QAOA circuit
    prepares a state that gives every measurement row of n bits the
    probability [1 / 2^n], and the mean cost of a shot is the constant term
    of the Hamiltonian. *)
Theorem qaoa_uniform_at_zero (numbers : list Z) (gamma beta : R) :
  numbers <> [] ->
  Spec.fits_int64 numbers ->
  gamma = 0%R \/ beta = 0%R ->
  exists c,
    QAOACircuit.circuit numbers gamma beta = Ok c
    /\ (forall x,
          length x = length numbers ->
          Born.probability (QAOACircuit.state c) x
          = ((/ 2) ^ length numbers)%R)
    /\ Born.expected_cost numbers (QAOACircuit.state c)
       = IZR (Spec.sum_squares numbers).
Proof.
  intros Hne Hfit Hzero.
  eexists. split; [now apply qaoa_circuit_explicit |].
  assert (Hprob : forall x,
    length x = length numbers ->
    Born.probability
      (QAOACircuit.state
         (map QAOACircuit.H (seq 0 (length numbers))
          ++ map (fun ij => QAOACircuit.cost_pow (Spec.term_of_int64 numbers ij) gamma)
               (Spec.pairs (length numbers))
          ++ map (fun q => QAOACircuit.mixer_pow q beta)
               (seq 0 (length numbers))
          ++ [QAOACircuit.Measure (seq 0 (length numbers))])) x
    = ((/ 2) ^ length numbers)%R).
  { intros x Hx. unfold Born.probability. rewrite qaoa_state_layers.
    destruct Hzero as [-> | ->].
    - rewrite (fold_ops_identity
                 (fun ij => QAOACircuit.cost_pow (Spec.term_of_int64 numbers ij) 0%R)).
      + rewrite (mixer_layer_uniform (length numbers)
                   ((/ sqrt 2) ^ length numbers, 0)%R)
          by (assumption || (intros y Hy; now apply hadamards_uniform)).
        apply uniform_probability.
      + intros ij psi _. simpl. apply apply_zzpow_zero. ring.
    - rewrite (fold_ops_identity
                 (fun q => QAOACircuit.mixer_pow q 0%R)).
      + rewrite (cost_layer_probability
                   (fun ij => QAOACircuit.cost_pow (Spec.term_of_int64 numbers ij) gamma))
          by (intros ij _; unfold QAOACircuit.cost_pow; eauto).
        rewrite hadamards_uniform by assumption.
        apply uniform_probability.
      + intros q psi _. simpl. apply XPow_zero. ring. }
  split; [exact Hprob | now apply expected_cost_uniform].
Qed.

Lemma qaoa_uniform_at_zero_witness :
  [3; 4]%Z <> []
  /\ Spec.fits_int64 [3; 4]%Z
  /\ exists c,
       QAOACircuit.circuit [3; 4]%Z 0%R 1%R = Ok c
       /\ Born.expected_cost [3; 4]%Z (QAOACircuit.state c) = IZR (9 + 16).
Proof.
  split; [discriminate |]. split; [reflexivity |].
  destruct (qaoa_uniform_at_zero [3; 4]%Z 0%R 1%R) as (c & Hc & _ & Hcost).
  - discriminate.
  - reflexivity.
  - now left.
  - exists c. split; [exact Hc | exact Hcost].
Defined.

Section QAOAPeriod.
Import Sim.
Local Open Scope R_scope.

Lemma cos_sin_period_Z (x : R) (k : Z) :
  cos (x + 2 * IZR k * PI) = cos x /\ sin (x + 2 * IZR k * PI) = sin x.
Proof.
  destruct k as [|p|p].
  - replace (x + 2 * 0 * PI) with x by ring. auto.
  - rewrite <- (positive_nat_Z p), <- INR_IZR_INZ.
    split; [apply cos_period | apply sin_period].
  - set (y := x + 2 * IZR (Z.neg p) * PI).
    assert (Hx : x = y + 2 * INR (Pos.to_nat p) * PI).
    { unfold y. rewrite INR_IZR_INZ, positive_nat_Z.
      change (Z.neg p) with (- Z.pos p)%Z. rewrite opp_IZR. ring. }
    clearbody y. rewrite Hx, cos_period, sin_period. auto.
Qed.

Lemma cost_pow_period (numbers : list Z) (ij : nat * nat) (gamma : R)
  (psi : state_vector) :
  QAOACircuit.apply_op psi
    (QAOACircuit.cost_pow (Spec.term_of_int64 numbers ij) (gamma + 1))
  = QAOACircuit.apply_op psi
      (QAOACircuit.cost_pow (Spec.term_of_int64 numbers ij) gamma).
Proof.
  unfold QAOACircuit.cost_pow, Spec.term_of_int64.
  cbn [QAOACircuit.apply_op Encoder.weight Encoder.zq1 Encoder.zq2].
  unfold apply_zzpow.
  set (a := nth (fst ij) numbers 0%Z). set (b := nth (snd ij) numbers 0%Z).
  replace (2 * a * b)%Z with (2 * (a * b))%Z by ring.
  destruct (int64_even (a * b)) as [k Hk]. rewrite Hk.
  replace (PI * (IZR (2 * k) * (gamma + 1)))
    with (PI * (IZR (2 * k) * gamma) + 2 * IZR k * PI)
    by (rewrite !mult_IZR; ring).
  destruct (cos_sin_period_Z (PI * (IZR (2 * k) * gamma)) k) as [Hc Hs].
  now rewrite Hc, Hs.
Qed.

Lemma mixer_pow_period (q : nat) (beta : R) (psi : state_vector) :
  QAOACircuit.apply_op psi (QAOACircuit.mixer_pow q (beta + 2))
  = QAOACircuit.apply_op psi (QAOACircuit.mixer_pow q beta).
Proof.
  unfold QAOACircuit.mixer_pow. cbn [QAOACircuit.apply_op].
  unfold QAOACircuit.XPow_matrix.
  replace (PI * (1 * (beta + 2))) with (PI * (1 * beta) + 2 * IZR 1 * PI)
    by ring.
  destruct (cos_sin_period_Z (PI * (1 * beta)) 1) as [Hc Hs].
  now rewrite Hc, Hs.
Qed.

End QAOAPeriod.

(** X19. For a non-empty list of numbers, the state the QAOA circuit
    prepares, and with it the distribution of the samples, repeats when
    [gamma] grows by 1, because every weight, the 64-bit value of
    [2 * a_i * a_j], is an even integer, and when [beta] grows by 2. *)
Theorem qaoa_state_periodic (numbers : list Z) (gamma beta : R) :
  numbers <> [] ->
  exists c c_gamma c_beta,
    QAOACircuit.circuit numbers gamma beta = Ok c
    /\ QAOACircuit.circuit numbers (gamma + 1) beta = Ok c_gamma
    /\ QAOACircuit.circuit numbers gamma (beta + 2) = Ok c_beta
    /\ QAOACircuit.state c_gamma = QAOACircuit.state c
    /\ QAOACircuit.state c_beta = QAOACircuit.state c.
Proof.
  intros Hne.
  eexists. eexists. eexists.
  split; [now apply qaoa_circuit_explicit |].
  split; [now apply qaoa_circuit_explicit |].
  split; [now apply qaoa_circuit_explicit |].
  rewrite !qaoa_state_layers. split.
  - f_equal. apply fold_ops_ext. intros ij psi _. apply cost_pow_period.
  - apply fold_ops_ext. intros q psi _. apply mixer_pow_period.
Qed.

Lemma qaoa_state_periodic_witness :
  [3; 4]%Z <> []
  /\ exists c c_gamma,
       QAOACircuit.circuit [3; 4]%Z 0%R 1%R = Ok c
       /\ QAOACircuit.circuit [3; 4]%Z (0 + 1)%R 1%R = Ok c_gamma
       /\ QAOACircuit.state c_gamma = QAOACircuit.state c.
Proof.
  split; [discriminate |].
  destruct (qaoa_state_periodic [3; 4]%Z 0%R 1%R)
    as (c & c_gamma & _ & Hc & Hg & _ & Hstate & _).
  - discriminate.
  - exists c, c_gamma. split; [exact Hc | split; [exact Hg | exact Hstate]].
Defined.

(** ** Looking a partition up *)

(** X20. Looking a partition up in the dictionary of a batch: an observed
    partition has an entry that holds the cost [compute_cost] gives it now
    and the number of shots that gave it; any other partition has no entry
    and the lookup raises [KeyError]. *)
Theorem partition_costs_lookup (numbers : list Z)
  (measurements : list (list nat)) (p : list Z) :
  let d := Decoder.partition_costs numbers measurements in
  let observed := map Decoder.bitstring_to_partition measurements in
  (In p observed ->
   Decoder.dict_get d p
   = Ok (Decoder.MkInfo (Decoder.compute_cost numbers p)
           (Spec.occurrences observed p))
   /\ Decoder.dict_contains d p = true)
  /\ (~ In p observed ->
      Decoder.dict_get d p = Raise KeyError
      /\ Decoder.dict_contains d p = false).
Proof.
  intros d observed.
  destruct (partition_costs_statistics numbers measurements)
    as (_ & _ & Hget).
  fold d in Hget. fold observed in Hget.
  specialize (Hget p).
  split; intros Hobs.
  - apply occurrences_In in Hobs.
    destruct (Nat.eqb_spec (Spec.occurrences observed p) 0); [contradiction |].
    split; [exact Hget |].
    apply dict_contains_keys, dict_get_keys. eauto.
  - assert (Hz : Spec.occurrences observed p = 0).
    { destruct (Nat.eq_dec (Spec.occurrences observed p) 0) as [|Hnz];
        [assumption |].
      exfalso. apply Hobs. now apply occurrences_In. }
    rewrite Hz in Hget. cbn [Nat.eqb] in Hget. split; [exact Hget |].
    destruct (Decoder.dict_contains d p) eqn:Hc; [| reflexivity].
    apply dict_contains_keys, dict_get_keys in Hc. destruct Hc as [v Hv].
    congruence.
Qed.

Lemma partition_costs_lookup_witness :
  Decoder.dict_get (Decoder.partition_costs [1; 2]%Z [[0; 1]; [0; 1]])
    [1; -1]%Z
  = Ok (Decoder.MkInfo 1 2)
  /\ Decoder.dict_get (Decoder.partition_costs [1; 2]%Z [[0; 1]; [0; 1]])
       [1; 1]%Z
     = Raise KeyError.
Proof.
  destruct (partition_costs_lookup [1; 2]%Z [[0; 1]; [0; 1]] [1; -1]%Z)
    as [Hfound _].
  destruct (partition_costs_lookup [1; 2]%Z [[0; 1]; [0; 1]] [1; 1]%Z)
    as [_ Hmissing].
  split.
  - apply Hfound. simpl. now left.
  - apply Hmissing. simpl. intros [H | [H | []]]; discriminate.
Defined.

(** ** Too few parameters *)

(** X21. For numbers in the range where 64-bit arithmetic is exact: with
    fewer parameters than one layer needs the ansatz is the Hadamard gates
    alone, and the exact-mode energy is the constant term
    whatever the parameters are: the objective is flat. *)
Theorem expectation_value_without_layer (numbers : list Z) (params : list R) :
  Spec.fits_int64 numbers ->
  numbers <> [] ->
  length params < Spec.per_layer (length numbers) ->
  Ansatz.create_ansatz params (length numbers)
  = Ok (map Ansatz.H (seq 0 (length numbers)))
  /\ VQE.expectation_value numbers params
     = Ok (IZR (Spec.sum_squares numbers)).
Proof.
  intros Hfit Hne Hshort.
  assert (Hn : 1 <= length numbers)
    by (destruct numbers; simpl; [congruence | lia]).
  assert (Hc : Ansatz.create_ansatz params (length numbers)
               = Ok (map Ansatz.H (seq 0 (length numbers)))).
  { unfold Ansatz.create_ansatz.
    rewrite build_ansatz_whole_layers by assumption.
    rewrite Nat.div_small by assumption.
    cbn [bind Ansatz.circuit Spec.layers_gates]. now rewrite app_nil_r. }
  split; [exact Hc |].
  rewrite (expectation_value_of_circuit numbers params _ Hfit Hc).
  rewrite pair_sum_zero; [now rewrite Rplus_0_r |].
  intros i j Hij.
  rewrite (zz_expectation_uniform (length numbers) _
             ((/ sqrt 2) ^ length numbers, 0)%R)
    by (assumption || (intros x Hx; now apply hadamards_uniform)).
  apply Rmult_0_r.
Qed.

Lemma expectation_value_without_layer_witness :
  Spec.fits_int64 [3; 4]%Z
  /\ VQE.expectation_value [3; 4]%Z [1; 2]%R = Ok (IZR (9 + 16)).
Proof.
  split; [reflexivity |].
  destruct (expectation_value_without_layer [3; 4]%Z [1; 2]%R) as [_ Henergy].
  - reflexivity.
  - discriminate.
  - vm_compute. lia.
  - exact Henergy.
Defined.
